(** * Matchmaker engine: a shallow embedding of
      [src/services/matchmaker/service.ts] and of the helpers it imports
      from [common/utils] and [types], with the properties of the
      specification stated over it.

    Conventions of the embedding.
    - A JavaScript [number] holding a timestamp, a count, a port or a
      priority is a [Z].
    - An optional field ([f?: T]) is an [option]; [undefined] is [None].
    - [Map<string, V>] is an insertion-ordered association list
      ([JsMap]); iteration order is list order.
    - Objects stored in a map are mutated through references in the
      source; here the entry holding the object is rewritten in place.
    - [now()] is read from the environment: every engine call takes the
      clock reading as an argument (one reading per call).
    - [generateId()] is read from the environment as well: the calls
      that draw an identifier take it as an argument.
    - [this.emit(...)] appends to the [emitted] log of the engine; the
      logger calls have no effect on the engine and are left out. *)

From Stdlib Require Import ZArith String List Bool Lia Arith Sorted Permutation.
Import ListNotations.

Local Open Scope Z_scope.

(* ------------------------------------------------------------------ *)
(** ** Array helpers used by the service *)

Section ArrayHelpers.
Context {A : Type}.

(** [Array.prototype.findIndex]; [None] stands for [-1]. *)
Fixpoint findIndex (p : A -> bool) (l : list A) : option nat :=
  match l with
  | [] => None
  | x :: r =>
      if p x then Some O
      else match findIndex p r with
           | Some i => Some (S i)
           | None => None
           end
  end.

(** [arr.splice(i, 0, x)] *)
Definition splice_insert (i : nat) (x : A) (l : list A) : list A :=
  firstn i l ++ x :: skipn i l.

(** [arr.splice(i, 1)] *)
Definition splice_remove (i : nat) (l : list A) : list A :=
  firstn i l ++ skipn (S i) l.

(** [arr.push(x)] *)
Definition push (x : A) (l : list A) : list A := l ++ [x].
End ArrayHelpers.

(** [arr.indexOf(s)] on an array of strings; [None] stands for [-1]. *)
Definition indexOf (s : string) (l : list string) : option nat :=
  findIndex (String.eqb s) l.

(** [===] on optional strings and numbers. *)
Definition opt_string_eqb (a b : option string) : bool :=
  match a, b with
  | Some x, Some y => String.eqb x y
  | None, None => true
  | _, _ => false
  end.

Definition opt_Z_eqb (a b : option Z) : bool :=
  match a, b with
  | Some x, Some y => Z.eqb x y
  | None, None => true
  | _, _ => false
  end.

(* ------------------------------------------------------------------ *)
(** ** Insertion-ordered maps *)

Module JsMap.
Section Defs.
Context {V : Type}.

Definition t := list (string * V).

Definition empty : t := [].

Fixpoint get (k : string) (m : t) : option V :=
  match m with
  | [] => None
  | (k', v) :: r => if String.eqb k' k then Some v else get k r
  end.

(** [set] keeps the position of an existing key and appends a new one. *)
Fixpoint set (k : string) (v : V) (m : t) : t :=
  match m with
  | [] => [(k, v)]
  | (k', v') :: r =>
      if String.eqb k' k then (k, v) :: r else (k', v') :: set k v r
  end.

Definition delete (k : string) (m : t) : t :=
  filter (fun kv => negb (String.eqb (fst kv) k)) m.

Definition keys (m : t) : list string := map fst m.
Definition values (m : t) : list V := map snd m.
Definition entries (m : t) : list (string * V) := m.
Definition size (m : t) : nat := length m.
End Defs.
Arguments t : clear implicits.
End JsMap.

(* ------------------------------------------------------------------ *)
(** ** Data model ([types/index.ts]) *)

Definition Metadata := list (string * string).

Module CirrusServer.
Record t := mk {
  id : string;
  address : option string;
  port : option Z;
  https : bool;
  numConnectedClients : Z;
  lastPingReceived : Z;
  ready : bool;
  lastRedirect : option Z;
  metadata : option Metadata
}.

Definition set_ready (b : bool) (s : t) : t :=
  mk (id s) (address s) (port s) (https s) (numConnectedClients s)
     (lastPingReceived s) b (lastRedirect s) (metadata s).

Definition set_numConnectedClients (n : Z) (s : t) : t :=
  mk (id s) (address s) (port s) (https s) n
     (lastPingReceived s) (ready s) (lastRedirect s) (metadata s).

Definition set_lastPingReceived (n : Z) (s : t) : t :=
  mk (id s) (address s) (port s) (https s) (numConnectedClients s)
     n (ready s) (lastRedirect s) (metadata s).

Definition set_lastRedirect (r : option Z) (s : t) : t :=
  mk (id s) (address s) (port s) (https s) (numConnectedClients s)
     (lastPingReceived s) (ready s) r (metadata s).
End CirrusServer.

Inductive SessionStatus := queued | connected | disconnected | expired.

Module ClientSession.
Record t := mk {
  id : string;
  clientId : option string;
  serverId : option string;
  createdAt : Z;
  lastActivity : Z;
  status : SessionStatus;
  priority : Z;
  metadata : option Metadata
}.

(** The three assignments of [processNextInQueue]. *)
Definition assign (server : string) (now : Z) (s : t) : t :=
  mk (id s) (clientId s) (Some server) (createdAt s) now connected
     (priority s) (metadata s).
End ClientSession.

Inductive MessageType :=
  | connect | disconnect | streamerConnected | streamerDisconnected
  | clientConnected | clientDisconnected | ping | healthCheck.

Module MatchmakerMessage.
Record t := mk {
  type : MessageType;
  address : option string;
  port : option Z;
  https : option bool;
  ready : option bool;
  playerConnected : option bool;
  serverId : option string;
  clientId : option string;
  metadata : option Metadata
}.

(** A message that carries only its type, as the status updates do. *)
Definition bare (ty : MessageType) : t :=
  mk ty None None None None None None None None.
End MatchmakerMessage.

Record QueuePosition := mkQueuePosition {
  position : Z;
  estimatedWaitTime : Z;
  totalInQueue : Z
}.

(** Events of the service's emitter, with their arguments. *)
Inductive Event :=
  | serverRegistered (server : CirrusServer.t)
  | serverUpdated (server : CirrusServer.t)
  | serverUnregistered (server : CirrusServer.t)
  | clientQueued (session : ClientSession.t)
  | clientAssigned (session : ClientSession.t) (server : CirrusServer.t)
  | sessionRemoved (session : ClientSession.t).

(** The private fields of [MatchmakerService], and the events emitted so
    far, oldest first. *)
Record MatchmakerService := mkService {
  cirrusServers : JsMap.t CirrusServer.t;
  clientSessions : JsMap.t ClientSession.t;
  queueOrder : list string;
  emitted : list Event
}.

Definition new_MatchmakerService : MatchmakerService :=
  mkService JsMap.empty JsMap.empty [] [].

Definition emit (e : Event) (st : MatchmakerService) : MatchmakerService :=
  mkService (cirrusServers st) (clientSessions st) (queueOrder st)
            (emitted st ++ [e]).

Definition set_cirrusServers (m : JsMap.t CirrusServer.t)
    (st : MatchmakerService) : MatchmakerService :=
  mkService m (clientSessions st) (queueOrder st) (emitted st).

Definition set_clientSessions (m : JsMap.t ClientSession.t)
    (st : MatchmakerService) : MatchmakerService :=
  mkService (cirrusServers st) m (queueOrder st) (emitted st).

Definition set_queueOrder (q : list string)
    (st : MatchmakerService) : MatchmakerService :=
  mkService (cirrusServers st) (clientSessions st) q (emitted st).

(* ------------------------------------------------------------------ *)
(** ** [common/utils] *)

(** [isExpired(timestamp, timeoutMs)]: [(now() - timestamp) > timeoutMs]. *)
Definition isExpired (now timestamp timeoutMs : Z) : bool :=
  timeoutMs <? now - timestamp.

(** Truthiness of an optional number: [undefined] and [0] are falsy. *)
Definition truthy (x : option Z) : bool :=
  match x with
  | Some v => negb (v =? 0)
  | None => false
  end.

Definition number_or_zero (x : option Z) : Z :=
  match x with Some v => v | None => 0 end.

(* ------------------------------------------------------------------ *)
(** ** [MatchmakerService] ([services/matchmaker/service.ts]) *)

(** [findServerByAddress]: first server, in insertion order, with the
    same address and port. *)
Definition findServerByAddress (address : option string) (port : option Z)
    (st : MatchmakerService) : option CirrusServer.t :=
  find (fun server =>
          opt_string_eqb (CirrusServer.address server) address
          && opt_Z_eqb (CirrusServer.port server) port)
       (JsMap.values (cirrusServers st)).

(** The object literal built at the head of [registerServer];
    [lastRedirect] is not set there. *)
Definition new_server (serverId : string) (now : Z)
    (message : MatchmakerMessage.t) : CirrusServer.t :=
  CirrusServer.mk
    serverId
    (MatchmakerMessage.address message)
    (MatchmakerMessage.port message)
    (match MatchmakerMessage.https message with
     | Some b => b | None => false end)
    (match MatchmakerMessage.playerConnected message with
     | Some true => 1 | _ => 0 end)
    now
    (match MatchmakerMessage.ready message with
     | Some true => true | _ => false end)
    None
    (Some (match MatchmakerMessage.metadata message with
           | Some m => m | None => [] end)).

(** [registerServer(connection, message)]; [serverId] is the value
    drawn from [generateId()].  The connection is not used. *)
Definition registerServer (serverId : string) (now : Z)
    (message : MatchmakerMessage.t) (st : MatchmakerService)
    : string * MatchmakerService :=
  let server := new_server serverId now message in
  let st1 :=
    match findServerByAddress (CirrusServer.address server)
                              (CirrusServer.port server) st with
    | Some existingServer =>
        set_cirrusServers
          (JsMap.delete (CirrusServer.id existingServer) (cirrusServers st))
          st
    | None => st
    end in
  let st2 :=
    set_cirrusServers (JsMap.set serverId server (cirrusServers st1)) st1 in
  (serverId, emit (serverRegistered server) st2).

(** The [switch] of [updateServerStatus], applied to the server object. *)
Definition apply_status (now : Z) (ty : MessageType)
    (server : CirrusServer.t) : CirrusServer.t :=
  match ty with
  | streamerConnected => CirrusServer.set_ready true server
  | streamerDisconnected => CirrusServer.set_ready false server
  | clientConnected =>
      CirrusServer.set_numConnectedClients
        (CirrusServer.numConnectedClients server + 1) server
  | clientDisconnected =>
      let server1 :=
        CirrusServer.set_numConnectedClients
          (Z.max 0 (CirrusServer.numConnectedClients server - 1)) server in
      if CirrusServer.numConnectedClients server1 =? 0
      then CirrusServer.set_lastRedirect (Some 0) server1
      else server1
  | ping => CirrusServer.set_lastPingReceived now server
  | connect | disconnect | healthCheck => server
  end.

Definition updateServerStatus (serverId : string) (now : Z)
    (message : MatchmakerMessage.t) (st : MatchmakerService)
    : MatchmakerService :=
  match JsMap.get serverId (cirrusServers st) with
  | None => st
  | Some server =>
      let server' := apply_status now (MatchmakerMessage.type message) server in
      emit (serverUpdated server')
           (set_cirrusServers
              (JsMap.set serverId server' (cirrusServers st)) st)
  end.

Definition unregisterServer (serverId : string) (st : MatchmakerService)
    : MatchmakerService :=
  match JsMap.get serverId (cirrusServers st) with
  | Some server =>
      emit (serverUnregistered server)
           (set_cirrusServers (JsMap.delete serverId (cirrusServers st)) st)
  | None => st
  end.

Definition isServerAvailable (now : Z) (server : CirrusServer.t) : bool :=
  if negb (CirrusServer.ready server)
     || (0 <? CirrusServer.numConnectedClients server)
  then false
  else if truthy (CirrusServer.lastRedirect server)
          && (now - number_or_zero (CirrusServer.lastRedirect server) <? 10000)
  then false
  else true.

(** The loop of [getAvailableServer] over the entries of the registry:
    the first available server gets [lastRedirect = now()] and is
    returned. *)
Fixpoint acquire (now : Z) (m : JsMap.t CirrusServer.t)
    : option CirrusServer.t * JsMap.t CirrusServer.t :=
  match m with
  | [] => (None, [])
  | (k, server) :: rest =>
      if isServerAvailable now server then
        let server' := CirrusServer.set_lastRedirect (Some now) server in
        (Some server', (k, server') :: rest)
      else
        let (found, rest') := acquire now rest in
        (found, (k, server) :: rest')
  end.

Definition getAvailableServer (now : Z) (st : MatchmakerService)
    : option CirrusServer.t * MatchmakerService :=
  let (found, m) := acquire now (cirrusServers st) in
  (found, set_cirrusServers m st).

(** The session object built at the head of [addToQueue]. *)
Definition new_session (sessionId : string) (now : Z)
    (clientId : option string) (priority : Z) : ClientSession.t :=
  ClientSession.mk sessionId clientId None now now queued priority None.

(** The callback given to [findIndex] in [addToQueue]. *)
Definition lower_priority (sessions : JsMap.t ClientSession.t)
    (priority : Z) (sessionId : string) : bool :=
  match JsMap.get sessionId sessions with
  | Some otherSession => ClientSession.priority otherSession <? priority
  | None => false
  end.

(** [addToQueue(clientId, priority)]; [sessionId] is the value drawn
    from [generateId()]. *)
Definition addToQueue (sessionId : string) (now : Z)
    (clientId : option string) (priority : Z) (st : MatchmakerService)
    : ClientSession.t * MatchmakerService :=
  let session := new_session sessionId now clientId priority in
  let sessions := JsMap.set sessionId session (clientSessions st) in
  let queue :=
    match findIndex (lower_priority sessions priority) (queueOrder st) with
    | None => push sessionId (queueOrder st)
    | Some insertIndex => splice_insert insertIndex sessionId (queueOrder st)
    end in
  (session,
   emit (clientQueued session)
        (set_queueOrder queue (set_clientSessions sessions st))).

Definition getQueuePosition (sessionId : string) (st : MatchmakerService)
    : option QueuePosition :=
  match indexOf sessionId (queueOrder st) with
  | None => None
  | Some i =>
      let position := Z.of_nat i + 1 in
      Some (mkQueuePosition position (position * 300000)
                            (Z.of_nat (length (queueOrder st))))
  end.

(** [processNextInQueue()]: at most one assignment per call.  [now] is
    the clock reading of [getAvailableServer()], [now'] the later one
    written into [lastActivity]. *)
Definition processNextInQueue_at (now now' : Z) (st : MatchmakerService)
    : bool * MatchmakerService :=
  match queueOrder st with
  | [] => (false, st)
  | sessionId :: rest =>
      match getAvailableServer now st with
      | (None, st1) => (false, st1)
      | (Some server, st1) =>
          let st2 := set_queueOrder rest st1 in
          match JsMap.get sessionId (clientSessions st2) with
          | Some session =>
              let session' :=
                ClientSession.assign (CirrusServer.id server) now' session in
              (true,
               emit (clientAssigned session' server)
                    (set_clientSessions
                       (JsMap.set sessionId session' (clientSessions st2))
                       st2))
          | None => (false, st2)
          end
      end
  end.

(** The call during which the clock does not advance. *)
Definition processNextInQueue (now : Z) (st : MatchmakerService)
    : bool * MatchmakerService :=
  processNextInQueue_at now now st.

Definition removeSession (sessionId : string) (st : MatchmakerService)
    : MatchmakerService :=
  match JsMap.get sessionId (clientSessions st) with
  | Some session =>
      let st1 :=
        set_clientSessions (JsMap.delete sessionId (clientSessions st)) st in
      let st2 :=
        match indexOf sessionId (queueOrder st1) with
        | Some queueIndex =>
            set_queueOrder (splice_remove queueIndex (queueOrder st1)) st1
        | None => st1
        end in
      emit (sessionRemoved session) st2
  | None => st
  end.

Record Stats := mkStats {
  totalServers : Z;
  availableServers : Z;
  totalClients : Z;
  queueLength : Z;
  activeSessions : Z
}.

Definition getStats (now : Z) (st : MatchmakerService) : Stats :=
  let servers := JsMap.values (cirrusServers st) in
  mkStats
    (Z.of_nat (length servers))
    (Z.of_nat (length (filter (isServerAvailable now) servers)))
    (fold_left (fun sum server => sum + CirrusServer.numConnectedClients server)
               servers 0)
    (Z.of_nat (length (queueOrder st)))
    (Z.of_nat (JsMap.size (clientSessions st))).

(** [cleanupExpiredSessions]: the loop runs over the entries of the
    session map; removing the entry being visited does not disturb the
    iteration over the others.  [SessionTimeoutMs] is the value read
    from [config.SessionTimeoutMs] (30 minutes unless configured). *)
Definition cleanupExpiredSessions (SessionTimeoutMs now : Z)
    (st : MatchmakerService)
    : MatchmakerService :=
  fold_left
    (fun acc entry =>
       if isExpired now (ClientSession.lastActivity (snd entry)) SessionTimeoutMs
       then removeSession (fst entry) acc
       else acc)
    (JsMap.entries (clientSessions st)) st.

(** [cleanupStaleServers]: no ping for more than two minutes. *)
Definition cleanupStaleServers (now : Z) (st : MatchmakerService)
    : MatchmakerService :=
  fold_left
    (fun acc entry =>
       if isExpired now (CirrusServer.lastPingReceived (snd entry)) 120000
       then unregisterServer (fst entry) acc
       else acc)
    (JsMap.entries (cirrusServers st)) st.

(** The body of the timer started by [startCleanupInterval]. *)
Definition cleanupTick (SessionTimeoutMs now : Z) (st : MatchmakerService)
    : MatchmakerService :=
  cleanupStaleServers now (cleanupExpiredSessions SessionTimeoutMs now st).

(** [processQueue] of [index.ts], the caller that loops:
    [while (processed) processed = processNextInQueue()].
    Call number [i] of the loop reads the clock as [clock i]; [None]
    when the fuel runs out before the loop exits. *)
Fixpoint processQueue (fuel : nat) (clock : nat -> Z)
    (st : MatchmakerService) : option MatchmakerService :=
  match fuel with
  | O => None
  | S fuel' =>
      let (processed, st') := processNextInQueue (clock O) st in
      if processed
      then processQueue fuel' (fun i => clock (S i)) st'
      else Some st'
  end.

(** *** Executions of the engine *)

Inductive Op :=
  | RegisterServer (serverId : string) (now : Z) (message : MatchmakerMessage.t)
  | UpdateServerStatus (serverId : string) (now : Z)
                       (message : MatchmakerMessage.t)
  | UnregisterServer (serverId : string)
  | GetAvailableServer (now : Z)
  | AddToQueue (sessionId : string) (now : Z) (clientId : option string)
               (priority : Z)
  | ProcessNextInQueue (now : Z)
  | RemoveSession (sessionId : string)
  | CleanupExpiredSessions (SessionTimeoutMs now : Z)
  | CleanupStaleServers (now : Z).

Definition exec (st : MatchmakerService) (op : Op) : MatchmakerService :=
  match op with
  | RegisterServer serverId now message =>
      snd (registerServer serverId now message st)
  | UpdateServerStatus serverId now message =>
      updateServerStatus serverId now message st
  | UnregisterServer serverId => unregisterServer serverId st
  | GetAvailableServer now => snd (getAvailableServer now st)
  | AddToQueue sessionId now clientId priority =>
      snd (addToQueue sessionId now clientId priority st)
  | ProcessNextInQueue now => snd (processNextInQueue now st)
  | RemoveSession sessionId => removeSession sessionId st
  | CleanupExpiredSessions SessionTimeoutMs now =>
      cleanupExpiredSessions SessionTimeoutMs now st
  | CleanupStaleServers now => cleanupStaleServers now st
  end.

Definition run (ops : list Op) (st : MatchmakerService) : MatchmakerService :=
  fold_left exec ops st.

(** The identifiers drawn from [generateId()] along an execution. *)
Definition generated (op : Op) : list string :=
  match op with
  | RegisterServer serverId _ _ => [serverId]
  | AddToQueue sessionId _ _ _ => [sessionId]
  | _ => []
  end.

Definition generated_ids (ops : list Op) : list string :=
  flat_map generated ops.

(** [generateId()] is a UUID generator: no identifier is drawn twice. *)
Definition fresh_ids (ops : list Op) : Prop := NoDup (generated_ids ops).

(* ------------------------------------------------------------------ *)
(** ** Notions used by the statements *)

(** [a] occurs in [l] strictly before an occurrence of [b]. *)
Definition precedes (a b : string) (l : list string) : Prop :=
  exists l1 l2, l = l1 ++ a :: l2 /\ In b l2.

(** The endpoint under which a server registered. *)
Definition endpoint (server : CirrusServer.t) : option string * option Z :=
  (CirrusServer.address server, CirrusServer.port server).

(** What every operation keeps true of the registry: keys are distinct,
    each server is stored under its own [id], client counts are not
    negative, and endpoints are distinct. *)
Definition registry_inv (m : JsMap.t CirrusServer.t) : Prop :=
  NoDup (JsMap.keys m)
  /\ Forall (fun kv => CirrusServer.id (snd kv) = fst kv
                       /\ 0 <= CirrusServer.numConnectedClients (snd kv)) m
  /\ NoDup (map endpoint (JsMap.values m)).

(** The specification's [cooldownUntil], read off the source's
    [lastRedirect]: ten seconds after the last redirect, and [0] when
    [lastRedirect] is unset or was reset to [0]. *)
Definition spec_cooldownUntil (server : CirrusServer.t) : Z :=
  if truthy (CirrusServer.lastRedirect server)
  then number_or_zero (CirrusServer.lastRedirect server) + 10000
  else 0.

(** The enqueue log of an execution: identifier and priority of every
    [addToQueue], oldest first. *)
Definition enqueued_by (op : Op) : list (string * Z) :=
  match op with
  | AddToQueue sessionId _ _ priority => [(sessionId, priority)]
  | _ => []
  end.

Definition enqueued (ops : list Op) : list (string * Z) :=
  flat_map enqueued_by ops.

(** Service order on session identifiers, from the enqueue log [log]:
    higher priority first, earlier arrival first among equals. *)
Definition served_before (log : list (string * Z)) (a b : string) : Prop :=
  exists pa pb,
    In (a, pa) log /\ In (b, pb) log
    /\ (pb < pa \/ (pa = pb /\ precedes a b (map fst log))).

(** What every operation keeps true of the sessions and the queue, along
    an execution whose enqueue log is [log]. *)
Definition queue_inv (log : list (string * Z)) (st : MatchmakerService) : Prop :=
  (forall sid, In sid (JsMap.keys (clientSessions st)) -> In sid (map fst log))
  /\ NoDup (queueOrder st)
  /\ (forall sid, In sid (queueOrder st) ->
        exists s, JsMap.get sid (clientSessions st) = Some s
                  /\ ClientSession.status s = queued)
  /\ (forall sid s, JsMap.get sid (clientSessions st) = Some s ->
        In (sid, ClientSession.priority s) log)
  /\ StronglySorted (served_before log) (queueOrder st).

(** Operations that leave the assignment cooldown of node [nodeId]
    alone: no [clientDisconnected] is delivered to it, and [generateId()]
    does not hand its identifier out again. *)
Definition keeps_cooldown (nodeId : string) (op : Op) : Prop :=
  match op with
  | UpdateServerStatus serverId _ message =>
      serverId = nodeId -> MatchmakerMessage.type message <> clientDisconnected
  | RegisterServer serverId _ _ => serverId <> nodeId
  | _ => True
  end.

(** Node [nodeId], while registered, was last redirected at [t] or later. *)
Definition cooling (nodeId : string) (t : Z) (m : JsMap.t CirrusServer.t) : Prop :=
  Forall (fun kv => fst kv = nodeId ->
                    exists r, CirrusServer.lastRedirect (snd kv) = Some r /\ t <= r) m.

(** The test of [cleanupStaleServers] on a registry entry. *)
Definition stale (now : Z) (entry : string * CirrusServer.t) : bool :=
  isExpired now (CirrusServer.lastPingReceived (snd entry)) 120000.

(** Session [sid] has not been removed: [removeSession], called
    directly or by the expiry sweep, is the only code that deletes an
    entry of [clientSessions]. *)
Definition stored (sid : string) (st : MatchmakerService) : Prop :=
  JsMap.get sid (clientSessions st) <> None.

(** The queue lists its sessions by priority, highest first. *)
Definition priority_sorted (st : MatchmakerService) : Prop :=
  StronglySorted
    (fun a b => exists sa sb,
         JsMap.get a (clientSessions st) = Some sa
         /\ JsMap.get b (clientSessions st) = Some sb
         /\ ClientSession.priority sb <= ClientSession.priority sa)
    (queueOrder st).

(* ------------------------------------------------------------------ *)
(** ** Sample executions *)

(** A [connect] message of a ready server on port 8080. *)
Definition connect_from (address : string) (playerConnected : bool)
    : MatchmakerMessage.t :=
  MatchmakerMessage.mk connect (Some address) (Some 8080) (Some false)
                       (Some true) (Some playerConnected) None None None.

(** The server registered under ["n1"] at clock 1000. *)
Definition node1 : CirrusServer.t :=
  new_server "n1"%string 1000 (connect_from "10.0.0.1"%string false).

Definition node2 : CirrusServer.t :=
  new_server "n2"%string 1001 (connect_from "10.0.0.2"%string false).

(** One registered server. *)
Definition one_node : list Op :=
  [RegisterServer "n1"%string 1000 (connect_from "10.0.0.1"%string false)].

(** Two registered servers. *)
Definition two_nodes : list Op :=
  [RegisterServer "n1"%string 1000 (connect_from "10.0.0.1"%string false);
   RegisterServer "n2"%string 1001 (connect_from "10.0.0.2"%string false)].

(** Two queued sessions of equal priority. *)
Definition two_queued : list Op :=
  [AddToQueue "s1"%string 10 (Some "c1"%string) 0;
   AddToQueue "s2"%string 20 (Some "c2"%string) 0].

(** Two queued sessions and two available servers. *)
Definition two_and_two : MatchmakerService :=
  run (two_queued ++ two_nodes) new_MatchmakerService.

(** A clock that advances by one millisecond per call. *)
Definition ticking (start : Z) (i : nat) : Z := start + Z.of_nat i.

(** Number of queued sessions whose priority is at least [priority]. *)
Definition queued_at_least (priority : Z) (st : MatchmakerService) : nat :=
  length (filter (fun sid =>
                    match JsMap.get sid (clientSessions st) with
                    | Some s => priority <=? ClientSession.priority s
                    | None => false
                    end)
                 (queueOrder st)).

(** The test of [cleanupExpiredSessions] on an entry of the session map. *)
Definition expired_entry (SessionTimeoutMs now : Z)
    (entry : string * ClientSession.t) : bool :=
  isExpired now (ClientSession.lastActivity (snd entry)) SessionTimeoutMs.

(* ------------------------------------------------------------------ *)
(** ** [sanitizeInput] ([common/utils]) *)

(** A JavaScript string: its sequence of UTF-16 code units. *)
Definition JsString := list N.

(** The code units [String.prototype.trim] strips: WhiteSpace (TAB, VT,
    FF, ZWNBSP and the space separators) and LineTerminator (LF, CR, LS,
    PS). *)
Definition isWhiteSpace (c : N) : bool :=
  ((9 <=? c) && (c <=? 13))%N
  || (c =? 32)%N || (c =? 160)%N || (c =? 5760)%N
  || ((8192 <=? c) && (c <=? 8202))%N
  || (c =? 8232)%N || (c =? 8233)%N || (c =? 8239)%N || (c =? 8287)%N
  || (c =? 12288)%N || (c =? 65279)%N.

(** The character class [[<>]]. *)
Definition isAngleBracket (c : N) : bool := (c =? 60)%N || (c =? 62)%N.

Fixpoint trimStart (s : JsString) : JsString :=
  match s with
  | [] => []
  | c :: rest => if isWhiteSpace c then trimStart rest else s
  end.

Definition trimEnd (s : JsString) : JsString := rev (trimStart (rev s)).

Definition trim (s : JsString) : JsString := trimEnd (trimStart s).

(** [input.replace(/[<>]/g, '').trim()], for an [input] that is a
    string. *)
Definition sanitizeInput (input : JsString) : JsString :=
  trim (filter (fun c => negb (isAngleBracket c)) input).

(* ------------------------------------------------------------------ *)
(** ** [SessionService] ([services/session/service.ts]) *)

Definition SessionStatus_eqb (a b : SessionStatus) : bool :=
  match a, b with
  | queued, queued | connected, connected
  | disconnected, disconnected | expired, expired => true
  | _, _ => false
  end.

Module SessionService.

(** Events of the session service's emitter. *)
Inductive Event :=
  | sessionCreated (session : ClientSession.t)
  | sessionStatusChanged (session : ClientSession.t) (oldStatus : SessionStatus)
  | sessionRemoved (session : ClientSession.t)
  | cleanupCompleted (cleanedUp : Z).

(** The [sessions] map of the service and the events emitted so far. *)
Record t := mk {
  sessions : JsMap.t ClientSession.t;
  emitted : list Event
}.

Definition new_SessionService : t := mk JsMap.empty [].

Definition emit (e : Event) (st : t) : t :=
  mk (sessions st) (emitted st ++ [e]).

Definition set_sessions (m : JsMap.t ClientSession.t) (st : t) : t :=
  mk m (emitted st).

Definition set_lastActivity (now : Z) (s : ClientSession.t) : ClientSession.t :=
  ClientSession.mk (ClientSession.id s) (ClientSession.clientId s)
    (ClientSession.serverId s) (ClientSession.createdAt s) now
    (ClientSession.status s) (ClientSession.priority s) (ClientSession.metadata s).

Definition set_status (status : SessionStatus) (s : ClientSession.t)
    : ClientSession.t :=
  ClientSession.mk (ClientSession.id s) (ClientSession.clientId s)
    (ClientSession.serverId s) (ClientSession.createdAt s)
    (ClientSession.lastActivity s) status (ClientSession.priority s)
    (ClientSession.metadata s).

Definition set_serverId (serverId : option string) (s : ClientSession.t)
    : ClientSession.t :=
  ClientSession.mk (ClientSession.id s) (ClientSession.clientId s)
    serverId (ClientSession.createdAt s) (ClientSession.lastActivity s)
    (ClientSession.status s) (ClientSession.priority s) (ClientSession.metadata s).

(** Truthiness of an optional string: [undefined] and [''] are falsy. *)
Definition truthy_string (x : option string) : bool :=
  match x with
  | Some EmptyString => false
  | Some _ => true
  | None => false
  end.

(** [createSession(clientId, priority)]; [sessionId] is the value of
    [generateSessionId()], [now] the clock reading stored in
    [createdAt] and [now'] the next one, stored in [lastActivity]. *)
Definition createSession (sessionId : string) (now now' : Z)
    (clientId : option string) (priority : Z) (st : t) : ClientSession.t * t :=
  let session :=
    ClientSession.mk sessionId clientId None now now' queued priority None in
  (session,
   emit (sessionCreated session)
        (set_sessions (JsMap.set sessionId session (sessions st)) st)).

Definition getSession (sessionId : string) (st : t) : option ClientSession.t :=
  JsMap.get sessionId (sessions st).

Definition updateActivity (sessionId : string) (now : Z) (st : t) : bool * t :=
  match JsMap.get sessionId (sessions st) with
  | Some session =>
      (true,
       set_sessions
         (JsMap.set sessionId (set_lastActivity now session) (sessions st)) st)
  | None => (false, st)
  end.

Definition updateStatus (sessionId : string) (status : SessionStatus)
    (serverId : option string) (now : Z) (st : t) : bool * t :=
  match JsMap.get sessionId (sessions st) with
  | Some session =>
      let oldStatus := ClientSession.status session in
      let session1 := set_lastActivity now (set_status status session) in
      let session2 :=
        if truthy_string serverId then set_serverId serverId session1
        else session1 in
      (true,
       emit (sessionStatusChanged session2 oldStatus)
            (set_sessions (JsMap.set sessionId session2 (sessions st)) st))
  | None => (false, st)
  end.

Definition removeSession (sessionId : string) (st : t) : bool * t :=
  match JsMap.get sessionId (sessions st) with
  | Some session =>
      (true,
       emit (sessionRemoved session)
            (set_sessions (JsMap.delete sessionId (sessions st)) st))
  | None => (false, st)
  end.

Definition getAllSessions (st : t) : list ClientSession.t :=
  JsMap.values (sessions st).

Definition getSessionsByStatus (status : SessionStatus) (st : t)
    : list ClientSession.t :=
  filter (fun session => SessionStatus_eqb (ClientSession.status session) status)
         (JsMap.values (sessions st)).

Definition getSessionsByClientId (clientId : string) (st : t)
    : list ClientSession.t :=
  filter (fun session =>
            opt_string_eqb (ClientSession.clientId session) (Some clientId))
         (JsMap.values (sessions st)).

Definition getExpiredSessions (SessionTimeoutMs now : Z) (st : t)
    : list ClientSession.t :=
  filter (fun session =>
            isExpired now (ClientSession.lastActivity session) SessionTimeoutMs)
         (JsMap.values (sessions st)).

(** [cleanupExpiredSessions()]: the loop runs over the array returned
    by [getExpiredSessions] and counts every element it visits. *)
Definition cleanupExpiredSessions (SessionTimeoutMs now : Z) (st : t) : Z * t :=
  let expiredSessions := getExpiredSessions SessionTimeoutMs now st in
  let loop :=
    fold_left
      (fun (acc : Z * t) session =>
         (fst acc + 1, snd (removeSession (ClientSession.id session) (snd acc))))
      expiredSessions (0, st) in
  let cleanedUp := fst loop in
  (cleanedUp,
   if 0 <? cleanedUp then emit (cleanupCompleted cleanedUp) (snd loop)
   else snd loop).

(** [acc[status] = (acc[status] || 0) + 1] on the record of counts. *)
Fixpoint bump (status : SessionStatus) (acc : list (SessionStatus * Z))
    : list (SessionStatus * Z) :=
  match acc with
  | [] => [(status, 0 + 1)]
  | (k, n) :: rest =>
      if SessionStatus_eqb k status
      then (k, (if n =? 0 then 0 else n) + 1) :: rest
      else (k, n) :: bump status rest
  end.

(** [acc[status]]. *)
Fixpoint count_of (status : SessionStatus) (acc : list (SessionStatus * Z))
    : option Z :=
  match acc with
  | [] => None
  | (k, n) :: rest =>
      if SessionStatus_eqb k status then Some n else count_of status rest
  end.

(** [Math.min(...xs)] and [Math.max(...xs)] of a non-empty array, given
    as head and tail. *)
Definition Math_min (x : Z) (xs : list Z) : Z := fold_left Z.min xs x.
Definition Math_max (x : Z) (xs : list Z) : Z := fold_left Z.max xs x.

Record Stats := mkStats {
  totalSessions : Z;
  statusCounts : list (SessionStatus * Z);
  expiredSessions : Z;
  oldestSession : option Z;
  newestSession : option Z
}.

Definition getStats (SessionTimeoutMs now : Z) (st : t) : Stats :=
  let all := JsMap.values (sessions st) in
  let counts :=
    fold_left (fun acc session => bump (ClientSession.status session) acc)
              all [] in
  let expiredCount :=
    length (filter (fun session =>
                      isExpired now (ClientSession.lastActivity session)
                                SessionTimeoutMs) all) in
  let created := map ClientSession.createdAt all in
  mkStats
    (Z.of_nat (length all))
    counts
    (Z.of_nat expiredCount)
    (match created with [] => None | x :: xs => Some (Math_min x xs) end)
    (match created with [] => None | x :: xs => Some (Math_max x xs) end).

(** Executions of the session service. *)
Inductive Op :=
  | CreateSession (sessionId : string) (now now' : Z)
                  (clientId : option string) (priority : Z)
  | UpdateActivity (sessionId : string) (now : Z)
  | UpdateStatus (sessionId : string) (status : SessionStatus)
                 (serverId : option string) (now : Z)
  | RemoveSession (sessionId : string)
  | CleanupExpiredSessions (SessionTimeoutMs now : Z).

Definition exec (st : t) (op : Op) : t :=
  match op with
  | CreateSession sessionId now now' clientId priority =>
      snd (createSession sessionId now now' clientId priority st)
  | UpdateActivity sessionId now => snd (updateActivity sessionId now st)
  | UpdateStatus sessionId status serverId now =>
      snd (updateStatus sessionId status serverId now st)
  | RemoveSession sessionId => snd (removeSession sessionId st)
  | CleanupExpiredSessions SessionTimeoutMs now =>
      snd (cleanupExpiredSessions SessionTimeoutMs now st)
  end.

Definition run (ops : list Op) (st : t) : t := fold_left exec ops st.

(** The clock readings of an execution, oldest first. *)
Definition reading (op : Op) : list Z :=
  match op with
  | CreateSession _ now now' _ _ => [now; now']
  | UpdateActivity _ now => [now]
  | UpdateStatus _ _ _ now => [now]
  | RemoveSession _ => []
  | CleanupExpiredSessions _ now => [now]
  end.

Definition readings (ops : list Op) : list Z := flat_map reading ops.

(** Each session is stored under its own [id], and keys are distinct. *)
Definition store_inv (m : JsMap.t ClientSession.t) : Prop :=
  NoDup (JsMap.keys m)
  /\ Forall (fun kv => ClientSession.id (snd kv) = fst kv) m.

End SessionService.

(* ------------------------------------------------------------------ *)
(** ** The application ([index.ts]): connections of Cirrus servers *)

Module EnhancedMatchmaker.

(** A TCP socket, by identity. *)
Definition Connection := nat.

(** The matchmaker service, [connectionMap] ([Map<net.Socket, string>],
    in insertion order) and the connections on which [end()] was
    called, oldest first. *)
Record t := mk {
  matchmakerService : MatchmakerService;
  connectionMap : list (Connection * string);
  ended : list Connection
}.

Fixpoint connection_get (c : Connection) (m : list (Connection * string))
    : option string :=
  match m with
  | [] => None
  | (c', v) :: r => if Nat.eqb c' c then Some v else connection_get c r
  end.

Fixpoint connection_set (c : Connection) (v : string)
    (m : list (Connection * string)) : list (Connection * string) :=
  match m with
  | [] => [(c, v)]
  | (c', v') :: r =>
      if Nat.eqb c' c then (c, v) :: r else (c', v') :: connection_set c v r
  end.

Definition connection_delete (c : Connection) (m : list (Connection * string))
    : list (Connection * string) :=
  filter (fun cv => negb (Nat.eqb (fst cv) c)) m.

(** [processQueue()] run to its end: the loop needs at most one call
    per queued session and one more. *)
Definition processQueue_run (clock : nat -> Z) (st : MatchmakerService)
    : MatchmakerService :=
  match processQueue (S (length (queueOrder st))) clock st with
  | Some st' => st'
  | None => st
  end.

(** [registerServer] with the listener [setupEventHandlers] attaches to
    ['serverRegistered']: the queue is processed inside [emit], before
    [registerServer] returns. *)
Definition registerServer_wired (serverId : string) (clock : nat -> Z)
    (message : MatchmakerMessage.t) (st : MatchmakerService)
    : string * MatchmakerService :=
  let (id, st1) := registerServer serverId (clock O) message st in
  (id, processQueue_run (fun i => clock (S i)) st1).

(** [updateServerStatus] with the listener attached to
    ['serverUpdated']: the queue is processed when the updated server is
    ready and has no client.  Nothing is emitted for an unknown
    server. *)
Definition updateServerStatus_wired (serverId : string) (clock : nat -> Z)
    (message : MatchmakerMessage.t) (st : MatchmakerService)
    : MatchmakerService :=
  match JsMap.get serverId (cirrusServers st) with
  | None => updateServerStatus serverId (clock O) message st
  | Some server =>
      let server' := apply_status (clock O) (MatchmakerMessage.type message) server in
      let st1 := updateServerStatus serverId (clock O) message st in
      if CirrusServer.ready server'
         && (CirrusServer.numConnectedClients server' =? 0)
      then processQueue_run (fun i => clock (S i)) st1
      else st1
  end.

Definition end_connection (c : Connection) (app : t) : t :=
  mk (matchmakerService app) (connectionMap app) (ended app ++ [c]).

(** Truthiness of [connectionMap.get(connection)]. *)
Definition bound_server (c : Connection) (app : t) : option string :=
  match connection_get c (connectionMap app) with
  | Some EmptyString => None
  | Some serverId => Some serverId
  | None => None
  end.

(** [handleCirrusMessage(connection, data)]; [parsed] is the result of
    [JSON.parse(data.toString())], [None] when it throws, and [newId]
    the value [generateId()] returns if it is called.  The [default]
    branch of the [switch] takes [disconnect] and [healthCheck]. *)
Definition handleCirrusMessage (connection : Connection)
    (parsed : option MatchmakerMessage.t) (newId : string) (clock : nat -> Z)
    (app : t) : t :=
  match parsed with
  | None => end_connection connection app
  | Some message =>
      match MatchmakerMessage.type message with
      | connect =>
          let (serverId, st1) :=
            registerServer_wired newId clock message (matchmakerService app) in
          mk st1 (connection_set connection serverId (connectionMap app))
             (ended app)
      | streamerConnected | streamerDisconnected
      | clientConnected | clientDisconnected | ping =>
          match bound_server connection app with
          | Some serverId =>
              mk (updateServerStatus_wired serverId clock message
                    (matchmakerService app))
                 (connectionMap app) (ended app)
          | None => end_connection connection app
          end
      | disconnect | healthCheck => end_connection connection app
      end
  end.

(** [handleCirrusDisconnection(connection)], called on ['error'] and on
    ['close']. *)
Definition handleCirrusDisconnection (connection : Connection) (app : t) : t :=
  match bound_server connection app with
  | Some serverId =>
      mk (unregisterServer serverId (matchmakerService app))
         (connection_delete connection (connectionMap app))
         (ended app)
  | None => app
  end.

End EnhancedMatchmaker.

(* ------------------------------------------------------------------ *)
(** ** Further sample executions *)

(** Two sessions waiting and no server. *)
Definition waiting : MatchmakerService :=
  run two_queued new_MatchmakerService.

(** Two sessions waiting and one ready server that registered with a
    player connected. *)
Definition waiting_busy : MatchmakerService :=
  run (two_queued
       ++ [RegisterServer "n1"%string 1000
                          (connect_from "10.0.0.1"%string true)])
      new_MatchmakerService.

(** The application with two sessions waiting and no connection. *)
Definition waiting_app : EnhancedMatchmaker.t :=
  EnhancedMatchmaker.mk waiting [] [].

(** A session created at 10 (the clock reads 11 when [lastActivity] is
    set), touched at 20 and connected at 30. *)
Definition session_history : list SessionService.Op :=
  [SessionService.CreateSession "s1"%string 10 11 (Some "c1"%string) 0;
   SessionService.UpdateActivity "s1"%string 20;
   SessionService.UpdateStatus "s1"%string connected (Some "n1"%string) 30].

(* ================================================================== *)
(** * Properties *)

(** ** Association lists *)

Lemma opt_string_eqb_eq (a b : option string) :
  opt_string_eqb a b = true <-> a = b.
Proof.
  destruct a as [x|], b as [y|]; simpl; split; intro H;
    try discriminate; try reflexivity.
  - apply String.eqb_eq in H. now subst.
  - injection H as ->. apply String.eqb_refl.
Qed.

Lemma opt_Z_eqb_eq (a b : option Z) : opt_Z_eqb a b = true <-> a = b.
Proof.
  destruct a as [x|], b as [y|]; simpl; split; intro H;
    try discriminate; try reflexivity.
  - apply Z.eqb_eq in H. now subst.
  - injection H as ->. apply Z.eqb_refl.
Qed.

Module JsMapFacts.
Import JsMap.
Section Facts.
Context {V : Type}.
Implicit Types (m : JsMap.t V) (k : string) (v : V).

Lemma get_set_same k v m : get k (set k v m) = Some v.
Proof.
  induction m as [|[k' v'] r IH]; simpl.
  - now rewrite String.eqb_refl.
  - destruct (String.eqb k' k) eqn:E; simpl.
    + now rewrite String.eqb_refl.
    + now rewrite E.
Qed.

Lemma get_set_other k k0 v m :
  k0 <> k -> get k0 (set k v m) = get k0 m.
Proof.
  intro Hne. induction m as [|[k' v'] r IH]; simpl.
  - destruct (String.eqb k k0) eqn:E; [|reflexivity].
    apply String.eqb_eq in E. congruence.
  - destruct (String.eqb k' k) eqn:E; simpl.
    + apply String.eqb_eq in E. subst k'.
      destruct (String.eqb k k0) eqn:E'; [|reflexivity].
      apply String.eqb_eq in E'. congruence.
    + now rewrite IH.
Qed.

Lemma get_delete_same k m : get k (delete k m) = None.
Proof.
  induction m as [|[k' v'] r IH]; simpl; [reflexivity|].
  destruct (String.eqb k' k) eqn:E; simpl; [assumption|].
  now rewrite E.
Qed.

Lemma get_delete_other k k0 m :
  k0 <> k -> get k0 (delete k m) = get k0 m.
Proof.
  intro Hne. induction m as [|[k' v'] r IH]; simpl; [reflexivity|].
  destruct (String.eqb k' k) eqn:E; simpl.
  - apply String.eqb_eq in E. subst k'.
    destruct (String.eqb k k0) eqn:E'; [|assumption].
    apply String.eqb_eq in E'. congruence.
  - now rewrite IH.
Qed.

Lemma get_In k v m : get k m = Some v -> In (k, v) m.
Proof.
  induction m as [|[k' v'] r IH]; simpl; [discriminate|].
  destruct (String.eqb k' k) eqn:E.
  - apply String.eqb_eq in E. intros [= ->]. left. now subst.
  - intro H. right. auto.
Qed.

Lemma get_None_keys k m : get k m = None <-> ~ In k (keys m).
Proof.
  induction m as [|[k' v'] r IH]; simpl.
  - split; auto.
  - destruct (String.eqb k' k) eqn:E.
    + apply String.eqb_eq in E. split; [discriminate|].
      intro H. exfalso. apply H. now left.
    + apply String.eqb_neq in E. rewrite IH. tauto.
Qed.

Lemma get_Some_keys k m : In k (keys m) -> exists v, get k m = Some v.
Proof.
  intro H. destruct (get k m) as [v|] eqn:E; [eauto|].
  apply get_None_keys in E. contradiction.
Qed.

Lemma In_get k v m : NoDup (keys m) -> In (k, v) m -> get k m = Some v.
Proof.
  induction m as [|[k' v'] r IH]; simpl; [tauto|].
  intros Hnd [H|H].
  - injection H as -> ->. now rewrite String.eqb_refl.
  - inversion Hnd as [|? ? Hk Hr]; subst.
    destruct (String.eqb k' k) eqn:E.
    + apply String.eqb_eq in E. subst k'. exfalso. apply Hk.
      change k with (fst (k, v)). now apply in_map.
    + auto.
Qed.

(** The two shapes of [set]: rewrite the entry in place, or append. *)
Lemma set_shape k v m :
  (exists l1 v0 l2, m = l1 ++ (k, v0) :: l2
                    /\ set k v m = l1 ++ (k, v) :: l2
                    /\ ~ In k (keys l1))
  \/ (set k v m = m ++ [(k, v)] /\ ~ In k (keys m)).
Proof.
  induction m as [|[k' v'] r IH]; simpl.
  - right. auto.
  - destruct (String.eqb k' k) eqn:E.
    + apply String.eqb_eq in E. subst k'. left.
      exists [], v', r. simpl. auto.
    + apply String.eqb_neq in E.
      destruct IH as [(l1 & v0 & l2 & -> & Hs & Hk)|[Hs Hk]].
      * left. exists ((k', v') :: l1), v0, l2. simpl.
        rewrite Hs. repeat split; auto. intros [?|?]; auto.
      * right. rewrite Hs. split; auto. intros [?|?]; auto.
Qed.

Lemma keys_set_present k v v0 m :
  get k m = Some v0 -> keys (set k v m) = keys m.
Proof.
  induction m as [|[k' v'] r IH]; simpl; [discriminate|].
  destruct (String.eqb k' k) eqn:E; simpl.
  - apply String.eqb_eq in E. now subst.
  - intro H. now rewrite IH.
Qed.

Lemma In_delete kv k m : In kv (delete k m) <-> In kv m /\ fst kv <> k.
Proof.
  unfold delete. rewrite filter_In, negb_true_iff.
  now rewrite String.eqb_neq.
Qed.

Lemma delete_absent k m : ~ In k (keys m) -> delete k m = m.
Proof.
  induction m as [|[k' v'] r IH]; simpl; [reflexivity|].
  intro H. destruct (String.eqb k' k) eqn:E; simpl.
  - apply String.eqb_eq in E. tauto.
  - f_equal. apply IH. tauto.
Qed.

Lemma delete_app k m1 m2 : delete k (m1 ++ m2) = delete k m1 ++ delete k m2.
Proof. apply filter_app. Qed.

Lemma delete_set_fresh k v m : get k m = None -> delete k (set k v m) = m.
Proof.
  intro H. apply get_None_keys in H.
  destruct (set_shape k v m) as [(l1 & v0 & l2 & -> & _ & _)|[-> _]].
  - exfalso. apply H. unfold keys. rewrite map_app. simpl.
    apply in_or_app. right. now left.
  - rewrite delete_app, (delete_absent _ _ H). simpl.
    rewrite String.eqb_refl. simpl. apply app_nil_r.
Qed.

Lemma NoDup_keys_delete k m : NoDup (keys m) -> NoDup (keys (delete k m)).
Proof.
  induction m as [|[k' v'] r IH]; simpl; [auto|].
  intro H. inversion H as [|? ? Hk Hr]; subst.
  destruct (String.eqb k' k); simpl; [auto|].
  constructor; [|auto].
  intro Hin. apply Hk. unfold keys in *.
  apply in_map_iff in Hin as ([k1 v1] & Hf & Hin). simpl in Hf. subst k1.
  apply In_delete in Hin as [Hin _].
  change k' with (fst (k', v1)). now apply in_map.
Qed.

Lemma NoDup_keys_set k v m : NoDup (keys m) -> NoDup (keys (set k v m)).
Proof.
  intro H.
  destruct (set_shape k v m) as [(l1 & v0 & l2 & Hm & -> & _)|[-> Hk]].
  - subst m. unfold keys in *. now rewrite map_app in *.
  - unfold keys in *. rewrite map_app. simpl.
    apply NoDup_app; [assumption | repeat constructor; auto |].
    intros x Hx [<-|[]]. contradiction.
Qed.
End Facts.
End JsMapFacts.

Section Properties.

Import JsMapFacts.

(** ** Status updates *)

Lemma apply_status_fixed now ty server :
  let server' := apply_status now ty server in
  CirrusServer.id server' = CirrusServer.id server
  /\ CirrusServer.address server' = CirrusServer.address server
  /\ CirrusServer.port server' = CirrusServer.port server
  /\ CirrusServer.https server' = CirrusServer.https server
  /\ CirrusServer.metadata server' = CirrusServer.metadata server.
Proof.
  destruct ty; simpl; auto.
  destruct (Z.max 0 (CirrusServer.numConnectedClients server - 1) =? 0);
    simpl; auto.
Qed.

Lemma apply_status_designated now ty server :
  let server' := apply_status now ty server in
  match ty with
  | streamerConnected | streamerDisconnected =>
      server' = CirrusServer.set_ready (CirrusServer.ready server') server
  | clientConnected | clientDisconnected =>
      server' =
        CirrusServer.set_lastRedirect (CirrusServer.lastRedirect server')
          (CirrusServer.set_numConnectedClients
             (CirrusServer.numConnectedClients server') server)
  | ping =>
      server' =
        CirrusServer.set_lastPingReceived
          (CirrusServer.lastPingReceived server') server
  | connect | disconnect | healthCheck => server' = server
  end.
Proof.
  destruct server; destruct ty; simpl; try reflexivity.
  destruct (Z.max 0 (numConnectedClients - 1) =? 0); reflexivity.
Qed.

(** C10.  [updateServerStatus] on a registered server changes only the
    fields its message type designates ([ready] for
    [streamerConnected]/[streamerDisconnected], [numConnectedClients]
    and [lastRedirect] for [clientConnected]/[clientDisconnected],
    [lastPingReceived] for [ping]); [id], [address], [port], [https]
    and [metadata] never change; any other message type leaves the
    record as it was; [serverUpdated] is emitted in every case, and
    nothing else in the engine moves. *)
Theorem updateServerStatus_frame :
  forall (st : MatchmakerService) (serverId : string) (now : Z)
         (message : MatchmakerMessage.t) (server : CirrusServer.t),
    JsMap.get serverId (cirrusServers st) = Some server ->
    exists server',
      let st' := updateServerStatus serverId now message st in
      JsMap.get serverId (cirrusServers st') = Some server'
      /\ (CirrusServer.id server' = CirrusServer.id server
          /\ CirrusServer.address server' = CirrusServer.address server
          /\ CirrusServer.port server' = CirrusServer.port server
          /\ CirrusServer.https server' = CirrusServer.https server
          /\ CirrusServer.metadata server' = CirrusServer.metadata server)
      /\ match MatchmakerMessage.type message with
         | streamerConnected | streamerDisconnected =>
             server' = CirrusServer.set_ready (CirrusServer.ready server') server
         | clientConnected | clientDisconnected =>
             server' =
               CirrusServer.set_lastRedirect (CirrusServer.lastRedirect server')
                 (CirrusServer.set_numConnectedClients
                    (CirrusServer.numConnectedClients server') server)
         | ping =>
             server' =
               CirrusServer.set_lastPingReceived
                 (CirrusServer.lastPingReceived server') server
         | connect | disconnect | healthCheck => server' = server
         end
      /\ emitted st' = emitted st ++ [serverUpdated server']
      /\ JsMap.keys (cirrusServers st') = JsMap.keys (cirrusServers st)
      /\ (forall k, k <> serverId ->
            JsMap.get k (cirrusServers st') = JsMap.get k (cirrusServers st))
      /\ clientSessions st' = clientSessions st
      /\ queueOrder st' = queueOrder st.
Proof.
  intros st serverId now message server Hget.
  exists (apply_status now (MatchmakerMessage.type message) server).
  unfold updateServerStatus. rewrite Hget. simpl.
  split; [apply get_set_same|].
  split; [apply apply_status_fixed|].
  split; [apply apply_status_designated|].
  split; [reflexivity|].
  split; [eapply keys_set_present; eassumption|].
  split; [intros k Hk; now apply get_set_other|].
  split; reflexivity.
Qed.

(** ** The registry invariant *)

Lemma NoDup_map_filter {K V : Type} (key : K -> V) (keep : K -> bool)
    (entries : list K) (Hnd : NoDup (map key entries)) :
  NoDup (map key (filter keep entries)).
Proof.
  induction entries as [|x r IH]; simpl; [auto|].
  simpl in Hnd. inversion Hnd as [|? ? Hx Hr]; subst.
  destruct (keep x); simpl; [|auto].
  constructor; [|auto].
  intro Hin. apply Hx. apply in_map_iff in Hin as (y & Hy & Hin).
  apply filter_In in Hin as [Hin _]. rewrite <- Hy. now apply in_map.
Qed.

Lemma NoDup_map_inj_on {A B : Type} (f : A -> B) (l : list A) (x y : A) :
  NoDup (map f l) -> In x l -> In y l -> f x = f y -> x = y.
Proof.
  induction l as [|z r IH]; simpl; [tauto|].
  intro H. inversion H as [|? ? Hz Hr]; subst.
  intros [->|Hx] [->|Hy] Hf; auto.
  - exfalso. apply Hz. rewrite Hf. now apply in_map.
  - exfalso. apply Hz. rewrite <- Hf. now apply in_map.
Qed.

Lemma get_present_split {V : Type} (k : string) (v0 : V) (m : JsMap.t V) :
  JsMap.get k m = Some v0 ->
  exists l1 l2, m = l1 ++ (k, v0) :: l2
                /\ (forall v, JsMap.set k v m = l1 ++ (k, v) :: l2)
                /\ ~ In k (JsMap.keys l1).
Proof.
  induction m as [|[k' v'] r IH]; simpl; [discriminate|].
  destruct (String.eqb k' k) eqn:E.
  - apply String.eqb_eq in E. subst k'. intros [= ->].
    exists [], r. simpl. auto.
  - apply String.eqb_neq in E. intro H.
    destruct (IH H) as (l1 & l2 & -> & Hs & Hk).
    exists ((k', v') :: l1), l2. simpl. repeat split; auto.
    + intro v. now rewrite Hs.
    + intros [?|?]; auto.
Qed.

Lemma registry_inv_empty : registry_inv JsMap.empty.
Proof. repeat split; constructor. Qed.

Lemma registry_inv_replace l1 k s s' l2 :
  registry_inv (l1 ++ (k, s) :: l2) ->
  CirrusServer.id s' = CirrusServer.id s ->
  endpoint s' = endpoint s ->
  0 <= CirrusServer.numConnectedClients s' ->
  registry_inv (l1 ++ (k, s') :: l2).
Proof.
  intros (Hk & Hf & He) Hid Hep Hn. unfold registry_inv, JsMap.keys, JsMap.values in *.
  rewrite !map_app in *. simpl in *. rewrite Hep.
  repeat split; auto.
  apply Forall_app in Hf as [Hf1 Hf2]. apply Forall_app. split; auto.
  inversion Hf2 as [|? ? [Hi _] Hr]; subst. constructor; auto.
  simpl in *. split; congruence.
Qed.

Lemma registry_inv_delete k m : registry_inv m -> registry_inv (JsMap.delete k m).
Proof.
  intros (Hk & Hf & He). repeat split.
  - now apply NoDup_keys_delete.
  - apply Forall_forall. intros kv Hin. apply In_delete in Hin as [Hin _].
    rewrite Forall_forall in Hf. auto.
  - unfold JsMap.values, JsMap.delete in *. rewrite map_map in *.
    now apply NoDup_map_filter.
Qed.

Lemma registry_inv_insert k s m :
  registry_inv m ->
  CirrusServer.id s = k ->
  0 <= CirrusServer.numConnectedClients s ->
  (forall k' s', In (k', s') m -> endpoint s' <> endpoint s) ->
  registry_inv (JsMap.set k s m).
Proof.
  intros (Hk & Hf & He) Hid Hn Hfresh.
  assert (Hnotin : forall l, incl l m ->
            ~ In (endpoint s) (map endpoint (JsMap.values l))).
  { intros l Hl Hin. unfold JsMap.values in Hin. rewrite map_map in Hin.
    apply in_map_iff in Hin as ([k' s'] & Heq & Hin). simpl in Heq.
    apply (Hfresh k' s'); auto. }
  split; [now apply NoDup_keys_set|].
  destruct (set_shape k s m) as [(l1 & v0 & l2 & Hm & -> & _)|[-> Hnk]].
  - subst m. unfold JsMap.values in *. rewrite !map_app in *. simpl in *.
    split.
    + apply Forall_app in Hf as [Hf1 Hf2]. apply Forall_app. split; auto.
      inversion Hf2; subst. constructor; auto.
    + apply NoDup_remove_1 in He.
      eapply Permutation_NoDup; [apply Permutation_middle|].
      constructor; [|assumption].
      specialize (Hnotin (l1 ++ l2)). unfold JsMap.values in Hnotin.
      rewrite !map_app in Hnotin. apply Hnotin.
      intros x Hx. apply in_app_or in Hx. apply in_or_app. simpl. tauto.
  - unfold JsMap.values in *. rewrite !map_app. simpl. split.
    + apply Forall_app. split; auto.
    + eapply Permutation_NoDup; [apply Permutation_cons_append|].
      constructor; [|assumption].
      apply (Hnotin m). apply incl_refl.
Qed.

Lemma registerServer_registry serverId now message st :
  registry_inv (cirrusServers st) ->
  registry_inv (cirrusServers (snd (registerServer serverId now message st))).
Proof.
  intro Hinv. unfold registerServer. cbn [snd emit cirrusServers set_cirrusServers].
  set (server := new_server serverId now message).
  assert (Hn : 0 <= CirrusServer.numConnectedClients server).
  { unfold server, new_server. simpl.
    destruct (MatchmakerMessage.playerConnected message) as [[|]|]; lia. }
  destruct (findServerByAddress (CirrusServer.address server)
              (CirrusServer.port server) st) as [existing|] eqn:Hfind;
    cbn [cirrusServers set_cirrusServers].
  - apply registry_inv_insert; auto using registry_inv_delete.
    intros k' s' Hin Hep. apply In_delete in Hin as [Hin Hne]. simpl in Hne.
    unfold findServerByAddress in Hfind. apply find_some in Hfind as [Hex Hp].
    apply andb_true_iff in Hp as [Ha Hp].
    apply opt_string_eqb_eq in Ha. apply opt_Z_eqb_eq in Hp.
    apply in_map_iff in Hex as ([k e] & He & Hex). simpl in He. subst e.
    destruct Hinv as (_ & Hf & Hnd). rewrite Forall_forall in Hf.
    pose proof (Hf _ Hex) as [Hid _]. simpl in Hid.
    unfold JsMap.values in Hnd. rewrite map_map in Hnd.
    assert (Heq : (k', s') = (k, existing)).
    { apply (NoDup_map_inj_on _ _ _ _ Hnd Hin Hex). simpl.
      rewrite Hep. unfold endpoint. congruence. }
    injection Heq as -> ->. congruence.
  - apply registry_inv_insert; auto.
    intros k' s' Hin Hep.
    unfold findServerByAddress in Hfind.
    assert (Hs' : In s' (JsMap.values (cirrusServers st))).
    { apply in_map_iff. exists (k', s'). auto. }
    pose proof (find_none _ _ Hfind s' Hs') as Hp. simpl in Hp.
    unfold endpoint in Hep. injection Hep as Ha Hq.
    apply opt_string_eqb_eq in Ha. apply opt_Z_eqb_eq in Hq.
    rewrite Ha, Hq in Hp. discriminate.
Qed.

Lemma apply_status_nonneg now ty server :
  0 <= CirrusServer.numConnectedClients server ->
  0 <= CirrusServer.numConnectedClients (apply_status now ty server).
Proof.
  intro H. destruct ty; simpl; try lia.
  destruct (Z.max 0 (CirrusServer.numConnectedClients server - 1) =? 0);
    simpl; lia.
Qed.

Lemma updateServerStatus_registry serverId now message st :
  registry_inv (cirrusServers st) ->
  registry_inv (cirrusServers (updateServerStatus serverId now message st)).
Proof.
  intro Hinv. unfold updateServerStatus.
  destruct (JsMap.get serverId (cirrusServers st)) as [server|] eqn:Hget;
    [|assumption].
  cbn [emit cirrusServers set_cirrusServers].
  destruct (get_present_split _ _ _ Hget) as (l1 & l2 & Hm & Hs & _).
  rewrite Hs. rewrite Hm in Hinv.
  pose proof (apply_status_fixed now (MatchmakerMessage.type message) server)
    as (Hid & Ha & Hp & _).
  eapply registry_inv_replace; eauto.
  - unfold endpoint. congruence.
  - apply apply_status_nonneg.
    destruct Hinv as (_ & Hf & _). apply Forall_app in Hf as [_ Hf].
    inversion Hf as [|? ? [_ Hn] _]. assumption.
Qed.

Lemma unregisterServer_registry serverId st :
  registry_inv (cirrusServers st) ->
  registry_inv (cirrusServers (unregisterServer serverId st)).
Proof.
  intro Hinv. unfold unregisterServer.
  destruct (JsMap.get serverId (cirrusServers st)); [|assumption].
  now apply registry_inv_delete.
Qed.

(** What the loop of [getAvailableServer] does to the registry. *)
Lemma acquire_spec now m :
  (fst (acquire now m) = None /\ snd (acquire now m) = m
   /\ Forall (fun kv => isServerAvailable now (snd kv) = false) m)
  \/ (exists l1 k s l2,
        m = l1 ++ (k, s) :: l2
        /\ Forall (fun kv => isServerAvailable now (snd kv) = false) l1
        /\ isServerAvailable now s = true
        /\ fst (acquire now m) = Some (CirrusServer.set_lastRedirect (Some now) s)
        /\ snd (acquire now m)
           = l1 ++ (k, CirrusServer.set_lastRedirect (Some now) s) :: l2).
Proof.
  induction m as [|[k s] r IH]; simpl.
  - left. auto.
  - destruct (isServerAvailable now s) eqn:Ha.
    + right. exists [], k, s, r. simpl. auto.
    + destruct (acquire now r) as [found r'] eqn:Hacq. simpl in *.
      destruct IH as [(Hf & Hs & Hall)|(l1 & k1 & s1 & l2 & Hm & Hall & Hav & Hf & Hs)].
      * left. subst. auto.
      * right. exists ((k, s) :: l1), k1, s1, l2. subst. simpl. auto.
Qed.

Lemma acquire_registry now m :
  registry_inv m -> registry_inv (snd (acquire now m)).
Proof.
  intro Hinv.
  destruct (acquire_spec now m) as [(_ & -> & _)|(l1 & k & s & l2 & Hm & _ & _ & _ & ->)];
    [assumption|].
  subst m. eapply registry_inv_replace; eauto.
  destruct Hinv as (_ & Hf & _). apply Forall_app in Hf as [_ Hf].
  inversion Hf as [|? ? [_ Hn] _]. assumption.
Qed.

Lemma getAvailableServer_servers now st :
  cirrusServers (snd (getAvailableServer now st))
  = snd (acquire now (cirrusServers st)).
Proof.
  unfold getAvailableServer. now destruct (acquire now (cirrusServers st)).
Qed.

Lemma getAvailableServer_found now st :
  fst (getAvailableServer now st) = fst (acquire now (cirrusServers st)).
Proof.
  unfold getAvailableServer. now destruct (acquire now (cirrusServers st)).
Qed.

Lemma getAvailableServer_rest now st :
  clientSessions (snd (getAvailableServer now st)) = clientSessions st
  /\ queueOrder (snd (getAvailableServer now st)) = queueOrder st
  /\ emitted (snd (getAvailableServer now st)) = emitted st.
Proof.
  unfold getAvailableServer. now destruct (acquire now (cirrusServers st)).
Qed.

Lemma processNextInQueue_servers now st :
  cirrusServers (snd (processNextInQueue now st)) = cirrusServers st
  \/ cirrusServers (snd (processNextInQueue now st))
     = snd (acquire now (cirrusServers st)).
Proof.
  unfold processNextInQueue, processNextInQueue_at.
  destruct (queueOrder st) as [|sid rest]; [now left|].
  pose proof (getAvailableServer_servers now st) as Hs.
  destruct (getAvailableServer now st) as [[server|] st1]; simpl in *;
    [|now right].
  destruct (JsMap.get sid (clientSessions st1)); simpl; now right.
Qed.

Lemma removeSession_servers sid st :
  cirrusServers (removeSession sid st) = cirrusServers st.
Proof.
  unfold removeSession. destruct (JsMap.get sid (clientSessions st)); [|reflexivity].
  simpl. now destruct (indexOf sid (queueOrder st)).
Qed.

Lemma cleanupExpiredSessions_servers SessionTimeoutMs now st :
  cirrusServers (cleanupExpiredSessions SessionTimeoutMs now st) = cirrusServers st.
Proof.
  unfold cleanupExpiredSessions.
  generalize (JsMap.entries (clientSessions st)). intro l. revert st.
  induction l as [|e l IH]; intro st; simpl; [reflexivity|].
  rewrite IH. destruct (isExpired _ _ _); [apply removeSession_servers|reflexivity].
Qed.

Lemma cleanupStaleServers_registry now st :
  registry_inv (cirrusServers st) ->
  registry_inv (cirrusServers (cleanupStaleServers now st)).
Proof.
  unfold cleanupStaleServers.
  generalize (JsMap.entries (cirrusServers st)). intro l. revert st.
  induction l as [|e l IH]; intros st Hinv; simpl; [assumption|].
  apply IH. destruct (isExpired _ _ _); [now apply unregisterServer_registry|assumption].
Qed.

Lemma exec_registry st op :
  registry_inv (cirrusServers st) -> registry_inv (cirrusServers (exec st op)).
Proof.
  intro Hinv. destruct op; simpl.
  - now apply registerServer_registry.
  - now apply updateServerStatus_registry.
  - now apply unregisterServer_registry.
  - rewrite getAvailableServer_servers. now apply acquire_registry.
  - assumption.
  - destruct (processNextInQueue_servers now st) as [->| ->];
      [assumption | now apply acquire_registry].
  - now rewrite removeSession_servers.
  - now rewrite cleanupExpiredSessions_servers.
  - now apply cleanupStaleServers_registry.
Qed.

Lemma run_snoc ops op st : run (ops ++ [op]) st = exec (run ops st) op.
Proof. exact (fold_left_app _ _ _ _). Qed.

Lemma run_registry ops st :
  registry_inv (cirrusServers st) -> registry_inv (cirrusServers (run ops st)).
Proof.
  revert st. induction ops as [|op ops IH]; intros st H; simpl; [assumption|].
  apply IH. now apply exec_registry.
Qed.

(** ** Availability *)

Lemma isServerAvailable_true now s :
  isServerAvailable now s = true <->
  CirrusServer.ready s = true
  /\ CirrusServer.numConnectedClients s <= 0
  /\ (truthy (CirrusServer.lastRedirect s) = false
      \/ number_or_zero (CirrusServer.lastRedirect s) + 10000 <= now).
Proof.
  unfold isServerAvailable.
  destruct (CirrusServer.ready s); simpl.
  2:{ split; [discriminate|]. intros [H _]. discriminate. }
  destruct (0 <? CirrusServer.numConnectedClients s) eqn:En.
  - apply Z.ltb_lt in En. split; [discriminate|]. intros (_ & H & _). lia.
  - apply Z.ltb_ge in En.
    destruct (truthy (CirrusServer.lastRedirect s)); simpl.
    + destruct (now - number_or_zero (CirrusServer.lastRedirect s) <? 10000) eqn:Ec.
      * apply Z.ltb_lt in Ec. split; [discriminate|].
        intros (_ & _ & [H|H]); [discriminate | lia].
      * apply Z.ltb_ge in Ec. split; auto. intros _. repeat split; auto. right. lia.
    + split; auto.
Qed.

Lemma In_set_other {V : Type} (k k' : string) (v v' : V) (m : JsMap.t V) :
  k' <> k -> In (k', v') m -> In (k', v') (JsMap.set k v m).
Proof.
  intros Hne Hin.
  destruct (set_shape k v m) as [(l1 & v0 & l2 & -> & -> & _)|[-> _]].
  - apply in_app_or in Hin as [Hin|[Hin|Hin]]; apply in_or_app; simpl; auto.
    injection Hin as -> ->. congruence.
  - apply in_or_app. now left.
Qed.

Lemma Forall_set {V : Type} (P : string * V -> Prop) k v (m : JsMap.t V) :
  Forall P m -> P (k, v) -> Forall P (JsMap.set k v m).
Proof.
  intros Hm Hp.
  destruct (set_shape k v m) as [(l1 & v0 & l2 & -> & -> & _)|[-> _]].
  - apply Forall_app in Hm as [H1 H2]. apply Forall_app. split; auto.
    inversion H2; subst. constructor; auto.
  - apply Forall_app. split; auto.
Qed.

Lemma Forall_delete {V : Type} (P : string * V -> Prop) k (m : JsMap.t V) :
  Forall P m -> Forall P (JsMap.delete k m).
Proof.
  intro H. apply Forall_forall. intros kv Hin. apply In_delete in Hin as [Hin _].
  rewrite Forall_forall in H. auto.
Qed.

(** ** Stale-server sweep *)

Lemma get_app_absent {V : Type} k (l1 l2 : JsMap.t V) :
  ~ In k (JsMap.keys l1) -> JsMap.get k (l1 ++ l2) = JsMap.get k l2.
Proof.
  induction l1 as [|[k' v'] r IH]; simpl; [reflexivity|].
  intro H. destruct (String.eqb k' k) eqn:E.
  - apply String.eqb_eq in E. tauto.
  - apply IH. tauto.
Qed.

Lemma delete_middle {V : Type} k (v : V) (l1 l2 : JsMap.t V) :
  ~ In k (JsMap.keys l1) -> ~ In k (JsMap.keys l2) ->
  JsMap.delete k (l1 ++ (k, v) :: l2) = l1 ++ l2.
Proof.
  intros H1 H2. rewrite delete_app. simpl. rewrite String.eqb_refl. simpl.
  now rewrite !delete_absent.
Qed.

Lemma NoDup_keys_middle {V : Type} k (v : V) (l1 l2 : JsMap.t V) :
  NoDup (JsMap.keys (l1 ++ (k, v) :: l2)) ->
  ~ In k (JsMap.keys l1) /\ ~ In k (JsMap.keys l2).
Proof.
  unfold JsMap.keys. rewrite map_app. simpl. intro H.
  apply NoDup_remove_2 in H. split; intro; apply H; apply in_or_app; auto.
Qed.

Lemma cleanupStaleServers_loop now l :
  forall pre acc,
    cirrusServers acc = pre ++ l ->
    NoDup (JsMap.keys (pre ++ l)) ->
    let acc' :=
      fold_left (fun acc entry =>
                   if isExpired now (CirrusServer.lastPingReceived (snd entry)) 120000
                   then unregisterServer (fst entry) acc else acc) l acc in
    cirrusServers acc' = pre ++ filter (fun e => negb (stale now e)) l
    /\ emitted acc'
       = emitted acc ++ map (fun e => serverUnregistered (snd e))
                            (filter (stale now) l).
Proof.
  induction l as [|[k s] l IH]; intros pre acc Hm Hnd; simpl.
  - rewrite app_nil_r in *. split; [assumption | now rewrite app_nil_r].
  - destruct (NoDup_keys_middle _ _ _ _ Hnd) as [Hpre Hl].
    change (isExpired now (CirrusServer.lastPingReceived s) 120000)
      with (stale now (k, s)).
    destruct (stale now (k, s)) eqn:Ex; simpl.
    + assert (Hun : unregisterServer k acc
                    = emit (serverUnregistered s) (set_cirrusServers (pre ++ l) acc)).
      { unfold unregisterServer.
        rewrite Hm, get_app_absent by assumption. simpl.
        rewrite String.eqb_refl. now rewrite delete_middle by assumption. }
      rewrite Hun.
      destruct (IH pre (emit (serverUnregistered s)
                             (set_cirrusServers (pre ++ l) acc))) as [IH1 IH2].
      * reflexivity.
      * unfold JsMap.keys in *. rewrite map_app in *. simpl in Hnd.
        now apply NoDup_remove_1 in Hnd.
      * split; [exact IH1|]. rewrite IH2. simpl. now rewrite <- app_assoc.
    + destruct (IH (pre ++ [(k, s)]) acc) as [IH1 IH2].
      * now rewrite <- app_assoc.
      * now rewrite <- app_assoc.
      * rewrite <- app_assoc in IH1. split; [exact IH1 | exact IH2].
Qed.

Lemma cleanupStaleServers_spec now st :
  NoDup (JsMap.keys (cirrusServers st)) ->
  cirrusServers (cleanupStaleServers now st)
  = filter (fun e => negb (stale now e)) (cirrusServers st)
  /\ emitted (cleanupStaleServers now st)
     = emitted st ++ map (fun e => serverUnregistered (snd e))
                         (filter (stale now) (cirrusServers st)).
Proof.
  intro Hnd. unfold cleanupStaleServers, JsMap.entries.
  apply (cleanupStaleServers_loop now (cirrusServers st) [] st); auto.
Qed.

(** C5 (as amended).  The stale-server sweep removes a registered server
    exactly when more than 120 000 ms have passed since its last ping:
    at 120 000 ms sharp, as at 119 000 ms, the server stays registered
    and no [serverUnregistered] is emitted for it; past 120 000 ms it is
    unregistered and the event is emitted. *)
Theorem cleanupStaleServers_boundary :
  forall (ops : list Op) (k : string) (server : CirrusServer.t) (now : Z),
    In (k, server) (cirrusServers (run ops new_MatchmakerService)) ->
    let st := run ops new_MatchmakerService in
    let st' := cleanupStaleServers now st in
    exists events,
      emitted st' = emitted st ++ events
      /\ (now - CirrusServer.lastPingReceived server <= 120000 ->
          JsMap.get k (cirrusServers st') = Some server
          /\ ~ In (serverUnregistered server) events)
      /\ (120000 < now - CirrusServer.lastPingReceived server ->
          JsMap.get k (cirrusServers st') = None
          /\ In (serverUnregistered server) events).
Proof.
  intros ops k server now Hin st st'.
  assert (Hinv : registry_inv (cirrusServers st))
    by (apply run_registry, registry_inv_empty).
  destruct Hinv as (Hnd & _ & _).
  destruct (cleanupStaleServers_spec now st Hnd) as [Hm He].
  fold st' in Hm, He.
  exists (map (fun e => serverUnregistered (snd e))
              (filter (stale now) (cirrusServers st))).
  split; [assumption|]. rewrite Hm.
  assert (Hst : stale now (k, server)
                = (120000 <? now - CirrusServer.lastPingReceived server))
    by reflexivity.
  split.
  - intro Hle. assert (Hs : stale now (k, server) = false).
    { rewrite Hst. apply Z.ltb_ge. lia. }
    split.
    + apply In_get.
      * unfold JsMap.keys. now apply NoDup_map_filter.
      * apply filter_In. split; [assumption|]. now rewrite Hs.
    + intro Hev. apply in_map_iff in Hev as ([k' s'] & Heq & Hf).
      simpl in Heq. injection Heq as ->.
      apply filter_In in Hf as [_ Hf]. unfold stale in *. simpl in *. congruence.
  - intro Hlt. assert (Hs : stale now (k, server) = true).
    { rewrite Hst. apply Z.ltb_lt. lia. }
    split.
    + apply get_None_keys. intro Hk.
      apply in_map_iff in Hk as ([k' s'] & Heq & Hf). simpl in Heq. subst k'.
      apply filter_In in Hf as [Hf Hkeep].
      assert (s' = server).
      { pose proof (In_get _ _ _ Hnd Hf) as H1.
        pose proof (In_get _ _ _ Hnd Hin) as H2. fold st in H2. congruence. }
      subst s'. rewrite Hs in Hkeep. discriminate.
    + apply in_map_iff. exists (k, server). split; [reflexivity|].
      apply filter_In. auto.
Qed.

(** C7.  Along every execution the client count of every registered
    server is at least 0; and a [clientDisconnected] delivered to a
    server whose count is already 0 leaves the count at 0. *)
Theorem numConnectedClients_never_negative :
  forall (ops : list Op) (k : string) (server : CirrusServer.t),
    In (k, server) (cirrusServers (run ops new_MatchmakerService)) ->
    0 <= CirrusServer.numConnectedClients server
    /\ forall (now : Z) (message : MatchmakerMessage.t),
         MatchmakerMessage.type message = clientDisconnected ->
         exists server',
           JsMap.get k (cirrusServers
                          (updateServerStatus k now message
                             (run ops new_MatchmakerService)))
           = Some server'
           /\ CirrusServer.numConnectedClients server'
              = Z.max 0 (CirrusServer.numConnectedClients server - 1)
           /\ 0 <= CirrusServer.numConnectedClients server'
           /\ (CirrusServer.numConnectedClients server = 0 ->
               CirrusServer.numConnectedClients server' = 0).
Proof.
  intros ops k server Hin.
  assert (Hinv : registry_inv (cirrusServers (run ops new_MatchmakerService)))
    by (apply run_registry, registry_inv_empty).
  destruct Hinv as (Hnd & Hf & _).
  rewrite Forall_forall in Hf. destruct (Hf _ Hin) as [_ Hn]. simpl in Hn.
  split; [assumption|].
  intros now message Hty.
  exists (apply_status now clientDisconnected server).
  unfold updateServerStatus. rewrite (In_get _ _ _ Hnd Hin), Hty.
  cbn [emit cirrusServers set_cirrusServers].
  split; [apply get_set_same|]. simpl.
  destruct (Z.max 0 (CirrusServer.numConnectedClients server - 1) =? 0);
    simpl; repeat split; lia.
Qed.

(** C4.  Whenever [getAvailableServer] returns a server, the registry
    entry it was picked from is ready, has no connected client, and its
    cooldown has elapsed ([now >= cooldownUntil]); the returned object is
    that entry with [lastRedirect = now], so it too has [ready = true]
    and [numConnectedClients = 0].  Clock readings are not negative. *)
Theorem getAvailableServer_eligible :
  forall (ops : list Op) (now : Z) (server : CirrusServer.t)
         (st' : MatchmakerService),
    getAvailableServer now (run ops new_MatchmakerService) = (Some server, st') ->
    0 <= now ->
    CirrusServer.ready server = true
    /\ CirrusServer.numConnectedClients server = 0
    /\ exists k s,
         In (k, s) (cirrusServers (run ops new_MatchmakerService))
         /\ server = CirrusServer.set_lastRedirect (Some now) s
         /\ CirrusServer.ready s = true
         /\ CirrusServer.numConnectedClients s = 0
         /\ spec_cooldownUntil s <= now.
Proof.
  intros ops now server st' Hget Hnow.
  assert (Hinv : registry_inv (cirrusServers (run ops new_MatchmakerService)))
    by (apply run_registry, registry_inv_empty).
  pose proof (getAvailableServer_found now (run ops new_MatchmakerService)) as Hf.
  rewrite Hget in Hf. simpl in Hf.
  destruct (acquire_spec now (cirrusServers (run ops new_MatchmakerService)))
    as [(Hnone & _)|(l1 & k & s & l2 & Hm & _ & Hav & Hsome & _)];
    [congruence|].
  rewrite Hsome in Hf. injection Hf as ->.
  apply isServerAvailable_true in Hav as (Hr & Hn & Hc).
  assert (Hin : In (k, s) (cirrusServers (run ops new_MatchmakerService))).
  { rewrite Hm. apply in_or_app. right. now left. }
  destruct Hinv as (_ & Hall & _). rewrite Forall_forall in Hall.
  destruct (Hall _ Hin) as [_ Hge]. simpl in Hge.
  assert (Hz : CirrusServer.numConnectedClients s = 0) by lia.
  simpl. repeat split; auto.
  exists k, s. repeat split; auto.
  unfold spec_cooldownUntil. destruct Hc as [-> | Hc]; [assumption|].
  destruct (truthy (CirrusServer.lastRedirect s)); lia.
Qed.

(** ** Re-registration *)

Lemma findServerByAddress_registered st k old :
  registry_inv (cirrusServers st) ->
  In (k, old) (cirrusServers st) ->
  findServerByAddress (CirrusServer.address old) (CirrusServer.port old) st
  = Some old.
Proof.
  intros (_ & _ & Hnd) Hin. unfold findServerByAddress.
  assert (Hv : In old (JsMap.values (cirrusServers st))).
  { apply in_map_iff. exists (k, old). auto. }
  destruct (find _ (JsMap.values (cirrusServers st))) as [e|] eqn:Hfind.
  - apply find_some in Hfind as [He Hp].
    apply andb_true_iff in Hp as [Ha Hp].
    apply opt_string_eqb_eq in Ha. apply opt_Z_eqb_eq in Hp.
    f_equal. apply (NoDup_map_inj_on endpoint _ _ _ Hnd He Hv).
    unfold endpoint. congruence.
  - pose proof (find_none _ _ Hfind old Hv) as Hp. simpl in Hp.
    rewrite (proj2 (opt_string_eqb_eq _ _) eq_refl) in Hp.
    rewrite (proj2 (opt_Z_eqb_eq _ _) eq_refl) in Hp. discriminate.
Qed.

(** C3 (as amended).  Registering a connect message whose (address,
    port) is already in the registry removes the prior entry, stores the
    new server (with [numConnectedClients] 1 or 0 after
    [playerConnected], [lastPingReceived = now], the identifier just
    drawn) and emits [serverRegistered] for it, and nothing else: the
    evicted entry gets no [serverUnregistered].  Afterwards the new
    server is the only entry with that endpoint, endpoints are pairwise
    distinct, and the other servers, the sessions and the queue are as
    before. *)
Theorem registerServer_replaces :
  forall (ops : list Op) (serverId : string) (now : Z)
         (message : MatchmakerMessage.t) (k : string) (old : CirrusServer.t),
    In (k, old) (cirrusServers (run ops new_MatchmakerService)) ->
    CirrusServer.address old = MatchmakerMessage.address message ->
    CirrusServer.port old = MatchmakerMessage.port message ->
    let st := run ops new_MatchmakerService in
    let server := new_server serverId now message in
    let st' := snd (registerServer serverId now message st) in
    fst (registerServer serverId now message st) = serverId
    /\ emitted st' = emitted st ++ [serverRegistered server]
    /\ JsMap.get serverId (cirrusServers st') = Some server
    /\ (CirrusServer.id server = serverId
        /\ CirrusServer.numConnectedClients server
           = match MatchmakerMessage.playerConnected message with
             | Some true => 1 | _ => 0 end
        /\ CirrusServer.lastPingReceived server = now
        /\ CirrusServer.lastRedirect server = None)
    /\ (serverId <> k -> JsMap.get k (cirrusServers st') = None)
    /\ (forall k' s', In (k', s') (cirrusServers st') ->
          endpoint s' = endpoint server -> k' = serverId /\ s' = server)
    /\ NoDup (map endpoint (JsMap.values (cirrusServers st')))
    /\ (forall k' s', In (k', s') (cirrusServers st) ->
          k' <> k -> k' <> serverId -> In (k', s') (cirrusServers st'))
    /\ clientSessions st' = clientSessions st
    /\ queueOrder st' = queueOrder st.
Proof.
  intros ops serverId now message k old Hin Ha Hp st server st'.
  assert (Hinv : registry_inv (cirrusServers st))
    by (apply run_registry, registry_inv_empty).
  assert (Hinv' : registry_inv (cirrusServers st'))
    by (now apply registerServer_registry).
  assert (Hid : CirrusServer.id old = k).
  { destruct Hinv as (_ & Hf & _). rewrite Forall_forall in Hf.
    now destruct (Hf _ Hin). }
  assert (Hm : cirrusServers st'
               = JsMap.set serverId server (JsMap.delete k (cirrusServers st))).
  { unfold st', registerServer. fold server.
    replace (CirrusServer.address server) with (CirrusServer.address old)
      by (rewrite Ha; reflexivity).
    replace (CirrusServer.port server) with (CirrusServer.port old)
      by (rewrite Hp; reflexivity).
    rewrite (findServerByAddress_registered st k old Hinv Hin), Hid.
    reflexivity. }
  assert (Hnew : JsMap.get serverId (cirrusServers st') = Some server).
  { rewrite Hm. apply get_set_same. }
  split; [reflexivity|].
  split.
  { unfold st', registerServer. fold server. cbn [snd emit emitted].
    now destruct (findServerByAddress _ _ st). }
  split; [assumption|].
  split; [repeat split|].
  split.
  { intro Hne. rewrite Hm, get_set_other by congruence. apply get_delete_same. }
  split.
  { intros k' s' Hin' Hep. destruct Hinv' as (_ & _ & Hnd).
    unfold JsMap.values in Hnd. rewrite map_map in Hnd.
    apply get_In in Hnew.
    assert (Heq : (k', s') = (serverId, server))
      by (apply (NoDup_map_inj_on _ _ _ _ Hnd Hin' Hnew); exact Hep).
    now injection Heq. }
  split; [apply Hinv'|].
  split.
  { intros k' s' Hin' Hk Hs. rewrite Hm. apply In_set_other; [assumption|].
    apply In_delete. auto. }
  unfold st', registerServer. cbn [snd emit clientSessions queueOrder].
  now destruct (findServerByAddress _ _ st).
Qed.

(** ** Assignment cooldown *)

Lemma cooling_acquire nid t now m :
  0 < t -> cooling nid t m -> cooling nid t (snd (acquire now m)).
Proof.
  intros Ht Hc.
  destruct (acquire_spec now m)
    as [(_ & -> & _)|(l1 & k & s & l2 & -> & _ & Hav & _ & ->)]; [assumption|].
  unfold cooling in *. apply Forall_app in Hc as [H1 H2].
  apply Forall_app. split; [assumption|].
  inversion H2 as [|? ? Hs Hr]; subst. constructor; [|assumption].
  simpl in *. intro Hk. destruct (Hs Hk) as (r & Hlr & Hle).
  exists now. split; [reflexivity|].
  apply isServerAvailable_true in Hav as (_ & _ & Hcd).
  rewrite Hlr in Hcd. simpl in Hcd.
  destruct Hcd as [Hcd|Hcd]; [|lia].
  apply negb_false_iff, Z.eqb_eq in Hcd. lia.
Qed.

Lemma cooling_unregister nid t serverId st :
  cooling nid t (cirrusServers st) ->
  cooling nid t (cirrusServers (unregisterServer serverId st)).
Proof.
  intro Hc. unfold unregisterServer.
  destruct (JsMap.get serverId (cirrusServers st)); [|assumption].
  now apply Forall_delete.
Qed.

Lemma apply_status_lastRedirect now ty server :
  ty <> clientDisconnected ->
  CirrusServer.lastRedirect (apply_status now ty server)
  = CirrusServer.lastRedirect server.
Proof. destruct ty; simpl; congruence. Qed.

Lemma cooling_exec nid t st op :
  0 < t ->
  keeps_cooldown nid op ->
  cooling nid t (cirrusServers st) ->
  cooling nid t (cirrusServers (exec st op)).
Proof.
  intros Ht Hop Hc. destruct op; simpl in *.
  - unfold registerServer. cbn [snd emit cirrusServers set_cirrusServers].
    apply Forall_set; [|simpl; congruence].
    destruct (findServerByAddress _ _ st); [now apply Forall_delete | assumption].
  - unfold updateServerStatus.
    destruct (JsMap.get serverId (cirrusServers st)) as [server|] eqn:Hget;
      [|assumption].
    cbn [emit cirrusServers set_cirrusServers].
    apply Forall_set; [assumption|]. simpl. intro Hk.
    rewrite apply_status_lastRedirect by auto.
    apply get_In in Hget. unfold cooling in Hc. rewrite Forall_forall in Hc.
    exact (Hc _ Hget Hk).
  - now apply cooling_unregister.
  - rewrite getAvailableServer_servers. now apply cooling_acquire.
  - assumption.
  - destruct (processNextInQueue_servers now st) as [->| ->];
      [assumption | now apply cooling_acquire].
  - now rewrite removeSession_servers.
  - now rewrite cleanupExpiredSessions_servers.
  - unfold cleanupStaleServers.
    generalize (JsMap.entries (cirrusServers st)). intro l. revert st Hc.
    induction l as [|e l IH]; intros st Hc; simpl; [assumption|].
    apply IH. destruct (isExpired _ _ _); [now apply cooling_unregister|assumption].
Qed.

Lemma cooling_run nid t ops :
  0 < t ->
  Forall (keeps_cooldown nid) ops ->
  forall st, cooling nid t (cirrusServers st) ->
             cooling nid t (cirrusServers (run ops st)).
Proof.
  intros Ht Hops. induction Hops as [|op ops Hop _ IH]; intros st Hc; simpl;
    [assumption|].
  apply IH. now apply cooling_exec.
Qed.

(** [lastRedirect = 0] is how the source writes "no cooldown"
    ([updateServerStatus] stores it on the last [clientDisconnected]), so
    an assignment made at clock reading 0 would start none; clock
    readings are those of [Date.now()] and are positive. *)
Remark assignment_at_clock_zero server :
  isServerAvailable 0 server = true ->
  isServerAvailable 0 (CirrusServer.set_lastRedirect (Some 0) server) = true.
Proof.
  intro H. apply isServerAvailable_true in H as (Hr & Hn & _).
  apply isServerAvailable_true. simpl. auto.
Qed.

(** C2.  A server returned by [getAvailableServer] at clock reading [t]
    is not returned by any later call made less than 10 000 ms after
    [t], whatever the engine does in between, as long as no
    [clientDisconnected] is delivered to that server.  Clock readings
    are those of [Date.now()], hence positive ([0] is the value the
    source uses for "no cooldown"), and [generateId()] does not hand the
    server's identifier out again. *)
Theorem getAvailableServer_cooldown :
  forall (ops0 : list Op) (t : Z) (server : CirrusServer.t)
         (st1 : MatchmakerService) (ops : list Op) (t' : Z)
         (server' : CirrusServer.t),
    getAvailableServer t (run ops0 new_MatchmakerService) = (Some server, st1) ->
    0 < t ->
    Forall (keeps_cooldown (CirrusServer.id server)) ops ->
    t' - t < 10000 ->
    fst (getAvailableServer t' (run ops st1)) = Some server' ->
    CirrusServer.id server' <> CirrusServer.id server.
Proof.
  intros ops0 t server st1 ops t' server' Hget Ht Hops Hlt Hget' Hid.
  set (st0 := run ops0 new_MatchmakerService) in *.
  assert (Hinv0 : registry_inv (cirrusServers st0))
    by (apply run_registry, registry_inv_empty).
  pose proof (getAvailableServer_found t st0) as Hf.
  pose proof (getAvailableServer_servers t st0) as Hs.
  rewrite Hget in Hf, Hs. simpl in Hf, Hs.
  assert (Hinv1 : registry_inv (cirrusServers st1))
    by (rewrite Hs; now apply acquire_registry).
  assert (Hc1 : cooling (CirrusServer.id server) t (cirrusServers st1)).
  { destruct (acquire_spec t (cirrusServers st0))
      as [(Hnone & _)|(l1 & k & s & l2 & Hm & _ & _ & Hsome & Hsnd)];
      [congruence|].
    rewrite Hsome in Hf. injection Hf as Hsrv. rewrite Hs, Hsnd.
    rewrite Hm in Hinv0. destruct Hinv0 as (Hnd & Hall & _).
    destruct (NoDup_keys_middle _ _ _ _ Hnd) as [Hk1 Hk2].
    apply Forall_app in Hall as [_ Hall].
    inversion Hall as [|? ? [Hids _] _]; subst. simpl in *.
    assert (Hnot : forall l : JsMap.t CirrusServer.t,
               ~ In (CirrusServer.id s) (JsMap.keys l) ->
               Forall (fun kv => fst kv = CirrusServer.id s ->
                                 exists r, CirrusServer.lastRedirect (snd kv) = Some r
                                           /\ t <= r) l).
    { intros l Hl. apply Forall_forall. intros [k' s'] Hin Hk'. simpl in Hk'.
      exfalso. apply Hl. rewrite <- Hk'.
      change k' with (fst (k', s')). now apply in_map. }
    unfold cooling. cbn [CirrusServer.id CirrusServer.set_lastRedirect].
    rewrite <- Hids in Hk1, Hk2.
    apply Forall_app. split; [now apply Hnot|].
    constructor; [|now apply Hnot].
    simpl. intros _. exists t. split; [reflexivity | lia]. }
  pose proof (cooling_run _ _ _ Ht Hops st1 Hc1) as Hc.
  pose proof (run_registry ops st1 Hinv1) as Hinv.
  rewrite getAvailableServer_found in Hget'.
  destruct (acquire_spec t' (cirrusServers (run ops st1)))
    as [(Hnone & _)|(l1 & k & s & l2 & Hm & _ & Hav & Hsome & _)];
    [congruence|].
  rewrite Hsome in Hget'. injection Hget' as <-. simpl in Hid.
  rewrite Hm in Hc, Hinv.
  destruct Hinv as (_ & Hall & _). apply Forall_app in Hall as [_ Hall].
  inversion Hall as [|? ? [Hids _] _]; subst. simpl in Hids.
  unfold cooling in Hc. apply Forall_app in Hc as [_ Hc].
  inversion Hc as [|? ? Hk _]; subst. simpl in Hk.
  destruct Hk as (r & Hlr & Hle); [congruence|].
  apply isServerAvailable_true in Hav as (_ & _ & Hcd).
  rewrite Hlr in Hcd. simpl in Hcd. destruct Hcd as [Hcd|Hcd]; [|lia].
  apply negb_false_iff, Z.eqb_eq in Hcd. lia.
Qed.

(** ** Arrays *)

Lemma findIndex_Some {A : Type} (p : A -> bool) (l : list A) (i : nat) :
  findIndex p l = Some i ->
  exists u y v, l = u ++ y :: v /\ length u = i
                /\ Forall (fun a => p a = false) u /\ p y = true.
Proof.
  revert i. induction l as [|x r IH]; intros i; simpl; [discriminate|].
  destruct (p x) eqn:Hp.
  - intros [= <-]. exists [], x, r. auto.
  - destruct (findIndex p r) as [j|]; [|discriminate]. intros [= <-].
    destruct (IH j eq_refl) as (u & y & v & -> & Hl & Hu & Hy).
    exists (x :: u), y, v. simpl. repeat split; auto.
Qed.

Lemma findIndex_None {A : Type} (p : A -> bool) (l : list A) :
  findIndex p l = None -> Forall (fun a => p a = false) l.
Proof.
  induction l as [|x r IH]; simpl; [constructor|].
  destruct (p x) eqn:Hp; [discriminate|].
  destruct (findIndex p r); [discriminate|]. auto.
Qed.

Lemma findIndex_first {A : Type} (p : A -> bool) (u : list A) (y : A) (v : list A) :
  Forall (fun a => p a = false) u -> p y = true ->
  findIndex p (u ++ y :: v) = Some (length u).
Proof.
  intros Hu Hy. induction Hu as [|x u Hx _ IH]; simpl.
  - now rewrite Hy.
  - now rewrite Hx, IH.
Qed.

Lemma splice_insert_at {A : Type} (u w : list A) (x : A) :
  splice_insert (length u) x (u ++ w) = u ++ x :: w.
Proof.
  unfold splice_insert.
  rewrite firstn_app, skipn_app, firstn_all, skipn_all, Nat.sub_diag.
  simpl. now rewrite app_nil_r.
Qed.

Lemma splice_remove_at {A : Type} (u w : list A) (y : A) :
  splice_remove (length u) (u ++ y :: w) = u ++ w.
Proof.
  unfold splice_remove. induction u as [|a u IH]; [reflexivity|].
  simpl. f_equal. exact IH.
Qed.

Lemma first_occurrence_unique {A : Type} (s : A) (u u' v v' : list A) :
  ~ In s u -> ~ In s u' -> u ++ s :: v = u' ++ s :: v' -> u = u' /\ v = v'.
Proof.
  revert u'. induction u as [|a u IH]; intros [|a' u'] Hu Hu' H; simpl in *.
  - injection H as ->. auto.
  - injection H as <- _. tauto.
  - injection H as -> _. tauto.
  - injection H as <- H. destruct (IH u') as [-> ->]; auto.
Qed.

Lemma indexOf_first (s : string) (u v : list string) :
  ~ In s u -> indexOf s (u ++ s :: v) = Some (length u).
Proof.
  intro H. apply findIndex_first; [|apply String.eqb_refl].
  apply Forall_forall. intros a Ha. apply String.eqb_neq. congruence.
Qed.

Lemma indexOf_Some (s : string) (l : list string) (i : nat) :
  indexOf s l = Some i ->
  exists u v, l = u ++ s :: v /\ length u = i /\ ~ In s u.
Proof.
  intro H. apply findIndex_Some in H as (u & y & v & -> & Hl & Hu & Hy).
  apply String.eqb_eq in Hy. subst y. exists u, v. repeat split; auto.
  intro Hin. rewrite Forall_forall in Hu. apply Hu in Hin.
  now rewrite String.eqb_refl in Hin.
Qed.

Lemma indexOf_None (s : string) (l : list string) :
  indexOf s l = None <-> ~ In s l.
Proof.
  split.
  - intros H Hin. apply findIndex_None in H. rewrite Forall_forall in H.
    apply H in Hin. now rewrite String.eqb_refl in Hin.
  - intro H. destruct (indexOf s l) as [i|] eqn:E; [|reflexivity].
    apply indexOf_Some in E as (u & v & -> & _). exfalso. apply H.
    apply in_or_app. right. now left.
Qed.

(** The queue after [addToQueue]: the new identifier sits between the
    sessions it does not overtake and the first one of lower priority. *)
Lemma addToQueue_queue sid now clientId priority st :
  let sessions := clientSessions (snd (addToQueue sid now clientId priority st)) in
  exists u v,
    queueOrder st = u ++ v
    /\ queueOrder (snd (addToQueue sid now clientId priority st)) = u ++ sid :: v
    /\ Forall (fun a => lower_priority sessions priority a = false) u
    /\ match v with
       | [] => True
       | y :: _ => lower_priority sessions priority y = true
       end.
Proof.
  unfold addToQueue. cbn [snd emit set_queueOrder set_clientSessions
                          queueOrder clientSessions].
  destruct (findIndex _ (queueOrder st)) as [i|] eqn:Hf.
  - apply findIndex_Some in Hf as (u & y & v & Hq & Hl & Hu & Hy).
    exists u, (y :: v). rewrite Hq, <- Hl, splice_insert_at. auto.
  - apply findIndex_None in Hf. exists (queueOrder st), [].
    rewrite app_nil_r. unfold push. auto.
Qed.

Lemma addToQueue_sessions sid now clientId priority st :
  clientSessions (snd (addToQueue sid now clientId priority st))
  = JsMap.set sid (new_session sid now clientId priority) (clientSessions st)
  /\ fst (addToQueue sid now clientId priority st)
     = new_session sid now clientId priority
  /\ cirrusServers (snd (addToQueue sid now clientId priority st))
     = cirrusServers st.
Proof. unfold addToQueue. simpl. auto. Qed.

(** The queue after [removeSession]. *)
Lemma removeSession_queue sid st :
  (JsMap.get sid (clientSessions st) = None /\ removeSession sid st = st)
  \/ (exists session,
        JsMap.get sid (clientSessions st) = Some session
        /\ clientSessions (removeSession sid st)
           = JsMap.delete sid (clientSessions st)
        /\ emitted (removeSession sid st)
           = emitted st ++ [sessionRemoved session]
        /\ ((~ In sid (queueOrder st)
             /\ queueOrder (removeSession sid st) = queueOrder st)
            \/ (exists u v, queueOrder st = u ++ sid :: v /\ ~ In sid u
                            /\ queueOrder (removeSession sid st) = u ++ v))).
Proof.
  unfold removeSession.
  destruct (JsMap.get sid (clientSessions st)) as [session|]; [right|now left].
  exists session. split; [reflexivity|].
  cbn [set_clientSessions queueOrder].
  destruct (indexOf sid (queueOrder st)) as [i|] eqn:Hi;
    cbn [emit set_queueOrder set_clientSessions queueOrder clientSessions emitted].
  - repeat split. right.
    apply indexOf_Some in Hi as (u & v & Hq & Hl & Hu).
    exists u, v. rewrite Hq, <- Hl, splice_remove_at. auto.
  - repeat split. left. apply indexOf_None in Hi. auto.
Qed.

Lemma removeSession_idempotent sid st :
  removeSession sid (removeSession sid st) = removeSession sid st.
Proof.
  destruct (removeSession_queue sid st) as [[_ H]|(session & _ & Hs & _)].
  - now rewrite !H.
  - unfold removeSession at 1. now rewrite Hs, get_delete_same.
Qed.

(** C8.  [addToQueue] followed by [removeSession] of the session it
    returned restores the queue: its length is the one before the
    enqueue in every case, and its contents (and the session map) are
    the ones before the enqueue when the identifier drawn from
    [generateId()] was not in use.  [removeSession] is idempotent:
    repeating it changes nothing. *)
Theorem addToQueue_removeSession_roundtrip :
  forall (st : MatchmakerService) (sessionId : string) (now : Z)
         (clientId : option string) (priority : Z),
    let session := fst (addToQueue sessionId now clientId priority st) in
    let st1 := snd (addToQueue sessionId now clientId priority st) in
    let st2 := removeSession (ClientSession.id session) st1 in
    queueLength (getStats now st2) = queueLength (getStats now st)
    /\ (~ In sessionId (queueOrder st) -> queueOrder st2 = queueOrder st)
    /\ (JsMap.get sessionId (clientSessions st) = None ->
        clientSessions st2 = clientSessions st)
    /\ removeSession (ClientSession.id session) st2 = st2
    /\ forall sid st0, removeSession sid (removeSession sid st0)
                       = removeSession sid st0.
Proof.
  intros st sid now clientId priority session st1 st2.
  destruct (addToQueue_sessions sid now clientId priority st) as (Hs & Hfst & _).
  destruct (addToQueue_queue sid now clientId priority st)
    as (u & v & Hq & Hq1 & _).
  fold st1 in Hs, Hq1. fold session in Hfst.
  assert (Hid : ClientSession.id session = sid) by (now rewrite Hfst).
  unfold st2. rewrite Hid.
  destruct (removeSession_queue sid st1)
    as [[Hnone _]|(s & _ & Hs2 & _ & Hq2)].
  { rewrite Hs, get_set_same in Hnone. discriminate. }
  assert (Hlen : length (queueOrder (removeSession sid st1))
                 = length (queueOrder st)).
  { destruct Hq2 as [[Hnot _]|(u' & v' & Hq' & _ & ->)].
    - exfalso. apply Hnot. rewrite Hq1. apply in_or_app. right. now left.
    - rewrite Hq1 in Hq'. apply (f_equal (@length string)) in Hq'.
      rewrite Hq. rewrite !length_app in *. simpl in Hq'. lia. }
  split; [simpl; now rewrite Hlen|].
  split.
  { intro Hfresh. destruct Hq2 as [[Hnot _]|(u' & v' & Hq' & Hu' & ->)].
    - exfalso. apply Hnot. rewrite Hq1. apply in_or_app. right. now left.
    - assert (Hu : ~ In sid u).
      { intro Hin. apply Hfresh. rewrite Hq. apply in_or_app. now left. }
      rewrite Hq1 in Hq'.
      destruct (first_occurrence_unique _ _ _ _ _ Hu Hu' Hq') as [<- <-].
      now rewrite Hq. }
  split.
  { intro Hfresh. rewrite Hs2, Hs. now apply delete_set_fresh. }
  split; [apply removeSession_idempotent|].
  intros. apply removeSession_idempotent.
Qed.

(** ** Order of service *)


Lemma precedes_In a b l : precedes a b l -> In a l /\ In b l.
Proof.
  intros (l1 & l2 & -> & Hb). split; apply in_or_app; right; simpl; auto.
Qed.

Lemma precedes_app_r a b l l' : precedes a b l -> precedes a b (l ++ l').
Proof.
  intros (l1 & l2 & -> & Hb). exists l1, (l2 ++ l'). split.
  - now rewrite <- app_assoc.
  - apply in_or_app. now left.
Qed.

Lemma precedes_snoc a x l : In a l -> precedes a x (l ++ [x]).
Proof.
  intro Ha. apply in_split in Ha as (l1 & l2 & ->).
  exists l1, (l2 ++ [x]). split.
  - now rewrite <- app_assoc.
  - apply in_or_app. right. now left.
Qed.

Lemma precedes_neq a b l : NoDup l -> precedes a b l -> a <> b.
Proof.
  intros Hnd (l1 & l2 & -> & Hb) <-. apply NoDup_remove_2 in Hnd.
  apply Hnd. apply in_or_app. now right.
Qed.

Lemma precedes_cons a b x l :
  precedes a b (x :: l) <-> (x = a /\ In b l) \/ precedes a b l.
Proof.
  split.
  - intros ([|y l1] & l2 & Heq & Hb); simpl in Heq; injection Heq as -> ->.
    + now left.
    + right. now exists l1, l2.
  - intros [[-> Hb]|(l1 & l2 & -> & Hb)].
    + now exists [], l.
    + now exists (x :: l1), l2.
Qed.

Lemma precedes_antisym a b l :
  NoDup l -> precedes a b l -> precedes b a l -> False.
Proof.
  induction l as [|x l IH]; intros Hnd Hab Hba.
  - destruct Hab as ([|? ?] & ? & ? & _); discriminate.
  - inversion Hnd as [|? ? Hx Hl]; subst.
    apply precedes_cons in Hab, Hba.
    destruct Hab as [[-> Hb]|Hab], Hba as [[-> Ha]|Hba]; auto.
    + apply precedes_In in Hba. tauto.
    + apply precedes_In in Hab. tauto.
Qed.

Lemma SS_insert {A : Type} (R : A -> A -> Prop) (u w : list A) (x : A) :
  StronglySorted R (u ++ w) ->
  Forall (fun a => R a x) u -> Forall (R x) w ->
  StronglySorted R (u ++ x :: w).
Proof.
  induction u as [|a u IH]; simpl; intros Hs Hu Hw.
  - now constructor.
  - inversion Hs as [|? ? Hs' Ha]; subst. inversion Hu; subst.
    constructor; [auto|].
    apply Forall_app in Ha as [Ha1 Ha2]. apply Forall_app. split; auto.
Qed.

Lemma SS_remove {A : Type} (R : A -> A -> Prop) (u w : list A) (x : A) :
  StronglySorted R (u ++ x :: w) -> StronglySorted R (u ++ w).
Proof.
  induction u as [|a u IH]; simpl; intro Hs.
  - now inversion Hs.
  - inversion Hs as [|? ? Hs' Ha]; subst. constructor; [auto|].
    apply Forall_app in Ha as [Ha1 Ha2]. apply Forall_app. split; auto.
    now inversion Ha2.
Qed.

Lemma SS_split {A : Type} (R : A -> A -> Prop) (u w : list A) (x : A) :
  StronglySorted R (u ++ x :: w) ->
  Forall (fun a => R a x) u /\ Forall (R x) w.
Proof.
  induction u as [|a u IH]; simpl; intro Hs.
  - inversion Hs; subst. auto.
  - inversion Hs as [|? ? Hs' Ha]; subst. destruct (IH Hs') as [H1 H2].
    split; [|assumption]. constructor; [|assumption].
    apply Forall_app in Ha as [_ Ha]. now inversion Ha.
Qed.

Lemma SS_impl {A : Type} (R R' : A -> A -> Prop) (l : list A) :
  (forall a b, In a l -> In b l -> R a b -> R' a b) ->
  StronglySorted R l -> StronglySorted R' l.
Proof.
  induction l as [|x l IH]; intros Himp Hs; [constructor|].
  inversion Hs as [|? ? Hs' Hx]; subst. constructor.
  - apply IH; [|assumption]. intros a b Ha Hb. apply Himp; now right.
  - rewrite Forall_forall in *. intros b Hb. apply Himp; simpl; auto.
Qed.

Lemma log_functional (log : list (string * Z)) a p p' :
  NoDup (map fst log) -> In (a, p) log -> In (a, p') log -> p = p'.
Proof.
  intros Hnd H1 H2.
  assert (H : (a, p) = (a, p')) by (now apply (NoDup_map_inj_on fst log)).
  now injection H.
Qed.

Lemma served_before_mono log log' a b :
  served_before log a b -> served_before (log ++ log') a b.
Proof.
  intros (pa & pb & Ha & Hb & Hord). exists pa, pb.
  repeat split; try (apply in_or_app; now left).
  destruct Hord as [Hlt|[Heq Hp]]; [now left|]. right. split; [assumption|].
  rewrite map_app. now apply precedes_app_r.
Qed.

(** ** The queue invariant *)

Lemma queue_inv_empty : queue_inv [] new_MatchmakerService.
Proof.
  repeat split; simpl; try tauto; try constructor.
  - intros sid s H. discriminate.
Qed.

Lemma queue_inv_same log st st' :
  clientSessions st' = clientSessions st ->
  queueOrder st' = queueOrder st ->
  queue_inv log st -> queue_inv log st'.
Proof. unfold queue_inv. intros -> ->. auto. Qed.

Lemma queue_present log st sid :
  queue_inv log st -> In sid (queueOrder st) ->
  In sid (JsMap.keys (clientSessions st)).
Proof.
  intros (_ & _ & Hq & _) Hin. destruct (Hq _ Hin) as (s & Hs & _).
  apply get_In in Hs. change sid with (fst (sid, s)). now apply in_map.
Qed.

Lemma queue_inv_drop log st u x w sessions :
  queue_inv log st ->
  queueOrder st = u ++ x :: w ->
  (forall sid, sid <> x ->
     JsMap.get sid sessions = JsMap.get sid (clientSessions st)) ->
  (forall s, JsMap.get x sessions = Some s ->
     exists s0, JsMap.get x (clientSessions st) = Some s0
                /\ ClientSession.priority s = ClientSession.priority s0) ->
  queue_inv log (set_queueOrder (u ++ w) (set_clientSessions sessions st)).
Proof.
  intros (Hk & Hnd & Hq & Hp & Hs) Hqu Hother Hx.
  rewrite Hqu in *.
  assert (Hnx : ~ In x (u ++ w)) by (now apply NoDup_remove_2).
  unfold queue_inv. cbn [set_queueOrder set_clientSessions queueOrder clientSessions].
  split; [|split; [|split; [|split]]].
  - intros sid Hin. apply get_Some_keys in Hin as (s & Hs').
    destruct (String.eqb sid x) eqn:E.
    + apply String.eqb_eq in E. subst sid.
      destruct (Hx _ Hs') as (s0 & Hs0 & _). apply Hk.
      apply get_In in Hs0. change x with (fst (x, s0)). now apply in_map.
    + apply String.eqb_neq in E. rewrite Hother in Hs' by assumption.
      apply Hk. apply get_In in Hs'. change sid with (fst (sid, s)).
      now apply in_map.
  - now apply NoDup_remove_1 in Hnd.
  - intros sid Hin. rewrite Hother by (intros ->; contradiction).
    apply Hq. apply in_app_or in Hin. apply in_or_app. simpl. tauto.
  - intros sid s Hs'. destruct (String.eqb sid x) eqn:E.
    + apply String.eqb_eq in E. subst sid.
      destruct (Hx _ Hs') as (s0 & Hs0 & ->). now apply Hp.
    + apply String.eqb_neq in E. rewrite Hother in Hs' by assumption. now apply Hp.
  - now apply SS_remove in Hs.
Qed.

Lemma removeSession_inv log sid st :
  queue_inv log st -> queue_inv log (removeSession sid st).
Proof.
  intro Hinv.
  destruct (removeSession_queue sid st)
    as [[_ ->]|(session & Hget & Hs & _ & [[Hnot Hq]|(u & v & Hq & _ & Hq')])];
    [assumption| |].
  - destruct Hinv as (Hk & Hnd & Hqs & Hp & Hss).
    unfold queue_inv. rewrite Hs, Hq.
    split; [|split; [|split; [|split]]]; auto.
    + intros x Hin. apply Hk. unfold JsMap.keys in *.
      apply in_map_iff in Hin as (kv & <- & Hin). apply In_delete in Hin as [Hin _].
      now apply in_map.
    + intros x Hin. rewrite get_delete_other by (intros ->; contradiction). auto.
    + intros x s Hx. destruct (String.eqb x sid) eqn:E.
      * apply String.eqb_eq in E. subst x. rewrite get_delete_same in Hx. discriminate.
      * apply String.eqb_neq in E. rewrite get_delete_other in Hx by assumption. auto.
  - pose proof (queue_inv_drop log st u sid v
                  (JsMap.delete sid (clientSessions st)) Hinv Hq) as H.
    eapply queue_inv_same; [| |apply H].
    + exact Hs.
    + exact Hq'.
    + intros x Hx. now apply get_delete_other.
    + intros s Hx. rewrite get_delete_same in Hx. discriminate.
Qed.

Lemma cleanupExpiredSessions_inv log SessionTimeoutMs now st :
  queue_inv log st -> queue_inv log (cleanupExpiredSessions SessionTimeoutMs now st).
Proof.
  unfold cleanupExpiredSessions.
  generalize (JsMap.entries (clientSessions st)). intro l. revert st.
  induction l as [|e l IH]; intros st Hinv; simpl; [assumption|].
  apply IH. destruct (isExpired _ _ _); [now apply removeSession_inv|assumption].
Qed.

(** What [processNextInQueue] does to the sessions and the queue. *)
Lemma processNextInQueue_queue now st :
  let st' := snd (processNextInQueue now st) in
  (fst (processNextInQueue now st) = false
   /\ clientSessions st' = clientSessions st /\ queueOrder st' = queueOrder st)
  \/ (exists sid rest,
        queueOrder st = sid :: rest /\ queueOrder st' = rest
        /\ ((fst (processNextInQueue now st) = false
             /\ JsMap.get sid (clientSessions st) = None
             /\ clientSessions st' = clientSessions st)
            \/ (exists session server,
                  fst (processNextInQueue now st) = true
                  /\ fst (getAvailableServer now st) = Some server
                  /\ JsMap.get sid (clientSessions st) = Some session
                  /\ clientSessions st'
                     = JsMap.set sid
                         (ClientSession.assign (CirrusServer.id server) now session)
                         (clientSessions st)
                  /\ emitted st'
                     = emitted st
                       ++ [clientAssigned
                             (ClientSession.assign (CirrusServer.id server) now session)
                             server]))).
Proof.
  unfold processNextInQueue, processNextInQueue_at.
  destruct (queueOrder st) as [|sid rest] eqn:Hq; [left; auto|].
  destruct (getAvailableServer_rest now st) as (Hs & Hq' & He).
  destruct (getAvailableServer now st) as [[server|] st1]; simpl in *.
  - right. exists sid, rest. split; [reflexivity|]. rewrite Hs.
    destruct (JsMap.get sid (clientSessions st)) as [session|] eqn:Hget; simpl.
    + split; [reflexivity|]. right. exists session, server.
      rewrite He. repeat split; reflexivity.
    + split; [reflexivity|]. left. auto.
  - left. rewrite Hq in Hq'. auto.
Qed.

Lemma processNextInQueue_inv log now st :
  queue_inv log st -> queue_inv log (snd (processNextInQueue now st)).
Proof.
  intro Hinv.
  destruct (processNextInQueue_queue now st)
    as [(_ & Hs & Hq)|(sid & rest & Hq & Hq' & Hcase)].
  - eapply queue_inv_same; eauto.
  - pose proof (queue_inv_drop log st [] sid rest
                  (clientSessions (snd (processNextInQueue now st))) Hinv Hq) as H.
    eapply queue_inv_same; [| |apply H]; try reflexivity.
    + exact Hq'.
    + intros x Hx. destruct Hcase as [(_ & _ & ->)|(session & server & _ & _ & _ & -> & _)];
        [reflexivity|]. now apply get_set_other.
    + intros s Hx. destruct Hcase as [(_ & Hnone & Hs)|(session & server & _ & _ & Hget & Hs & _)].
      * rewrite Hs in Hx. congruence.
      * rewrite Hs, get_set_same in Hx. injection Hx as <-.
        exists session. auto.
Qed.

Lemma addToQueue_inv log sid now clientId priority st :
  queue_inv log st ->
  NoDup (map fst (log ++ [(sid, priority)])) ->
  queue_inv (log ++ [(sid, priority)])
            (snd (addToQueue sid now clientId priority st)).
Proof.
  intros Hinv Hnd'.
  pose proof Hinv as (Hk & Hnd & Hq & Hp & Hs).
  rewrite map_app in Hnd'. simpl in Hnd'.
  assert (Hlog : NoDup (map fst log))
    by (apply NoDup_remove_1 in Hnd'; now rewrite app_nil_r in Hnd').
  assert (Hfresh : ~ In sid (map fst log)).
  { apply NoDup_remove_2 in Hnd'. now rewrite app_nil_r in Hnd'. }
  assert (Hfq : ~ In sid (queueOrder st)).
  { intro Hin. apply Hfresh, Hk. eapply queue_present; eauto. }
  destruct (addToQueue_sessions sid now clientId priority st) as (Hs' & _ & _).
  destruct (addToQueue_queue sid now clientId priority st)
    as (u & v & Hqu & Hq' & Hu & Hv).
  cbv zeta in Hu, Hv. rewrite Hs' in Hu, Hv.
  set (session := new_session sid now clientId priority) in *.
  assert (Hold : forall x, In x (queueOrder st) ->
            exists s, JsMap.get x (JsMap.set sid session (clientSessions st)) = Some s
                      /\ JsMap.get x (clientSessions st) = Some s
                      /\ ClientSession.status s = queued
                      /\ In (x, ClientSession.priority s) log).
  { intros x Hx. destruct (Hq _ Hx) as (s & Hget & Hst). exists s.
    rewrite get_set_other by (intros ->; contradiction). auto. }
  assert (Hlow : forall x, In x (queueOrder st) ->
            forall b, lower_priority (JsMap.set sid session (clientSessions st))
                                     priority x = b ->
            exists px, In (x, px) log /\ (px <? priority) = b).
  { intros x Hx b Hb. destruct (Hold _ Hx) as (s & Hget & _ & _ & Hin).
    unfold lower_priority in Hb. rewrite Hget in Hb. eauto. }
  unfold queue_inv. rewrite Hs', Hq'.
  split; [|split; [|split; [|split]]].
  - intros x Hin. apply get_Some_keys in Hin as (s & Hget).
    rewrite map_app. apply in_or_app.
    destruct (String.eqb x sid) eqn:E.
    + apply String.eqb_eq in E. subst x. right. now left.
    + apply String.eqb_neq in E. rewrite get_set_other in Hget by assumption.
      left. apply Hk. apply get_In in Hget.
      change x with (fst (x, s)). now apply in_map.
  - eapply Permutation_NoDup; [apply Permutation_middle|].
    constructor; rewrite <- Hqu; assumption.
  - intros x Hin.
    assert (Hcase : x = sid \/ In x (queueOrder st)).
    { rewrite Hqu. apply in_app_or in Hin as [Hin|[Hin|Hin]]; auto;
        right; apply in_or_app; auto. }
    destruct Hcase as [->|Hx].
    + exists session. split; [apply get_set_same | reflexivity].
    + destruct (Hold _ Hx) as (s & Hget & _ & Hst & _). eauto.
  - intros x s Hget. apply in_or_app.
    destruct (String.eqb x sid) eqn:E.
    + apply String.eqb_eq in E. subst x. rewrite get_set_same in Hget.
      injection Hget as <-. right. now left.
    + apply String.eqb_neq in E. rewrite get_set_other in Hget by assumption.
      left. now apply Hp.
  - assert (Hnew : In (sid, priority) (log ++ [(sid, priority)]))
      by (apply in_or_app; right; now left).
    rewrite Hqu in Hs. apply SS_insert.
    + eapply SS_impl; [|exact Hs]. intros a b _ _. apply served_before_mono.
    + apply Forall_forall. intros a Ha.
      assert (Haq : In a (queueOrder st)) by (rewrite Hqu; apply in_or_app; auto).
      rewrite Forall_forall in Hu.
      destruct (Hlow a Haq false (Hu a Ha)) as (pa & Hin & Hcmp).
      apply Z.ltb_ge in Hcmp.
      exists pa, priority. repeat split; auto.
      * apply in_or_app. now left.
      * destruct (Z.eq_dec pa priority) as [->|Hne]; [right|left; lia].
        split; [reflexivity|]. rewrite map_app. simpl.
        apply precedes_snoc. change a with (fst (a, priority)). now apply in_map.
    + destruct v as [|y v']; [constructor|].
      assert (Hyq : In y (queueOrder st))
        by (rewrite Hqu; apply in_or_app; right; now left).
      destruct (Hlow y Hyq true Hv) as (py & Hyin & Hcmp).
      apply Z.ltb_lt in Hcmp.
      constructor.
      * exists priority, py. repeat split; auto.
        apply in_or_app. now left.
      * apply SS_split in Hs as [_ Hyv]. rewrite Forall_forall in *.
        intros z Hz. destruct (Hyv z Hz) as (py' & pz & Hy' & Hzin & Hord).
        assert (py' = py) by (eapply log_functional; eauto). subst py'.
        exists priority, pz. repeat split; auto.
        -- apply in_or_app. now left.
        -- left. lia.
Qed.

Lemma registerServer_rest serverId now message st :
  clientSessions (snd (registerServer serverId now message st)) = clientSessions st
  /\ queueOrder (snd (registerServer serverId now message st)) = queueOrder st.
Proof.
  unfold registerServer. cbn [snd emit clientSessions queueOrder].
  now destruct (findServerByAddress _ _ st).
Qed.

Lemma updateServerStatus_rest serverId now message st :
  clientSessions (updateServerStatus serverId now message st) = clientSessions st
  /\ queueOrder (updateServerStatus serverId now message st) = queueOrder st.
Proof.
  unfold updateServerStatus.
  now destruct (JsMap.get serverId (cirrusServers st)).
Qed.

Lemma unregisterServer_rest serverId st :
  clientSessions (unregisterServer serverId st) = clientSessions st
  /\ queueOrder (unregisterServer serverId st) = queueOrder st.
Proof.
  unfold unregisterServer. now destruct (JsMap.get serverId (cirrusServers st)).
Qed.

Lemma cleanupStaleServers_rest now st :
  clientSessions (cleanupStaleServers now st) = clientSessions st
  /\ queueOrder (cleanupStaleServers now st) = queueOrder st.
Proof.
  unfold cleanupStaleServers.
  generalize (JsMap.entries (cirrusServers st)). intro l. revert st.
  induction l as [|e l IH]; intro st; simpl; [auto|].
  destruct (IH (if isExpired now (CirrusServer.lastPingReceived (snd e)) 120000
                then unregisterServer (fst e) st else st)) as [-> ->].
  destruct (isExpired _ _ _); [apply unregisterServer_rest | auto].
Qed.

Lemma exec_inv log st op :
  queue_inv log st ->
  NoDup (map fst (log ++ enqueued_by op)) ->
  queue_inv (log ++ enqueued_by op) (exec st op).
Proof.
  intros Hinv Hnd.
  destruct op; simpl in *; try rewrite app_nil_r in *.
  - destruct (registerServer_rest serverId now message st).
    eapply queue_inv_same; eauto.
  - destruct (updateServerStatus_rest serverId now message st).
    eapply queue_inv_same; eauto.
  - destruct (unregisterServer_rest serverId st).
    eapply queue_inv_same; eauto.
  - destruct (getAvailableServer_rest now st) as (? & ? & _).
    eapply queue_inv_same; eauto.
  - now apply addToQueue_inv.
  - now apply processNextInQueue_inv.
  - now apply removeSession_inv.
  - now apply cleanupExpiredSessions_inv.
  - destruct (cleanupStaleServers_rest now st).
    eapply queue_inv_same; eauto.
Qed.

Lemma enqueued_snoc ops op : enqueued (ops ++ [op]) = enqueued ops ++ enqueued_by op.
Proof. unfold enqueued. rewrite flat_map_app. simpl. now rewrite app_nil_r. Qed.

Lemma run_inv ops :
  NoDup (map fst (enqueued ops)) ->
  queue_inv (enqueued ops) (run ops new_MatchmakerService).
Proof.
  induction ops as [|op ops IH] using rev_ind; intro Hnd.
  - apply queue_inv_empty.
  - rewrite run_snoc, enqueued_snoc in *. apply exec_inv; [|assumption].
    apply IH. rewrite map_app in Hnd. now apply NoDup_app_remove_r in Hnd.
Qed.

Lemma enqueued_generated ops :
  incl (map fst (enqueued ops)) (generated_ids ops).
Proof.
  induction ops as [|op ops IH]; simpl; [apply incl_refl|].
  unfold enqueued, generated_ids in *. cbn [flat_map]. rewrite map_app.
  apply incl_app.
  - intros x Hx. apply in_or_app. left.
    destruct op; simpl in *; try contradiction. exact Hx.
  - now apply incl_appr.
Qed.

Lemma fresh_ids_enqueued ops :
  fresh_ids ops -> NoDup (map fst (enqueued ops)).
Proof.
  unfold fresh_ids. induction ops as [|op ops IH]; simpl; intro Hnd.
  - constructor.
  - unfold enqueued, generated_ids in *. simpl in *. rewrite map_app.
    pose proof (enqueued_generated ops) as Hincl.
    unfold enqueued, generated_ids in Hincl.
    destruct op; simpl in *;
      try (apply IH; assumption);
      try (inversion Hnd; subst; apply IH; assumption).
    inversion Hnd as [|? ? Hx Hr]; subst. constructor; auto.
Qed.

(** C9.  Along every execution (identifiers drawn from [generateId()]
    being pairwise distinct) every identifier in [queueOrder] occurs
    there exactly once and names a session of the session map whose
    status is [queued]; hence a call of [processNextInQueue] that
    acquires a server always finds the session it pops, and the
    "session missing" branch is never taken. *)
Theorem queue_sessions_consistent :
  forall (ops : list Op),
    fresh_ids ops ->
    let st := run ops new_MatchmakerService in
    NoDup (queueOrder st)
    /\ (forall sid, In sid (queueOrder st) ->
          count_occ string_dec (queueOrder st) sid = 1%nat
          /\ exists s, JsMap.get sid (clientSessions st) = Some s
                       /\ ClientSession.status s = queued)
    /\ (forall now sid rest,
          queueOrder st = sid :: rest ->
          fst (getAvailableServer now st) <> None ->
          fst (processNextInQueue now st) = true).
Proof.
  intros ops Hfresh st.
  pose proof (run_inv ops (fresh_ids_enqueued ops Hfresh)) as Hinv.
  fold st in Hinv. destruct Hinv as (_ & Hnd & Hq & _ & _).
  split; [assumption|]. split.
  - intros sid Hin. split; [|auto].
    now apply (proj1 (NoDup_count_occ' string_dec (queueOrder st))).
  - intros now sid rest Hqu Hsome.
    destruct (Hq sid) as (s & Hget & _); [rewrite Hqu; now left|].
    unfold processNextInQueue, processNextInQueue_at. rewrite Hqu.
    destruct (getAvailableServer_rest now st) as (Hs & _ & _).
    destruct (getAvailableServer now st) as [[server|] st1]; simpl in *;
      [|congruence].
    now rewrite Hs, Hget.
Qed.

(** ** Priority and arrival order *)

Lemma ordered_in_queue log st s1 p1 s2 p2 :
  queue_inv log st ->
  NoDup (map fst log) ->
  In (s1, p1) log -> In (s2, p2) log -> p2 <= p1 ->
  precedes s1 s2 (map fst log) ->
  In s1 (queueOrder st) -> In s2 (queueOrder st) ->
  precedes s1 s2 (queueOrder st).
Proof.
  intros (_ & _ & _ & _ & Hs) Hlog H1 H2 Hle Hprec Hin1 Hin2.
  apply in_split in Hin1 as (l1 & l2 & Hq). rewrite Hq in *.
  exists l1, l2. split; [reflexivity|].
  apply in_app_or in Hin2 as [Hin2|[Heq|Hin2]]; [exfalso| exfalso |assumption].
  - apply SS_split in Hs as [Hbefore _]. rewrite Forall_forall in Hbefore.
    destruct (Hbefore _ Hin2) as (pa & pb & Ha & Hb & Hord).
    assert (pa = p2) by (eapply log_functional; eauto).
    assert (pb = p1) by (eapply log_functional; eauto). subst pa pb.
    destruct Hord as [Hlt|[_ Hp]]; [lia|].
    exact (precedes_antisym _ _ _ Hlog Hprec Hp).
  - exact (precedes_neq _ _ _ Hlog Hprec Heq).
Qed.

Lemma cleanupExpiredSessions_queue_incl SessionTimeoutMs now st y :
  In y (queueOrder (cleanupExpiredSessions SessionTimeoutMs now st)) ->
  In y (queueOrder st).
Proof.
  unfold cleanupExpiredSessions.
  generalize (JsMap.entries (clientSessions st)). intro l. revert st.
  induction l as [|e l IH]; intros st Hin; simpl in *; [assumption|].
  apply IH in Hin. destruct (isExpired _ _ _); [|assumption].
  destruct (removeSession_queue (fst e) st)
    as [[_ Heq]|(_ & _ & _ & _ & [[_ Heq]|(u & v & Hq & _ & Heq)])];
    rewrite Heq in Hin; try assumption.
  rewrite Hq. apply in_app_or in Hin. apply in_or_app. simpl. tauto.
Qed.

Lemma exec_queue_incl st op y :
  In y (queueOrder (exec st op)) ->
  In y (queueOrder st) \/ In y (map fst (enqueued_by op)).
Proof.
  destruct op; cbn [exec enqueued_by map fst In]; intro Hin.
  - left. now rewrite (proj2 (registerServer_rest serverId now message st)) in Hin.
  - left. now rewrite (proj2 (updateServerStatus_rest serverId now message st)) in Hin.
  - left. now rewrite (proj2 (unregisterServer_rest serverId st)) in Hin.
  - left. destruct (getAvailableServer_rest now st) as (_ & Hq & _).
    now rewrite Hq in Hin.
  - destruct (addToQueue_queue sessionId now clientId priority st)
      as (u & v & Hq & Hq' & _).
    rewrite Hq' in Hin. rewrite Hq.
    apply in_app_or in Hin as [Hin|[Hin|Hin]]; auto; left; apply in_or_app; auto.
  - left. destruct (processNextInQueue_queue now st)
      as [(_ & _ & Hq)|(sid & rest & Hq & Hq' & _)].
    + now rewrite Hq in Hin.
    + rewrite Hq' in Hin. rewrite Hq. now right.
  - left. destruct (removeSession_queue sessionId st)
      as [[_ Heq]|(_ & _ & _ & _ & [[_ Heq]|(u & v & Hq & _ & Heq)])];
      rewrite Heq in Hin; try assumption.
    rewrite Hq. apply in_app_or in Hin. apply in_or_app. simpl. tauto.
  - left. eapply cleanupExpiredSessions_queue_incl; eauto.
  - left. now rewrite (proj2 (cleanupStaleServers_rest now st)) in Hin.
Qed.

Lemma removeSession_stored_back k x st :
  stored x (removeSession k st) -> stored x st.
Proof.
  unfold stored.
  destruct (removeSession_queue k st) as [[_ ->]|(s & _ & -> & _)]; [auto|].
  intro H. destruct (String.eqb x k) eqn:E.
  - apply String.eqb_eq in E. subst x. now rewrite get_delete_same in H.
  - apply String.eqb_neq in E. now rewrite get_delete_other in H.
Qed.

Lemma removeSession_keeps_queued k x st :
  In x (queueOrder st) -> stored x (removeSession k st) ->
  In x (queueOrder (removeSession k st)).
Proof.
  unfold stored. intros Hin Hst.
  destruct (removeSession_queue k st) as [[_ Heq]|(s & _ & Hs & _ & Hq)].
  - now rewrite Heq.
  - assert (Hne : x <> k).
    { intros ->. rewrite Hs, get_delete_same in Hst. now apply Hst. }
    destruct Hq as [[_ ->]|(u & v & Hq & _ & ->)]; [assumption|].
    rewrite Hq in Hin. apply in_app_or in Hin as [Hin|[Heq|Hin]];
      [apply in_or_app; now left | congruence | apply in_or_app; now right].
Qed.

Lemma sweep_stored_back SessionTimeoutMs now l st x :
  stored x
    (fold_left
       (fun acc entry =>
          if isExpired now (ClientSession.lastActivity (snd entry)) SessionTimeoutMs
          then removeSession (fst entry) acc else acc) l st) ->
  stored x st.
Proof.
  revert st. induction l as [|e l IH]; intros st Hst; simpl in *; [assumption|].
  apply IH in Hst. destruct (isExpired _ _ _); [|assumption].
  now apply removeSession_stored_back in Hst.
Qed.

Lemma cleanupExpiredSessions_stored_back SessionTimeoutMs now st x :
  stored x (cleanupExpiredSessions SessionTimeoutMs now st) -> stored x st.
Proof. apply sweep_stored_back. Qed.

Lemma cleanupExpiredSessions_keeps_queued SessionTimeoutMs now st x :
  In x (queueOrder st) ->
  stored x (cleanupExpiredSessions SessionTimeoutMs now st) ->
  In x (queueOrder (cleanupExpiredSessions SessionTimeoutMs now st)).
Proof.
  unfold cleanupExpiredSessions.
  generalize (JsMap.entries (clientSessions st)). intro l. revert st.
  induction l as [|e l IH]; intros st Hin Hst; simpl in *; [assumption|].
  destruct (isExpired now (ClientSession.lastActivity (snd e)) SessionTimeoutMs)
    eqn:Ex; [|now apply IH].
  apply IH; [|assumption].
  apply removeSession_keeps_queued; [assumption|].
  now apply sweep_stored_back in Hst.
Qed.

Lemma exec_stored_back st op x :
  stored x (exec st op) -> stored x st \/ In x (map fst (enqueued_by op)).
Proof.
  unfold stored. destruct op; cbn [exec enqueued_by map fst In]; intro Hst.
  - left. now rewrite (proj1 (registerServer_rest serverId now message st)) in Hst.
  - left. now rewrite (proj1 (updateServerStatus_rest serverId now message st))
      in Hst.
  - left. now rewrite (proj1 (unregisterServer_rest serverId st)) in Hst.
  - left. destruct (getAvailableServer_rest now st) as (Hs & _ & _).
    now rewrite Hs in Hst.
  - destruct (String.eqb sessionId x) eqn:E.
    + apply String.eqb_eq in E. right. now left.
    + apply String.eqb_neq in E. left.
      rewrite (proj1 (addToQueue_sessions sessionId now clientId priority st))
        in Hst.
      rewrite get_set_other in Hst; [assumption | congruence].
  - left. destruct (processNextInQueue_queue now st)
      as [(_ & Hs & _)|(sid & rest & _ & _
                        & [(_ & _ & Hs)|(session & server & _ & _ & Hg & Hs & _)])];
      rewrite Hs in Hst; try assumption.
    destruct (String.eqb sid x) eqn:E.
    + apply String.eqb_eq in E. subst x. congruence.
    + apply String.eqb_neq in E.
      rewrite get_set_other in Hst; [assumption | congruence].
  - left. now apply removeSession_stored_back in Hst.
  - left. now apply cleanupExpiredSessions_stored_back in Hst.
  - left. now rewrite (proj1 (cleanupStaleServers_rest now st)) in Hst.
Qed.

Lemma exec_queue_keeps st op s1 s2 :
  stored s2 (exec st op) ->
  precedes s1 s2 (queueOrder st) ->
  In s2 (queueOrder (exec st op)).
Proof.
  intros Hst Hprec. pose proof (precedes_In _ _ _ Hprec) as [_ Hin].
  destruct op; cbn [exec] in *.
  - now rewrite (proj2 (registerServer_rest serverId now message st)).
  - now rewrite (proj2 (updateServerStatus_rest serverId now message st)).
  - now rewrite (proj2 (unregisterServer_rest serverId st)).
  - destruct (getAvailableServer_rest now st) as (_ & -> & _). assumption.
  - destruct (addToQueue_queue sessionId now clientId priority st)
      as (u & v & Hq & -> & _).
    rewrite Hq in Hin. apply in_app_or in Hin. apply in_or_app. simpl. tauto.
  - destruct (processNextInQueue_queue now st)
      as [(_ & _ & ->)|(sid & rest & Hq & -> & _)]; [assumption|].
    rewrite Hq in Hprec. apply precedes_cons in Hprec as [[_ H]|H]; [assumption|].
    now apply precedes_In in H.
  - now apply removeSession_keeps_queued.
  - now apply cleanupExpiredSessions_keeps_queued.
  - now rewrite (proj2 (cleanupStaleServers_rest now st)).
Qed.

Lemma NoDup_app_disjoint {A : Type} (l l' : list A) (x : A) :
  NoDup (l ++ l') -> In x l -> In x l' -> False.
Proof.
  induction l as [|a l IH]; simpl; intros Hnd Hin Hin'; [contradiction|].
  inversion Hnd as [|? ? Ha Hl]; subst. destruct Hin as [->|Hin].
  - apply Ha. apply in_or_app. now right.
  - now apply IH.
Qed.

Lemma enqueued_app ops ops' : enqueued (ops ++ ops') = enqueued ops ++ enqueued ops'.
Proof. apply flat_map_app. Qed.

Lemma not_overtaken pre s1 p1 s2 p2 :
  In (s1, p1) (enqueued pre) -> In (s2, p2) (enqueued pre) -> p2 <= p1 ->
  precedes s1 s2 (map fst (enqueued pre)) ->
  In s2 (queueOrder (run pre new_MatchmakerService)) ->
  forall ops3,
    NoDup (map fst (enqueued (pre ++ ops3))) ->
    stored s2 (run (pre ++ ops3) new_MatchmakerService) ->
    In s1 (queueOrder (run (pre ++ ops3) new_MatchmakerService)) ->
    In s2 (queueOrder (run (pre ++ ops3) new_MatchmakerService)).
Proof.
  intros H1 H2 Hle Hprec Hbase ops3.
  induction ops3 as [|op ops3 IH] using rev_ind; intros Hnd Hst Hin1.
  - now rewrite app_nil_r in *.
  - rewrite app_assoc in *. rewrite run_snoc in *.
    rewrite enqueued_snoc, map_app in Hnd.
    assert (Hnd0 : NoDup (map fst (enqueued (pre ++ ops3))))
      by (now apply NoDup_app_remove_r in Hnd).
    set (st := run (pre ++ ops3) new_MatchmakerService) in *.
    assert (Hlog1 : In (s1, p1) (enqueued (pre ++ ops3)))
      by (rewrite enqueued_app; apply in_or_app; now left).
    assert (Hlog2 : In (s2, p2) (enqueued (pre ++ ops3)))
      by (rewrite enqueued_app; apply in_or_app; now left).
    assert (Hs1 : In s1 (queueOrder st)).
    { apply exec_queue_incl in Hin1 as [Hin1|Hin1]; [assumption|].
      exfalso. apply (NoDup_app_disjoint _ _ s1 Hnd); [|assumption].
      change s1 with (fst (s1, p1)). now apply in_map. }
    assert (Hst0 : stored s2 st).
    { apply exec_stored_back in Hst as [Hst|Hst]; [assumption|].
      exfalso. apply (NoDup_app_disjoint _ _ s2 Hnd); [|assumption].
      change s2 with (fst (s2, p2)). now apply in_map. }
    apply exec_queue_keeps with (s1 := s1); [assumption|].
    apply (ordered_in_queue (enqueued (pre ++ ops3)) st s1 p1 s2 p2); auto.
    + apply run_inv. assumption.
    + rewrite enqueued_app, map_app. now apply precedes_app_r.
Qed.

(** C6 (as amended).  Let [s1] be enqueued before [s2] with
    [priority s1 >= priority s2], identifiers being pairwise distinct.
    Then, in every execution: whenever both are queued, [s1] stands
    before [s2] in [queueOrder] (so no drain takes [s2] while [s1]
    waits); the queue is sorted by priority, highest first; and as long
    as [s2] has not been taken out by [removeSession] (called directly
    or by the expiry sweep), that is, as long as its session is still
    stored, [s1] leaves the queue no later than [s2]: if [s1] is still
    queued, so is [s2].  Sweeps and removals that leave [s2] stored are
    covered, whatever else they remove. *)
Theorem queue_priority_fifo :
  forall (ops1 ops2 ops3 : list Op) (s1 s2 : string) (t1 t2 : Z)
         (c1 c2 : option string) (p1 p2 : Z),
    let ops := ops1 ++ AddToQueue s1 t1 c1 p1
                    :: ops2 ++ AddToQueue s2 t2 c2 p2 :: ops3 in
    fresh_ids ops ->
    p2 <= p1 ->
    let st := run ops new_MatchmakerService in
    (In s1 (queueOrder st) -> In s2 (queueOrder st) ->
     precedes s1 s2 (queueOrder st))
    /\ priority_sorted st
    /\ (stored s2 st -> In s1 (queueOrder st) -> In s2 (queueOrder st)).
Proof.
  intros ops1 ops2 ops3 s1 s2 t1 t2 c1 c2 p1 p2 ops Hfresh Hle st.
  pose proof (fresh_ids_enqueued ops Hfresh) as Hlog.
  pose proof (run_inv ops Hlog) as Hinv. fold st in Hinv.
  set (pre := ops1 ++ AddToQueue s1 t1 c1 p1 :: ops2 ++ [AddToQueue s2 t2 c2 p2]).
  assert (Hops : ops = pre ++ ops3).
  { unfold ops, pre. rewrite <- app_assoc. simpl. rewrite <- app_assoc. reflexivity. }
  assert (Hpre : enqueued pre
                 = enqueued ops1 ++ (s1, p1) :: enqueued ops2 ++ [(s2, p2)]).
  { unfold pre. rewrite enqueued_app. simpl. unfold enqueued at 2. simpl.
    fold (enqueued (ops2 ++ [AddToQueue s2 t2 c2 p2])).
    now rewrite enqueued_snoc. }
  assert (H1 : In (s1, p1) (enqueued pre)).
  { rewrite Hpre. apply in_or_app. right. now left. }
  assert (H2 : In (s2, p2) (enqueued pre)).
  { rewrite Hpre. apply in_or_app. right. right. apply in_or_app. right. now left. }
  assert (Hprec : precedes s1 s2 (map fst (enqueued pre))).
  { rewrite Hpre, map_app. simpl. rewrite map_app. simpl.
    exists (map fst (enqueued ops1)), (map fst (enqueued ops2) ++ [s2]).
    split; [reflexivity|]. apply in_or_app. right. now left. }
  assert (H1' : In (s1, p1) (enqueued ops))
    by (rewrite Hops, enqueued_app; apply in_or_app; now left).
  assert (H2' : In (s2, p2) (enqueued ops))
    by (rewrite Hops, enqueued_app; apply in_or_app; now left).
  assert (Hprec' : precedes s1 s2 (map fst (enqueued ops)))
    by (rewrite Hops, enqueued_app, map_app; now apply precedes_app_r).
  split; [|split].
  - intros Hin1 Hin2.
    exact (ordered_in_queue _ _ _ _ _ _ Hinv Hlog H1' H2' Hle Hprec' Hin1 Hin2).
  - destruct Hinv as (_ & _ & Hq & Hp & Hs). unfold priority_sorted.
    eapply SS_impl; [|exact Hs]. intros a b Ha Hb (pa & pb & Hpa & Hpb & Hord).
    destruct (Hq _ Ha) as (sa & Hga & _). destruct (Hq _ Hb) as (sb & Hgb & _).
    exists sa, sb. repeat split; auto.
    assert (ClientSession.priority sa = pa)
      by (eapply log_functional; eauto).
    assert (ClientSession.priority sb = pb)
      by (eapply log_functional; eauto).
    lia.
  - intros Hkeep Hin1. unfold st in *. rewrite Hops in *.
    apply (not_overtaken pre s1 p1 s2 p2); auto.
    unfold pre. rewrite app_comm_cons, app_assoc, run_snoc. cbn [exec].
    destruct (addToQueue_queue s2 t2 c2 p2
                (run (ops1 ++ AddToQueue s1 t1 c1 p1 :: ops2) new_MatchmakerService))
      as (u & v & _ & -> & _).
    apply in_or_app. right. now left.
Qed.

(** ** Draining the queue *)

Lemma isServerAvailable_later now now' s :
  now <= now' -> isServerAvailable now s = true -> isServerAvailable now' s = true.
Proof.
  intros Hle H. apply isServerAvailable_true in H as (Hr & Hn & Hc).
  apply isServerAvailable_true. repeat split; auto.
  destruct Hc as [Hc|Hc]; [now left | right; lia].
Qed.

Lemma available_later now now' (l : list CirrusServer.t) :
  now <= now' ->
  (length (filter (isServerAvailable now) l)
   <= length (filter (isServerAvailable now') l))%nat.
Proof.
  intro Hle. induction l as [|s l IH]; simpl; [lia|].
  destruct (isServerAvailable now s) eqn:E.
  - rewrite (isServerAvailable_later _ _ _ Hle E). simpl. lia.
  - destruct (isServerAvailable now' s); simpl; lia.
Qed.

Lemma acquire_available now now' m :
  now <= now' ->
  (length (filter (isServerAvailable now) (JsMap.values m))
   <= S (length (filter (isServerAvailable now')
                        (JsMap.values (snd (acquire now m))))))%nat.
Proof.
  intro Hle.
  destruct (acquire_spec now m)
    as [(_ & -> & _)|(l1 & k & s & l2 & -> & _ & Hav & _ & ->)].
  - pose proof (available_later now now' (JsMap.values m) Hle). lia.
  - unfold JsMap.values. rewrite !map_app, !filter_app, !length_app. simpl.
    rewrite Hav. simpl.
    pose proof (available_later now now' (map snd l1) Hle).
    pose proof (available_later now now' (map snd l2) Hle).
    destruct (isServerAvailable now' (CirrusServer.set_lastRedirect (Some now) s));
      simpl; lia.
Qed.

Lemma acquire_some now m :
  (0 < length (filter (isServerAvailable now) (JsMap.values m)))%nat ->
  fst (acquire now m) <> None.
Proof.
  intros Hpos Hnone.
  destruct (acquire_spec now m)
    as [(_ & _ & Hall)|(l1 & k & s & l2 & _ & _ & _ & Hsome & _)]; [|congruence].
  assert (Hnil : filter (isServerAvailable now) (JsMap.values m) = []).
  { clear - Hall. induction m as [|[k s] m IH]; simpl; [reflexivity|].
    inversion Hall as [|? ? Hs Hr]; subst. simpl in Hs. rewrite Hs. auto. }
  rewrite Hnil in Hpos. simpl in Hpos. lia.
Qed.

Lemma processNextInQueue_at_none now now' st :
  fst (getAvailableServer now st) = None ->
  processNextInQueue_at now now' st = (false, st).
Proof.
  intro Hnone. unfold processNextInQueue_at.
  destruct (queueOrder st) as [|sid rest]; [reflexivity|].
  unfold getAvailableServer in *.
  destruct (acquire_spec now (cirrusServers st))
    as [(_ & Hs & _)|(l1 & k & s & l2 & _ & _ & _ & Hsome & _)].
  - destruct (acquire now (cirrusServers st)) as [found m]. simpl in *.
    subst. destruct st. reflexivity.
  - destruct (acquire now (cirrusServers st)) as [found m]. simpl in *. congruence.
Qed.

Lemma processNextInQueue_none now st :
  fst (getAvailableServer now st) = None -> processNextInQueue now st = (false, st).
Proof. apply processNextInQueue_at_none. Qed.

Lemma processNextInQueue_at_assign now now' st sid rest server st1 session :
  queueOrder st = sid :: rest ->
  getAvailableServer now st = (Some server, st1) ->
  JsMap.get sid (clientSessions st) = Some session ->
  processNextInQueue_at now now' st
  = (true,
     mkService
       (cirrusServers st1)
       (JsMap.set sid (ClientSession.assign (CirrusServer.id server) now' session)
                  (clientSessions st))
       rest
       (emitted st
        ++ [clientAssigned
              (ClientSession.assign (CirrusServer.id server) now' session)
              server])).
Proof.
  intros Hq Hget Hs. unfold processNextInQueue_at. rewrite Hq.
  destruct (getAvailableServer_rest now st) as (Hs1 & _ & He1).
  rewrite Hget in *. simpl in *. rewrite Hs1, Hs.
  unfold emit. simpl. rewrite He1. reflexivity.
Qed.

Lemma processNextInQueue_assign now st sid rest server st1 session :
  queueOrder st = sid :: rest ->
  getAvailableServer now st = (Some server, st1) ->
  JsMap.get sid (clientSessions st) = Some session ->
  processNextInQueue now st
  = (true,
     mkService
       (cirrusServers st1)
       (JsMap.set sid (ClientSession.assign (CirrusServer.id server) now session)
                  (clientSessions st))
       rest
       (emitted st
        ++ [clientAssigned
              (ClientSession.assign (CirrusServer.id server) now session) server])).
Proof. apply processNextInQueue_at_assign. Qed.

Lemma processQueue_drains :
  forall (q : list string) (st : MatchmakerService) (clock : nat -> Z),
    queueOrder st = q ->
    (forall i, clock i <= clock (S i)) ->
    (forall sid, In sid q -> JsMap.get sid (clientSessions st) <> None) ->
    (length q <= length (filter (isServerAvailable (clock O))
                                (JsMap.values (cirrusServers st))))%nat ->
    exists st',
      processQueue (S (length q)) clock st = Some st' /\ queueOrder st' = [].
Proof.
  induction q as [|sid rest IH]; intros st clock Hq Hmono Hpresent Hcount.
  - exists st. simpl. unfold processNextInQueue, processNextInQueue_at. rewrite Hq. auto.
  - destruct (getAvailableServer (clock O) st) as [[server|] st1] eqn:Hget.
    2:{ exfalso. pose proof (getAvailableServer_found (clock O) st) as Hf.
        rewrite Hget in Hf. simpl in Hf. symmetry in Hf. revert Hf.
        apply acquire_some. simpl in Hcount. lia. }
    destruct (JsMap.get sid (clientSessions st)) as [session|] eqn:Hs.
    2:{ exfalso. apply (Hpresent sid); [now left | assumption]. }
    pose proof (processNextInQueue_assign _ _ _ _ _ _ _ Hq Hget Hs) as Hstep.
    change (processQueue (S (length (sid :: rest))) clock st)
      with (let (processed, st') := processNextInQueue (clock O) st in
            if processed
            then processQueue (S (length rest)) (fun i => clock (S i)) st'
            else Some st').
    rewrite Hstep. apply IH.
    + reflexivity.
    + intro i. apply Hmono.
    + intros x Hx. cbn [clientSessions].
      destruct (String.eqb x sid) eqn:E.
      * apply String.eqb_eq in E. subst x. rewrite get_set_same. discriminate.
      * apply String.eqb_neq in E. rewrite get_set_other by assumption.
        apply Hpresent. now right.
    + cbn [cirrusServers].
      pose proof (getAvailableServer_servers (clock O) st) as Hsrv.
      rewrite Hget in Hsrv. simpl in Hsrv. rewrite Hsrv.
      pose proof (acquire_available (clock O) (clock 1%nat) (cirrusServers st)
                    (Hmono O)).
      simpl in Hcount. lia.
Qed.

(** C1 (as amended).  One call of [processNextInQueue] makes at most one
    assignment and does not loop, from every state.  On an empty queue,
    or when no server is available, it returns [false] and changes
    nothing.  Otherwise it acquires a server and pops the head of the
    queue; the session of that identifier gets [status = connected],
    [serverId] = the acquired server's id and [lastActivity] = the clock
    reading taken after the acquisition, its other fields and the other
    sessions stay as they were, [clientAssigned] is emitted with the
    updated session and the server, the call returns [true] and the rest
    of the queue stays in place, however many servers are available.
    (Were the popped identifier without session, the call would return
    [false], the server acquired and the identifier popped.)  The loop
    is in the caller ([processQueue] of [index.ts], which repeats the
    call until it returns [false]): with k queued sessions and at least
    k available servers that loop ends after k + 1 calls with the queue
    empty. *)
Theorem processNextInQueue_one_assignment :
  forall (st : MatchmakerService) (now now' : Z),
    let result := processNextInQueue_at now now' st in
    (queueOrder st = [] \/ fst (getAvailableServer now st) = None ->
     result = (false, st))
    /\ (forall sid rest server session,
          queueOrder st = sid :: rest ->
          fst (getAvailableServer now st) = Some server ->
          JsMap.get sid (clientSessions st) = Some session ->
          exists session',
            fst result = true
            /\ queueOrder (snd result) = rest
            /\ JsMap.get sid (clientSessions (snd result)) = Some session'
            /\ (ClientSession.status session' = connected
                /\ ClientSession.serverId session' = Some (CirrusServer.id server)
                /\ ClientSession.lastActivity session' = now')
            /\ (ClientSession.id session' = ClientSession.id session
                /\ ClientSession.clientId session' = ClientSession.clientId session
                /\ ClientSession.createdAt session' = ClientSession.createdAt session
                /\ ClientSession.priority session' = ClientSession.priority session
                /\ ClientSession.metadata session' = ClientSession.metadata session)
            /\ (forall k, k <> sid ->
                  JsMap.get k (clientSessions (snd result))
                  = JsMap.get k (clientSessions st))
            /\ emitted (snd result)
               = emitted st ++ [clientAssigned session' server]
            /\ cirrusServers (snd result)
               = cirrusServers (snd (getAvailableServer now st)))
    /\ (forall sid rest server,
          queueOrder st = sid :: rest ->
          fst (getAvailableServer now st) = Some server ->
          JsMap.get sid (clientSessions st) = None ->
          result = (false, set_queueOrder rest (snd (getAvailableServer now st))))
    /\ processNextInQueue now st = processNextInQueue_at now now st
    /\ (forall clock : nat -> Z,
          (forall i, clock i <= clock (S i)) ->
          (forall sid, In sid (queueOrder st) ->
                       JsMap.get sid (clientSessions st) <> None) ->
          queueLength (getStats (clock O) st)
          <= availableServers (getStats (clock O) st) ->
          exists st',
            processQueue (S (length (queueOrder st))) clock st = Some st'
            /\ queueOrder st' = []).
Proof.
  intros st now now' result. subst result.
  split; [|split; [|split; [|split]]].
  - intros [Hq|Hnone].
    + unfold processNextInQueue_at. now rewrite Hq.
    + now apply processNextInQueue_at_none.
  - intros sid rest server session Hq Hfound Hs.
    destruct (getAvailableServer now st) as [found st1] eqn:Hget.
    cbn [fst snd] in *. subst found.
    rewrite (processNextInQueue_at_assign _ now' _ _ _ _ _ _ Hq Hget Hs).
    cbn [fst snd queueOrder clientSessions emitted cirrusServers].
    exists (ClientSession.assign (CirrusServer.id server) now' session).
    split; [reflexivity|]. split; [reflexivity|].
    split; [apply get_set_same|].
    split; [repeat split|]. split; [repeat split|].
    split; [intros k Hk; now apply get_set_other|].
    split; reflexivity.
  - intros sid rest server Hq Hfound Hs.
    destruct (getAvailableServer_rest now st) as (Hs1 & _ & _).
    unfold processNextInQueue_at. rewrite Hq.
    destruct (getAvailableServer now st) as [found st1] eqn:Hget.
    cbn [fst snd] in *. subst found.
    cbn [set_queueOrder clientSessions]. now rewrite Hs1, Hs.
  - reflexivity.
  - intros clock Hmono Hpresent Hcount.
    apply processQueue_drains; auto.
    simpl in Hcount. lia.
Qed.

(** ** The properties on sample executions *)

Ltac distinct_strings :=
  repeat (constructor; [simpl; intuition discriminate|]); constructor.

(** Two sessions wait.  Without any server the call returns [false] and
    changes nothing.  With two available servers, the call that
    acquires at 2000 and reads the clock again at 2001 connects ["s1"]
    to ["n1"] and leaves ["s2"] queued, and the loop of [processQueue]
    empties the queue in three calls. *)
Lemma processNextInQueue_one_assignment_witness :
  let server := CirrusServer.set_lastRedirect (Some 2000) node1 in
  let session := new_session "s1"%string 10 (Some "c1"%string) 0 in
  let result := processNextInQueue_at 2000 2001 two_and_two in
  (queueOrder waiting = [] \/ fst (getAvailableServer 2000 waiting) = None)
  /\ processNextInQueue_at 2000 2001 waiting = (false, waiting)
  /\ queueOrder two_and_two = ["s1"%string; "s2"%string]
  /\ fst (getAvailableServer 2000 two_and_two) = Some server
  /\ JsMap.get "s1"%string (clientSessions two_and_two) = Some session
  /\ (exists session',
        fst result = true
        /\ queueOrder (snd result) = ["s2"%string]
        /\ JsMap.get "s1"%string (clientSessions (snd result)) = Some session'
        /\ (ClientSession.status session' = connected
            /\ ClientSession.serverId session' = Some (CirrusServer.id server)
            /\ ClientSession.lastActivity session' = 2001)
        /\ (ClientSession.id session' = ClientSession.id session
            /\ ClientSession.clientId session' = ClientSession.clientId session
            /\ ClientSession.createdAt session' = ClientSession.createdAt session
            /\ ClientSession.priority session' = ClientSession.priority session
            /\ ClientSession.metadata session' = ClientSession.metadata session)
        /\ (forall k, k <> "s1"%string ->
              JsMap.get k (clientSessions (snd result))
              = JsMap.get k (clientSessions two_and_two))
        /\ emitted (snd result)
           = emitted two_and_two ++ [clientAssigned session' server]
        /\ cirrusServers (snd result)
           = cirrusServers (snd (getAvailableServer 2000 two_and_two)))
  /\ (forall i, ticking 2000 i <= ticking 2000 (S i))
  /\ (forall sid, In sid (queueOrder two_and_two) ->
                  JsMap.get sid (clientSessions two_and_two) <> None)
  /\ queueLength (getStats (ticking 2000 O) two_and_two)
     <= availableServers (getStats (ticking 2000 O) two_and_two)
  /\ exists st',
       processQueue (S (length (queueOrder two_and_two))) (ticking 2000) two_and_two
       = Some st'
       /\ queueOrder st' = [].
Proof.
  intros server session result.
  assert (H0 : queueOrder waiting = []
               \/ fst (getAvailableServer 2000 waiting) = None)
    by (right; reflexivity).
  assert (Hq : queueOrder two_and_two = ["s1"%string; "s2"%string])
    by reflexivity.
  assert (Hf : fst (getAvailableServer 2000 two_and_two) = Some server)
    by reflexivity.
  assert (Hs : JsMap.get "s1"%string (clientSessions two_and_two) = Some session)
    by reflexivity.
  assert (H1 : forall i, ticking 2000 i <= ticking 2000 (S i))
    by (intro i; unfold ticking; lia).
  assert (H2 : forall sid, In sid (queueOrder two_and_two) ->
                           JsMap.get sid (clientSessions two_and_two) <> None)
    by (intros sid [<-|[<-|[]]]; discriminate).
  assert (H3 : queueLength (getStats (ticking 2000 O) two_and_two)
               <= availableServers (getStats (ticking 2000 O) two_and_two))
    by (vm_compute; discriminate).
  pose proof (processNextInQueue_one_assignment waiting 2000 2001)
    as (Hidle & _).
  pose proof (processNextInQueue_one_assignment two_and_two 2000 2001)
    as (_ & Hassign & _ & _ & Hloop).
  exact (conj H0 (conj (Hidle H0) (conj Hq (conj Hf (conj Hs
           (conj (Hassign "s1"%string ["s2"%string] server session Hq Hf Hs)
                 (conj H1 (conj H2 (conj H3
                    (Hloop (ticking 2000) H1 H2 H3)))))))))).
Defined.

(** With two queued sessions and two available servers, one call of
    [processNextInQueue] assigns one session and leaves the other in the
    queue. *)
Lemma processNextInQueue_single_call_counterexample :
  queueLength (getStats 2000 two_and_two) = 2
  /\ availableServers (getStats 2000 two_and_two) = 2
  /\ fst (processNextInQueue 2000 two_and_two) = true
  /\ queueOrder (snd (processNextInQueue 2000 two_and_two)) = ["s2"%string]
  /\ queueOrder (snd (processNextInQueue 2000 two_and_two)) <> [].
Proof. repeat split; try reflexivity. discriminate. Qed.

(** Two servers: ["n1"] is acquired at 2000; after a ping and a
    [streamerConnected] from it, the call at 9000 returns ["n2"]. *)
Lemma getAvailableServer_cooldown_witness :
  let st0 := run two_nodes new_MatchmakerService in
  let server := CirrusServer.set_lastRedirect (Some 2000) node1 in
  let st1 := snd (getAvailableServer 2000 st0) in
  let ops := [UpdateServerStatus "n1"%string 3000 (MatchmakerMessage.bare ping);
              UpdateServerStatus "n1"%string 4000
                                 (MatchmakerMessage.bare streamerConnected)] in
  let server' := CirrusServer.set_lastRedirect (Some 9000) node2 in
  getAvailableServer 2000 st0 = (Some server, st1)
  /\ 0 < 2000
  /\ Forall (keeps_cooldown (CirrusServer.id server)) ops
  /\ 9000 - 2000 < 10000
  /\ fst (getAvailableServer 9000 (run ops st1)) = Some server'
  /\ CirrusServer.id server' <> CirrusServer.id server.
Proof.
  intros st0 server st1 ops server'.
  assert (H1 : getAvailableServer 2000 st0 = (Some server, st1)) by reflexivity.
  assert (H2 : 0 < 2000) by lia.
  assert (H3 : Forall (keeps_cooldown (CirrusServer.id server)) ops)
    by (repeat constructor; simpl; intros; discriminate).
  assert (H4 : 9000 - 2000 < 10000) by lia.
  assert (H5 : fst (getAvailableServer 9000 (run ops st1)) = Some server')
    by reflexivity.
  exact (conj H1 (conj H2 (conj H3 (conj H4 (conj H5
           (getAvailableServer_cooldown two_nodes 2000 server st1 ops 9000
              server' H1 H2 H3 H4 H5)))))).
Defined.

(** A second registration from 10.0.0.1:8080 replaces the first. *)
Lemma registerServer_replaces_witness :
  let message := connect_from "10.0.0.1"%string true in
  let st := run one_node new_MatchmakerService in
  let st' := snd (registerServer "n9"%string 5000 message st) in
  In ("n1"%string, node1) (cirrusServers st)
  /\ CirrusServer.address node1 = MatchmakerMessage.address message
  /\ CirrusServer.port node1 = MatchmakerMessage.port message
  /\ emitted st' = emitted st ++ [serverRegistered (new_server "n9"%string 5000 message)]
  /\ JsMap.get "n1"%string (cirrusServers st') = None.
Proof.
  intros message st st'.
  assert (H1 : In ("n1"%string, node1) (cirrusServers st)) by (left; reflexivity).
  assert (H2 : CirrusServer.address node1 = MatchmakerMessage.address message)
    by reflexivity.
  assert (H3 : CirrusServer.port node1 = MatchmakerMessage.port message)
    by reflexivity.
  pose proof (registerServer_replaces one_node "n9"%string 5000 message
                "n1"%string node1 H1 H2 H3) as (_ & He & _ & _ & Hgone & _).
  assert (Hne : "n9"%string <> "n1"%string) by discriminate.
  exact (conj H1 (conj H2 (conj H3 (conj He (Hgone Hne))))).
Defined.

(** Re-registering 10.0.0.1:8080 emits [serverRegistered] for the new
    server and nothing for the one it replaces. *)
Lemma registerServer_eviction_counterexample :
  let message := connect_from "10.0.0.1"%string false in
  let st := run one_node new_MatchmakerService in
  let st' := snd (registerServer "n9"%string 5000 message st) in
  JsMap.get "n1"%string (cirrusServers st) = Some node1
  /\ JsMap.get "n1"%string (cirrusServers st') = None
  /\ emitted st = [serverRegistered node1]
  /\ emitted st'
     = [serverRegistered node1;
        serverRegistered (new_server "n9"%string 5000 message)]
  /\ ~ In (serverUnregistered node1) (emitted st').
Proof.
  repeat split; try reflexivity.
  intros [H|[H|[]]]; discriminate.
Qed.

(** One ready server, acquired at 2000. *)
Lemma getAvailableServer_eligible_witness :
  let st := run one_node new_MatchmakerService in
  let server := CirrusServer.set_lastRedirect (Some 2000) node1 in
  getAvailableServer 2000 st = (Some server, snd (getAvailableServer 2000 st))
  /\ 0 <= 2000
  /\ CirrusServer.ready server = true
  /\ CirrusServer.numConnectedClients server = 0.
Proof.
  intros st server.
  assert (H1 : getAvailableServer 2000 st
               = (Some server, snd (getAvailableServer 2000 st))) by reflexivity.
  assert (H2 : 0 <= 2000) by lia.
  pose proof (getAvailableServer_eligible one_node 2000 server _ H1 H2)
    as (Hr & Hn & _).
  exact (conj H1 (conj H2 (conj Hr Hn))).
Defined.

(** At the boundary, 120 000 ms after the last ping, the server is
    kept. *)
Lemma cleanupStaleServers_boundary_witness :
  let st := run one_node new_MatchmakerService in
  In ("n1"%string, node1) (cirrusServers st)
  /\ 121000 - CirrusServer.lastPingReceived node1 = 120000
  /\ JsMap.get "n1"%string (cirrusServers (cleanupStaleServers 121000 st))
     = Some node1.
Proof.
  intro st.
  assert (H1 : In ("n1"%string, node1) (cirrusServers st)) by (left; reflexivity).
  destruct (cleanupStaleServers_boundary one_node "n1"%string node1 121000 H1)
    as (events & _ & Hkeep & _).
  assert (H2 : 121000 - CirrusServer.lastPingReceived node1 = 120000)
    by reflexivity.
  assert (H3 : 121000 - CirrusServer.lastPingReceived node1 <= 120000)
    by (rewrite H2; lia).
  exact (conj H1 (conj H2 (proj1 (Hkeep H3)))).
Defined.

(** A sweep running exactly 120 000 ms after the last ping keeps the
    server and emits nothing; one millisecond later it removes it. *)
Lemma cleanupStaleServers_exact_counterexample :
  let st := run one_node new_MatchmakerService in
  JsMap.get "n1"%string (cirrusServers st) = Some node1
  /\ 121000 - CirrusServer.lastPingReceived node1 = 120000
  /\ JsMap.get "n1"%string (cirrusServers (cleanupStaleServers 121000 st))
     = Some node1
  /\ emitted (cleanupStaleServers 121000 st) = emitted st
  /\ JsMap.get "n1"%string (cirrusServers (cleanupStaleServers 121001 st)) = None.
Proof. repeat split; reflexivity. Qed.

(** Three sessions are queued and an expiry sweep removes the oldest,
    ["s0"]; ["s1"] and ["s2"], of equal priority, are still stored and
    still queued, ["s1"] first. *)
Lemma queue_priority_fifo_witness :
  let ops := [AddToQueue "s0"%string 1 None 9]
             ++ AddToQueue "s1"%string 100000 None 5
                :: [] ++ AddToQueue "s2"%string 100001 None 5
                :: [CleanupExpiredSessions 50000 120000] in
  let st := run ops new_MatchmakerService in
  fresh_ids ops
  /\ 5 <= 5
  /\ stored "s2"%string st
  /\ queueOrder st = ["s1"%string; "s2"%string]
  /\ In "s1"%string (queueOrder st)
  /\ In "s2"%string (queueOrder st)
  /\ precedes "s1"%string "s2"%string (queueOrder st)
  /\ priority_sorted st.
Proof.
  intros ops st.
  assert (H1 : fresh_ids ops) by (unfold fresh_ids; simpl; distinct_strings).
  assert (H2 : 5 <= 5) by lia.
  pose proof (queue_priority_fifo [AddToQueue "s0"%string 1 None 9] []
                [CleanupExpiredSessions 50000 120000]
                "s1"%string "s2"%string 100000 100001 None None 5 5 H1 H2)
    as (Hord & Hsorted & Hkeep).
  assert (Hst : stored "s2"%string st) by discriminate.
  assert (Hq : queueOrder st = ["s1"%string; "s2"%string]) by reflexivity.
  assert (Hin1 : In "s1"%string (queueOrder st)) by (left; reflexivity).
  exact (conj H1 (conj H2 (conj Hst (conj Hq (conj Hin1
           (conj (Hkeep Hst Hin1)
                 (conj (Hord Hin1 (Hkeep Hst Hin1)) Hsorted))))))).
Defined.

(** [s1] is enqueued first, with the same priority as [s2]; removing
    [s2] takes it out of the queue while [s1] is still waiting. *)
Lemma queue_removal_counterexample :
  let before := run two_queued new_MatchmakerService in
  let after := removeSession "s2"%string before in
  queueOrder before = ["s1"%string; "s2"%string]
  /\ queueOrder after = ["s1"%string]
  /\ In "s1"%string (queueOrder after)
  /\ ~ In "s2"%string (queueOrder after).
Proof.
  repeat split; try reflexivity.
  - left. reflexivity.
  - intros [H|[]]. discriminate.
Qed.

(** A [clientDisconnected] for a server that never had a client. *)
Lemma numConnectedClients_never_negative_witness :
  let st := run one_node new_MatchmakerService in
  let message := MatchmakerMessage.bare clientDisconnected in
  In ("n1"%string, node1) (cirrusServers st)
  /\ CirrusServer.numConnectedClients node1 = 0
  /\ exists server',
       JsMap.get "n1"%string
                 (cirrusServers (updateServerStatus "n1"%string 2000 message st))
       = Some server'
       /\ CirrusServer.numConnectedClients server' = 0.
Proof.
  intros st message.
  assert (H1 : In ("n1"%string, node1) (cirrusServers st)) by (left; reflexivity).
  destruct (numConnectedClients_never_negative one_node "n1"%string node1 H1)
    as (_ & Hupd).
  destruct (Hupd 2000 message eq_refl) as (server' & Hget & _ & _ & Hzero).
  assert (H2 : CirrusServer.numConnectedClients node1 = 0) by reflexivity.
  exact (conj H1 (conj H2 (ex_intro _ server' (conj Hget (Hzero H2))))).
Defined.

(** Enqueue and remove on a queue of two sessions. *)
Lemma addToQueue_removeSession_roundtrip_witness :
  let st := run two_queued new_MatchmakerService in
  let st1 := snd (addToQueue "s3"%string 30 None 7 st) in
  let st2 := removeSession "s3"%string st1 in
  ~ In "s3"%string (queueOrder st)
  /\ queueOrder st1 = ["s3"%string; "s1"%string; "s2"%string]
  /\ queueOrder st2 = queueOrder st
  /\ removeSession "s3"%string st2 = st2.
Proof.
  intros st st1 st2.
  assert (H1 : ~ In "s3"%string (queueOrder st))
    by (intros [H|[H|[]]]; discriminate).
  destruct (addToQueue_removeSession_roundtrip st "s3"%string 30 None 7)
    as (_ & Hq & _ & Hidem & _).
  assert (H2 : queueOrder st1 = ["s3"%string; "s1"%string; "s2"%string])
    by reflexivity.
  exact (conj H1 (conj H2 (conj (Hq H1) Hidem))).
Defined.

(** An execution with an assignment, a removal and a late arrival of
    higher priority. *)
Lemma queue_sessions_consistent_witness :
  let ops := two_queued ++ one_node
             ++ [ProcessNextInQueue 2000; RemoveSession "s1"%string;
                 AddToQueue "s3"%string 3000 None 1] in
  fresh_ids ops
  /\ queueOrder (run ops new_MatchmakerService) = ["s3"%string; "s2"%string]
  /\ NoDup (queueOrder (run ops new_MatchmakerService)).
Proof.
  intro ops.
  assert (H1 : fresh_ids ops) by (unfold fresh_ids; simpl; distinct_strings).
  assert (H2 : queueOrder (run ops new_MatchmakerService)
               = ["s3"%string; "s2"%string]) by reflexivity.
  exact (conj H1 (conj H2 (proj1 (queue_sessions_consistent ops H1)))).
Defined.

(** A [clientDisconnected] delivered to a registered server touches
    [lastRedirect] only. *)
Lemma updateServerStatus_frame_witness :
  let st := run one_node new_MatchmakerService in
  let message := MatchmakerMessage.bare clientDisconnected in
  JsMap.get "n1"%string (cirrusServers st) = Some node1
  /\ emitted (updateServerStatus "n1"%string 2000 message st)
     = emitted st
       ++ [serverUpdated (CirrusServer.set_lastRedirect (Some 0) node1)].
Proof.
  intros st message.
  assert (H1 : JsMap.get "n1"%string (cirrusServers st) = Some node1)
    by reflexivity.
  destruct (updateServerStatus_frame st "n1"%string 2000 message node1 H1)
    as (server' & Hget & _ & _ & He & _).
  assert (Hs : server' = CirrusServer.set_lastRedirect (Some 0) node1).
  { cbv zeta in Hget. vm_compute in Hget. injection Hget as <-. reflexivity. }
  rewrite Hs in He. exact (conj H1 He).
Defined.

(* ------------------------------------------------------------------ *)
(** ** Further properties of the matchmaker service *)

(** X1.  [unregisterServer] takes the server out of the registry and
    emits [serverUnregistered] for it exactly when it was registered; on
    an unknown identifier it changes nothing and emits nothing, so a
    second call is a no-op.  The other servers stay, and neither the
    sessions nor the queue are touched (a session assigned to the server
    keeps its [serverId]). *)
Theorem unregisterServer_removes :
  forall (st : MatchmakerService) (serverId : string),
    let st' := unregisterServer serverId st in
    JsMap.get serverId (cirrusServers st') = None
    /\ (forall k, k <> serverId ->
          JsMap.get k (cirrusServers st') = JsMap.get k (cirrusServers st))
    /\ match JsMap.get serverId (cirrusServers st) with
       | Some server => emitted st' = emitted st ++ [serverUnregistered server]
       | None => st' = st
       end
    /\ unregisterServer serverId st' = st'
    /\ clientSessions st' = clientSessions st
    /\ queueOrder st' = queueOrder st.
Proof.
  intros st serverId st'.
  assert (Hgone : JsMap.get serverId (cirrusServers st') = None).
  { unfold st', unregisterServer.
    destruct (JsMap.get serverId (cirrusServers st)) eqn:E; [|assumption].
    apply get_delete_same. }
  split; [assumption|]. split.
  { intros k Hk. unfold st', unregisterServer.
    destruct (JsMap.get serverId (cirrusServers st)); [|reflexivity].
    now apply get_delete_other. }
  split.
  { unfold st', unregisterServer.
    now destruct (JsMap.get serverId (cirrusServers st)). }
  split.
  { unfold unregisterServer at 1. now rewrite Hgone. }
  apply unregisterServer_rest.
Qed.

(** X2.  [getQueuePosition] answers [null] exactly for identifiers that
    are not queued.  Otherwise [position] is the 1-based index of the
    first occurrence of the identifier in [queueOrder], so it lies
    between 1 and [totalInQueue] (the queue length), and
    [estimatedWaitTime] is 300 000 ms per position. *)
Theorem getQueuePosition_spec :
  forall (st : MatchmakerService) (sessionId : string),
    match getQueuePosition sessionId st with
    | None => ~ In sessionId (queueOrder st)
    | Some qp =>
        1 <= position qp <= totalInQueue qp
        /\ totalInQueue qp = Z.of_nat (length (queueOrder st))
        /\ estimatedWaitTime qp = 300000 * position qp
        /\ nth_error (queueOrder st) (Z.to_nat (position qp - 1)) = Some sessionId
        /\ ~ In sessionId (firstn (Z.to_nat (position qp - 1)) (queueOrder st))
    end.
Proof.
  intros st sid. unfold getQueuePosition.
  destruct (indexOf sid (queueOrder st)) as [i|] eqn:Hi.
  - apply indexOf_Some in Hi as (u & v & Hq & Hl & Hu).
    cbn [position totalInQueue estimatedWaitTime].
    replace (Z.to_nat (Z.of_nat i + 1 - 1)) with i by lia.
    rewrite Hq, <- Hl. rewrite length_app. cbn [length].
    split; [lia|]. split; [reflexivity|]. split; [lia|]. split.
    + rewrite nth_error_app2, Nat.sub_diag by lia. reflexivity.
    + rewrite firstn_app, firstn_all, Nat.sub_diag. simpl.
      now rewrite app_nil_r.
  - now apply indexOf_None.
Qed.



Lemma sum_clients_nonneg (l : list CirrusServer.t) (acc : Z) :
  0 <= acc ->
  Forall (fun s => 0 <= CirrusServer.numConnectedClients s) l ->
  0 <= fold_left (fun sum server => sum + CirrusServer.numConnectedClients server)
                 l acc.
Proof.
  intros Hacc Hl. revert acc Hacc.
  induction Hl as [|s l Hs _ IH]; intros acc Hacc; simpl; [assumption|].
  apply IH. lia.
Qed.

(** X4.  Along every execution the figures of [getStats] are
    consistent: the available servers are among the registered ones,
    the client total is not negative, and every queued session is one
    of the sessions counted by [activeSessions]. *)
Theorem getStats_bounds :
  forall (ops : list Op) (now : Z),
    fresh_ids ops ->
    let stats := getStats now (run ops new_MatchmakerService) in
    0 <= availableServers stats <= totalServers stats
    /\ 0 <= totalClients stats
    /\ 0 <= queueLength stats <= activeSessions stats.
Proof.
  intros ops now Hfresh stats. unfold stats, getStats.
  cbn [availableServers totalServers totalClients queueLength activeSessions].
  set (st := run ops new_MatchmakerService).
  split; [|split].
  - pose proof (filter_length_le (isServerAvailable now)
                                 (JsMap.values (cirrusServers st))). lia.
  - apply sum_clients_nonneg; [lia|].
    pose proof (run_registry ops new_MatchmakerService registry_inv_empty)
      as (_ & Hf & _). fold st in Hf.
    unfold JsMap.values. apply Forall_map.
    eapply Forall_impl; [|exact Hf]. intros kv [_ Hn]. exact Hn.
  - pose proof (run_inv ops (fresh_ids_enqueued ops Hfresh)) as Hinv.
    fold st in Hinv.
    assert (Hincl : incl (queueOrder st) (JsMap.keys (clientSessions st))).
    { intros x Hx. eapply queue_present; eauto. }
    destruct Hinv as (_ & Hnd & _).
    pose proof (NoDup_incl_length Hnd Hincl) as Hlen.
    unfold JsMap.size, JsMap.keys in *. rewrite length_map in Hlen. lia.
Qed.

Lemma filter_none {A : Type} (keep : A -> bool) (xs : list A) :
  (forall x, In x xs -> keep x = false) -> filter keep xs = [].
Proof.
  induction xs as [|x xs IH]; intro H; simpl; [reflexivity|].
  rewrite (H x) by now left. apply IH. intros y Hy. apply H. now right.
Qed.

Lemma queued_priority log st x :
  queue_inv log st -> In x (queueOrder st) ->
  exists s, JsMap.get x (clientSessions st) = Some s
            /\ In (x, ClientSession.priority s) log.
Proof.
  intros (_ & _ & Hq & Hp & _) Hx. destruct (Hq _ Hx) as (s & Hget & _).
  exists s. split; [assumption|]. now apply Hp.
Qed.

(** X5.  A session enqueued with priority [p] (under an identifier not
    used before) is placed right behind the queued sessions whose
    priority is at least [p]: its position is their number plus one,
    and the queue is one longer than before. *)
Theorem addToQueue_position :
  forall (ops : list Op) (sessionId : string) (now : Z)
         (clientId : option string) (priority : Z),
    fresh_ids (ops ++ [AddToQueue sessionId now clientId priority]) ->
    let st := run ops new_MatchmakerService in
    let st1 := snd (addToQueue sessionId now clientId priority st) in
    let pos := Z.of_nat (queued_at_least priority st) + 1 in
    getQueuePosition sessionId st1
    = Some (mkQueuePosition pos (pos * 300000)
                            (Z.of_nat (length (queueOrder st)) + 1)).
Proof.
  intros ops sid now clientId p Hfresh st st1 pos.
  apply fresh_ids_enqueued in Hfresh. rewrite enqueued_snoc in Hfresh.
  cbn [enqueued_by] in Hfresh. rewrite map_app in Hfresh. simpl in Hfresh.
  assert (Hlog : NoDup (map fst (enqueued ops)))
    by (apply NoDup_remove_1 in Hfresh; now rewrite app_nil_r in Hfresh).
  assert (Hnew : ~ In sid (map fst (enqueued ops))).
  { apply NoDup_remove_2 in Hfresh. now rewrite app_nil_r in Hfresh. }
  pose proof (run_inv ops Hlog) as Hinv. fold st in Hinv.
  assert (Hfq : ~ In sid (queueOrder st)).
  { intro Hin. apply Hnew. pose proof Hinv as (Hk & _). apply Hk.
    eapply queue_present; eauto. }
  destruct (addToQueue_sessions sid now clientId p st) as (Hs' & _ & _).
  destruct (addToQueue_queue sid now clientId p st) as (u & v & Hqu & Hq' & Hu & Hv).
  cbv zeta in Hu, Hv. rewrite Hs' in Hu, Hv. fold st1 in Hq'.
  assert (Hlow : forall x, In x (queueOrder st) ->
            exists s, JsMap.get x (clientSessions st) = Some s
                      /\ In (x, ClientSession.priority s) (enqueued ops)
                      /\ lower_priority
                           (JsMap.set sid (new_session sid now clientId p)
                                      (clientSessions st)) p x
                         = (ClientSession.priority s <? p)).
  { intros x Hx. destruct (queued_priority _ _ _ Hinv Hx) as (s & Hget & Hin).
    exists s. repeat split; auto. unfold lower_priority.
    rewrite get_set_other by (intros ->; contradiction). now rewrite Hget. }
  assert (Hahead : filter (fun x => match JsMap.get x (clientSessions st) with
                                    | Some s => p <=? ClientSession.priority s
                                    | None => false
                                    end) u = u).
  { apply forallb_filter_id. apply forallb_forall. intros x Hx.
    assert (Hxq : In x (queueOrder st)) by (rewrite Hqu; apply in_or_app; auto).
    destruct (Hlow x Hxq) as (s & Hget & _ & Hl). rewrite Hget.
    rewrite Forall_forall in Hu. rewrite (Hu x Hx) in Hl.
    symmetry in Hl. apply Z.ltb_ge in Hl. now apply Z.leb_le. }
  assert (Hbehind : filter (fun x => match JsMap.get x (clientSessions st) with
                                     | Some s => p <=? ClientSession.priority s
                                     | None => false
                                     end) v = []).
  { destruct v as [|y v']; [reflexivity|].
    assert (Hyq : In y (queueOrder st))
      by (rewrite Hqu; apply in_or_app; right; now left).
    destruct (Hlow y Hyq) as (sy & Hgy & Hiny & Hly).
    rewrite Hv in Hly. symmetry in Hly. apply Z.ltb_lt in Hly.
    destruct Hinv as (_ & _ & _ & _ & Hss). rewrite Hqu in Hss.
    apply SS_split in Hss as [_ Hyv]. rewrite Forall_forall in Hyv.
    apply filter_none. intros z [<-|Hz].
    - rewrite Hgy. apply Z.leb_gt. assumption.
    - assert (Hzq : In z (queueOrder st))
        by (rewrite Hqu; apply in_or_app; right; now right).
      destruct (Hlow z Hzq) as (sz & Hgz & Hinz & _). rewrite Hgz.
      destruct (Hyv z Hz) as (py & pz & Hy' & Hz' & Hord).
      assert (py = ClientSession.priority sy) by (eapply log_functional; eauto).
      assert (pz = ClientSession.priority sz) by (eapply log_functional; eauto).
      apply Z.leb_gt. lia. }
  assert (Hcount : queued_at_least p st = length u).
  { unfold queued_at_least. rewrite Hqu, filter_app, Hahead, Hbehind.
    now rewrite app_nil_r. }
  assert (Hu' : ~ In sid u).
  { intro Hin. apply Hfq. rewrite Hqu. apply in_or_app. now left. }
  unfold getQueuePosition. rewrite Hq', (indexOf_first sid u v Hu').
  unfold pos. rewrite Hcount, Hqu, !length_app. cbn [length].
  f_equal. f_equal. lia.
Qed.

Lemma exec_sessions_keys st op :
  NoDup (JsMap.keys (clientSessions st)) ->
  NoDup (JsMap.keys (clientSessions (exec st op))).
Proof.
  intro Hnd. destruct op; cbn [exec].
  - now rewrite (proj1 (registerServer_rest serverId now message st)).
  - now rewrite (proj1 (updateServerStatus_rest serverId now message st)).
  - now rewrite (proj1 (unregisterServer_rest serverId st)).
  - now rewrite (proj1 (getAvailableServer_rest now st)).
  - rewrite (proj1 (addToQueue_sessions sessionId now clientId priority st)).
    now apply NoDup_keys_set.
  - destruct (processNextInQueue_queue now st)
      as [(_ & -> & _)|(sid & rest & _ & _ & [(_ & _ & ->)|(s & srv & _ & _ & _ & -> & _)])];
      auto using NoDup_keys_set.
  - destruct (removeSession_queue sessionId st) as [[_ ->]|(_ & _ & -> & _)];
      auto using NoDup_keys_delete.
  - unfold cleanupExpiredSessions.
    generalize (JsMap.entries (clientSessions st)). intro l. revert st Hnd.
    induction l as [|e l IH]; intros st Hnd; simpl; [assumption|].
    apply IH. destruct (isExpired _ _ _); [|assumption].
    destruct (removeSession_queue (fst e) st) as [[_ ->]|(_ & _ & -> & _)];
      auto using NoDup_keys_delete.
  - now rewrite (proj1 (cleanupStaleServers_rest now st)).
Qed.

Lemma run_sessions_keys ops :
  NoDup (JsMap.keys (clientSessions (run ops new_MatchmakerService))).
Proof.
  induction ops as [|op ops IH] using rev_ind.
  - constructor.
  - rewrite run_snoc. now apply exec_sessions_keys.
Qed.

Lemma cleanupExpiredSessions_loop SessionTimeoutMs now l :
  forall pre acc,
    clientSessions acc = pre ++ l ->
    NoDup (JsMap.keys (pre ++ l)) ->
    NoDup (queueOrder acc) ->
    let acc' :=
      fold_left
        (fun acc entry =>
           if isExpired now (ClientSession.lastActivity (snd entry)) SessionTimeoutMs
           then removeSession (fst entry) acc else acc) l acc in
    clientSessions acc'
    = pre ++ filter (fun e => negb (expired_entry SessionTimeoutMs now e)) l
    /\ emitted acc'
       = emitted acc ++ map (fun e => sessionRemoved (snd e))
                            (filter (expired_entry SessionTimeoutMs now) l)
    /\ NoDup (queueOrder acc')
    /\ (forall sid,
          In sid (queueOrder acc') <->
          In sid (queueOrder acc)
          /\ ~ In sid (JsMap.keys (filter (expired_entry SessionTimeoutMs now) l))).
Proof.
  induction l as [|[k s] l IH]; intros pre acc Hm Hnd Hq; simpl.
  - rewrite app_nil_r in *. repeat split; auto; try tauto.
    now rewrite app_nil_r.
  - destruct (NoDup_keys_middle _ _ _ _ Hnd) as [Hpre Hl].
    change (isExpired now (ClientSession.lastActivity s) SessionTimeoutMs)
      with (expired_entry SessionTimeoutMs now (k, s)).
    destruct (expired_entry SessionTimeoutMs now (k, s)) eqn:Ex; simpl.
    + assert (Hget : JsMap.get k (clientSessions acc) = Some s).
      { rewrite Hm, get_app_absent by assumption. simpl.
        now rewrite String.eqb_refl. }
      destruct (removeSession_queue k acc)
        as [[Hnone _]|(s0 & Hs0 & Hs1 & He1 & Hq1)]; [congruence|].
      assert (s0 = s) by congruence. subst s0.
      rewrite Hm, delete_middle in Hs1 by assumption.
      assert (Hnd1 : NoDup (JsMap.keys (pre ++ l))).
      { unfold JsMap.keys in *. rewrite map_app in *. simpl in Hnd.
        now apply NoDup_remove_1 in Hnd. }
      assert (Hqueue : NoDup (queueOrder (removeSession k acc))
                       /\ forall sid, In sid (queueOrder (removeSession k acc))
                                      <-> In sid (queueOrder acc) /\ sid <> k).
      { destruct Hq1 as [[Hnot ->]|(u & v & Hqa & Hu & ->)].
        - split; [assumption|]. intro sid. split; [|tauto].
          intro Hin. split; [assumption|]. intros ->. contradiction.
        - rewrite Hqa in *. split; [now apply NoDup_remove_1 in Hq|].
          apply NoDup_remove_2 in Hq. intro sid. split.
          + intro Hin. split.
            * apply in_app_or in Hin. apply in_or_app. simpl. tauto.
            * intros ->. contradiction.
          + intros [Hin Hne]. apply in_app_or in Hin as [Hin|[Hin|Hin]];
              try (apply in_or_app; tauto). congruence. }
      destruct Hqueue as [Hq1' Hin1].
      destruct (IH pre (removeSession k acc) Hs1 Hnd1 Hq1')
        as (IH1 & IH2 & IH3 & IH4).
      split; [exact IH1|]. split.
      { rewrite IH2, He1, <- app_assoc. reflexivity. }
      split; [exact IH3|].
      intro sid. rewrite IH4, Hin1. simpl. split.
      * intros [[Hin Hne] Hk]. split; [assumption|]. intros [Heq|Hin']; auto.
      * intros [Hin Hk]. repeat split; auto.
    + destruct (IH (pre ++ [(k, s)]) acc) as (IH1 & IH2 & IH3 & IH4).
      * now rewrite <- app_assoc.
      * now rewrite <- app_assoc.
      * assumption.
      * rewrite <- app_assoc in IH1. auto.
Qed.

(** X6.  The session sweep of the matchmaker removes exactly the
    sessions idle for more than [SessionTimeoutMs] (a strict
    comparison): the others stay in the session map unchanged and in
    their order, [sessionRemoved] is emitted once per removed session in
    map order, a queued session stays queued exactly when it has not
    expired, and the registry is not touched. *)
Theorem cleanupExpiredSessions_removes_expired :
  forall (ops : list Op) (SessionTimeoutMs now : Z),
    fresh_ids ops ->
    let st := run ops new_MatchmakerService in
    let st' := cleanupExpiredSessions SessionTimeoutMs now st in
    clientSessions st'
    = filter (fun e => negb (expired_entry SessionTimeoutMs now e))
             (clientSessions st)
    /\ emitted st'
       = emitted st ++ map (fun e => sessionRemoved (snd e))
                           (filter (expired_entry SessionTimeoutMs now)
                                   (clientSessions st))
    /\ (forall sid,
          In sid (queueOrder st') <->
          In sid (queueOrder st)
          /\ exists s, JsMap.get sid (clientSessions st) = Some s
                       /\ isExpired now (ClientSession.lastActivity s)
                                    SessionTimeoutMs = false)
    /\ cirrusServers st' = cirrusServers st.
Proof.
  intros ops T now Hfresh st st'.
  pose proof (run_inv ops (fresh_ids_enqueued ops Hfresh)) as Hinv.
  fold st in Hinv. pose proof Hinv as (_ & Hq & Hpresent & _ & _).
  pose proof (run_sessions_keys ops) as Hnd. fold st in Hnd.
  destruct (cleanupExpiredSessions_loop T now (clientSessions st) [] st
              eq_refl Hnd Hq) as (H1 & H2 & _ & H4).
  split; [exact H1|]. split; [exact H2|].
  split; [|apply cleanupExpiredSessions_servers].
  intro sid. subst st'. unfold cleanupExpiredSessions, JsMap.entries.
  rewrite H4. split.
  - intros [Hin Hk]. split; [assumption|].
    destruct (Hpresent _ Hin) as (s & Hget & _). exists s. split; [assumption|].
    destruct (isExpired now (ClientSession.lastActivity s) T) eqn:Ex; [|reflexivity].
    exfalso. apply Hk. apply get_In in Hget.
    change sid with (fst (sid, s)). apply in_map. apply filter_In. auto.
  - intros [Hin (s & Hget & Hex)]. split; [assumption|].
    intro Hk. apply in_map_iff in Hk as ([k' s'] & Heq & Hf). simpl in Heq.
    subst k'. apply filter_In in Hf as [Hf Hx].
    rewrite (In_get _ _ _ Hnd Hf) in Hget. injection Hget as ->.
    unfold expired_entry in Hx. simpl in Hx. congruence.
Qed.

(** ** The drain loop of [index.ts] *)

Lemma processNextInQueue_shorter now st :
  (length (queueOrder (snd (processNextInQueue now st)))
   <= length (queueOrder st))%nat
  /\ (fst (processNextInQueue now st) = true ->
      S (length (queueOrder (snd (processNextInQueue now st))))
      = length (queueOrder st)).
Proof.
  destruct (processNextInQueue_queue now st)
    as [(Hf & _ & Hq)|(sid & rest & Hq & Hq' & _)].
  - rewrite Hq, Hf. split; [lia | discriminate].
  - rewrite Hq, Hq'. simpl. split; [lia | reflexivity].
Qed.

Lemma processQueue_enough_fuel (n : nat) :
  forall (st : MatchmakerService) (clock : nat -> Z),
    (length (queueOrder st) <= n)%nat ->
    exists st',
      (length (queueOrder st') <= length (queueOrder st))%nat
      /\ forall fuel, (n < fuel)%nat -> processQueue fuel clock st = Some st'.
Proof.
  induction n as [|n IH]; intros st clock Hlen.
  - exists (snd (processNextInQueue (clock O) st)).
    destruct (processNextInQueue_shorter (clock O) st) as [Hle Htrue].
    split; [assumption|]. intros [|fuel] Hfuel; [lia|]. simpl.
    destruct (processNextInQueue (clock O) st) as [[|] st1]; simpl in *;
      [|reflexivity].
    specialize (Htrue eq_refl). lia.
  - destruct (processNextInQueue_shorter (clock O) st) as [Hle Htrue].
    destruct (processNextInQueue (clock O) st) as [[|] st1] eqn:Hstep;
      simpl in *.
    + specialize (Htrue eq_refl).
      destruct (IH st1 (fun i => clock (S i))) as (st' & Hle' & Hrun); [lia|].
      exists st'. split; [lia|].
      intros [|fuel] Hfuel; [lia|]. simpl. rewrite Hstep. apply Hrun. lia.
    + exists st1. split; [assumption|].
      intros [|fuel] Hfuel; [lia|]. simpl. now rewrite Hstep.
Qed.

(** X7.  The loop [while (processed) processed = processNextInQueue()]
    of [processQueue] terminates from every engine state and under any
    clock: at most one call per queued session plus one are made, so
    [length queueOrder + 1] units of fuel suffice, more fuel gives the
    same final state, and the queue never grows. *)
Theorem processQueue_terminates :
  forall (st : MatchmakerService) (clock : nat -> Z),
    exists st',
      processQueue (S (length (queueOrder st))) clock st = Some st'
      /\ (length (queueOrder st') <= length (queueOrder st))%nat
      /\ forall fuel, (length (queueOrder st) < fuel)%nat ->
                      processQueue fuel clock st = Some st'.
Proof.
  intros st clock.
  destruct (processQueue_enough_fuel (length (queueOrder st)) st clock (le_n _))
    as (st' & Hle & Hrun).
  exists st'. split; [apply Hrun; lia|]. split; assumption.
Qed.

Lemma processQueue_serves_loop (q : list string) :
  forall (st : MatchmakerService) (clock : nat -> Z),
    queueOrder st = q ->
    (forall sid, In sid q -> JsMap.get sid (clientSessions st) <> None) ->
    exists (n : nat) (st' : MatchmakerService),
      processQueue (S (length q)) clock st = Some st'
      /\ queueOrder st' = skipn n q
      /\ (n <= length q)%nat
      /\ (queueOrder st' = [] \/ fst (getAvailableServer (clock n) st') = None)
      /\ (forall sid, In sid (firstn n q) ->
            exists s, JsMap.get sid (clientSessions st') = Some s
                      /\ ClientSession.status s = connected)
      /\ (forall sid s, JsMap.get sid (clientSessions st) = Some s ->
            ClientSession.status s = connected ->
            exists s', JsMap.get sid (clientSessions st') = Some s'
                       /\ ClientSession.status s' = connected).
Proof.
  induction q as [|sid rest IH]; intros st clock Hq Hpresent.
  - exists O, st. simpl. unfold processNextInQueue, processNextInQueue_at. rewrite Hq.
    repeat split; auto; try contradiction. intros x s Hx Hs. eauto.
  - destruct (getAvailableServer (clock O) st) as [[server|] st1] eqn:Hget.
    + destruct (JsMap.get sid (clientSessions st)) as [session|] eqn:Hs.
      2:{ exfalso. apply (Hpresent sid); [now left | assumption]. }
      pose proof (processNextInQueue_assign _ _ _ _ _ _ _ Hq Hget Hs) as Hstep.
      set (st2 := mkService (cirrusServers st1)
                    (JsMap.set sid
                       (ClientSession.assign (CirrusServer.id server) (clock O) session)
                       (clientSessions st))
                    rest
                    (emitted st
                     ++ [clientAssigned
                           (ClientSession.assign (CirrusServer.id server) (clock O) session)
                           server])) in *.
      destruct (IH st2 (fun i => clock (S i)) eq_refl)
        as (n & st' & Hrun & Hq' & Hn & Hstop & Hserved & Hkeep).
      { intros x Hx. cbn [clientSessions st2].
        destruct (String.eqb x sid) eqn:E.
        - apply String.eqb_eq in E. subst x. rewrite get_set_same. discriminate.
        - apply String.eqb_neq in E. rewrite get_set_other by assumption.
          apply Hpresent. now right. }
      exists (S n), st'.
      change (processQueue (S (length (sid :: rest))) clock st)
        with (let (processed, st0) := processNextInQueue (clock O) st in
              if processed
              then processQueue (S (length rest)) (fun i => clock (S i)) st0
              else Some st0).
      rewrite Hstep. split; [exact Hrun|]. split; [exact Hq'|].
      split; [simpl; lia|]. split; [exact Hstop|]. split.
      * intros x [<-|Hx]; [|now apply Hserved].
        apply (Hkeep sid (ClientSession.assign (CirrusServer.id server) (clock O) session));
          [apply get_set_same | reflexivity].
      * intros x s Hx Hst. destruct (String.eqb x sid) eqn:E.
        -- apply String.eqb_eq in E. subst x.
           apply (Hkeep sid (ClientSession.assign (CirrusServer.id server) (clock O) session));
             [apply get_set_same | reflexivity].
        -- apply String.eqb_neq in E. apply (Hkeep x s); [|assumption].
           cbn [clientSessions st2]. now rewrite get_set_other.
    + assert (Hnone : fst (getAvailableServer (clock O) st) = None)
        by (now rewrite Hget).
      pose proof (processNextInQueue_none _ _ Hnone) as Hstep.
      exists O, st.
      change (processQueue (S (length (sid :: rest))) clock st)
        with (let (processed, st0) := processNextInQueue (clock O) st in
              if processed
              then processQueue (S (length rest)) (fun i => clock (S i)) st0
              else Some st0).
      rewrite Hstep. repeat split; auto; try (simpl; lia); try contradiction.
      intros x s Hx Hs. eauto.
Qed.

(** X8.  From a state whose queued identifiers all have a session, the
    drain loop serves the queue from its head: for some n it assigns the
    first n queued sessions (each ends [connected]), leaves the others
    queued in their order, and stops only when the queue is empty or
    when no server is available at the clock reading of its last call. *)
Theorem processQueue_serves_head :
  forall (st : MatchmakerService) (clock : nat -> Z),
    (forall sid, In sid (queueOrder st) ->
                 JsMap.get sid (clientSessions st) <> None) ->
    exists (n : nat) (st' : MatchmakerService),
      processQueue (S (length (queueOrder st))) clock st = Some st'
      /\ queueOrder st' = skipn n (queueOrder st)
      /\ (n <= length (queueOrder st))%nat
      /\ (queueOrder st' = [] \/ fst (getAvailableServer (clock n) st') = None)
      /\ (forall sid, In sid (firstn n (queueOrder st)) ->
            exists s, JsMap.get sid (clientSessions st') = Some s
                      /\ ClientSession.status s = connected).
Proof.
  intros st clock Hpresent.
  destruct (processQueue_serves_loop (queueOrder st) st clock eq_refl Hpresent)
    as (n & st' & H1 & H2 & H3 & H4 & H5 & _).
  exists n, st'. auto.
Qed.

(** ** Successive assignments *)

Lemma processNextInQueue_true now st st' :
  processNextInQueue now st = (true, st') ->
  exists sid rest server session,
    queueOrder st = sid :: rest
    /\ fst (getAvailableServer now st) = Some server
    /\ JsMap.get sid (clientSessions st) = Some session
    /\ cirrusServers st' = snd (acquire now (cirrusServers st))
    /\ clientSessions st'
       = JsMap.set sid (ClientSession.assign (CirrusServer.id server) now session)
                   (clientSessions st)
    /\ queueOrder st' = rest
    /\ emitted st'
       = emitted st
         ++ [clientAssigned
               (ClientSession.assign (CirrusServer.id server) now session) server].
Proof.
  intro H.
  destruct (queueOrder st) as [|sid rest] eqn:Hq.
  { unfold processNextInQueue, processNextInQueue_at in H. rewrite Hq in H. discriminate. }
  destruct (getAvailableServer now st) as [[server|] st1] eqn:Hget.
  2:{ rewrite processNextInQueue_none in H by (now rewrite Hget). discriminate. }
  destruct (JsMap.get sid (clientSessions st)) as [session|] eqn:Hs.
  - rewrite (processNextInQueue_assign _ _ _ _ _ _ _ Hq Hget Hs) in H.
    injection H as <-. exists sid, rest, server, session.
    pose proof (getAvailableServer_servers now st) as Hm. rewrite Hget in Hm.
    simpl in *. repeat split; auto.
  - exfalso. unfold processNextInQueue, processNextInQueue_at in H. rewrite Hq, Hget in H.
    destruct (getAvailableServer_rest now st) as (Hs1 & _ & _).
    rewrite Hget in Hs1. simpl in *. rewrite Hs1, Hs in H. discriminate.
Qed.

Lemma cooling_start t m server :
  registry_inv m ->
  fst (acquire t m) = Some server ->
  cooling (CirrusServer.id server) t (snd (acquire t m)).
Proof.
  intros Hinv Hf.
  destruct (acquire_spec t m)
    as [(Hnone & _)|(l1 & k & s & l2 & Hm & _ & _ & Hsome & Hsnd)]; [congruence|].
  rewrite Hsome in Hf. injection Hf as <-. rewrite Hsnd.
  rewrite Hm in Hinv. destruct Hinv as (Hnd & Hall & _).
  destruct (NoDup_keys_middle _ _ _ _ Hnd) as [Hk1 Hk2].
  apply Forall_app in Hall as [_ Hall].
  inversion Hall as [|? ? [Hids _] _]; subst. simpl in Hids.
  cbn [CirrusServer.id CirrusServer.set_lastRedirect].
  assert (Hother : forall l : JsMap.t CirrusServer.t,
             ~ In k (JsMap.keys l) -> cooling (CirrusServer.id s) t l).
  { intros l Hl. apply Forall_forall. intros [k' s'] Hin Hk'. simpl in Hk'.
    exfalso. apply Hl. rewrite <- Hids, <- Hk'.
    change k' with (fst (k', s')). now apply in_map. }
  unfold cooling in *. apply Forall_app. split; [now apply Hother|].
  constructor; [|now apply Hother].
  simpl. intros _. exists t. split; [reflexivity | lia].
Qed.

Lemma cooling_blocks nid t t' m server :
  cooling nid t m -> registry_inv m ->
  0 < t -> t' - t < 10000 ->
  fst (acquire t' m) = Some server ->
  CirrusServer.id server <> nid.
Proof.
  intros Hc Hinv Ht Hlt Hf Hid.
  destruct (acquire_spec t' m)
    as [(Hnone & _)|(l1 & k & s & l2 & Hm & _ & Hav & Hsome & _)]; [congruence|].
  rewrite Hsome in Hf. injection Hf as <-. simpl in Hid.
  rewrite Hm in Hc, Hinv.
  destruct Hinv as (_ & Hall & _). apply Forall_app in Hall as [_ Hall].
  inversion Hall as [|? ? [Hids _] _]; subst. simpl in Hids.
  unfold cooling in Hc. apply Forall_app in Hc as [_ Hc].
  inversion Hc as [|? ? Hk _]; subst. simpl in Hk.
  destruct Hk as (r & Hlr & Hle); [congruence|].
  apply isServerAvailable_true in Hav as (_ & _ & Hcd).
  rewrite Hlr in Hcd. simpl in Hcd. destruct Hcd as [Hcd|Hcd]; [|lia].
  apply negb_false_iff, Z.eqb_eq in Hcd. lia.
Qed.

(** X9.  Two assignments made less than 10 000 ms apart never send two
    sessions to the same server, whatever the engine does in between,
    unless the server reported a [clientDisconnected]: if
    [processNextInQueue] assigns [server1] at clock [t > 0] and a later
    call at [t'] with [t' - t < 10 000] assigns [server2], the two
    servers differ, and so do the [serverId]s written into the two
    sessions. *)
Theorem assignments_use_distinct_servers :
  forall (ops0 : list Op) (t : Z) (st1 : MatchmakerService)
         (session1 : ClientSession.t) (server1 : CirrusServer.t)
         (ops : list Op) (t' : Z) (st2 : MatchmakerService)
         (session2 : ClientSession.t) (server2 : CirrusServer.t),
    processNextInQueue t (run ops0 new_MatchmakerService) = (true, st1) ->
    emitted st1 = emitted (run ops0 new_MatchmakerService)
                  ++ [clientAssigned session1 server1] ->
    0 < t ->
    Forall (keeps_cooldown (CirrusServer.id server1)) ops ->
    t' - t < 10000 ->
    processNextInQueue t' (run ops st1) = (true, st2) ->
    emitted st2 = emitted (run ops st1) ++ [clientAssigned session2 server2] ->
    CirrusServer.id server2 <> CirrusServer.id server1
    /\ ClientSession.serverId session1 = Some (CirrusServer.id server1)
    /\ ClientSession.serverId session2 = Some (CirrusServer.id server2)
    /\ ClientSession.status session1 = connected
    /\ ClientSession.status session2 = connected.
Proof.
  intros ops0 t st1 session1 server1 ops t' st2 session2 server2
         H1 He1 Ht Hops Hlt H2 He2.
  set (st0 := run ops0 new_MatchmakerService) in *.
  assert (Hinv0 : registry_inv (cirrusServers st0))
    by (apply run_registry, registry_inv_empty).
  destruct (processNextInQueue_true _ _ _ H1)
    as (sid1 & rest1 & srv1 & s1 & _ & Hf1 & _ & Hm1 & _ & _ & Hev1).
  rewrite Hev1 in He1. apply app_inj_tail in He1 as [_ He1].
  injection He1 as <- <-.
  destruct (processNextInQueue_true _ _ _ H2)
    as (sid2 & rest2 & srv2 & s2 & _ & Hf2 & _ & _ & _ & _ & Hev2).
  rewrite Hev2 in He2. apply app_inj_tail in He2 as [_ He2].
  injection He2 as <- <-.
  rewrite getAvailableServer_found in Hf1, Hf2.
  assert (Hinv1 : registry_inv (cirrusServers st1))
    by (rewrite Hm1; now apply acquire_registry).
  assert (Hc1 : cooling (CirrusServer.id srv1) t (cirrusServers st1))
    by (rewrite Hm1; now apply cooling_start).
  pose proof (cooling_run _ _ _ Ht Hops st1 Hc1) as Hc.
  pose proof (run_registry ops st1 Hinv1) as Hinv.
  split; [exact (cooling_blocks _ _ _ _ _ Hc Hinv Ht Hlt Hf2)|].
  repeat split.
Qed.

(** ** Sanitised input *)

Lemma trimStart_suffix (s : JsString) :
  exists p, s = p ++ trimStart s.
Proof.
  induction s as [|c s [p Hp]]; simpl.
  - now exists [].
  - destruct (isWhiteSpace c).
    + exists (c :: p). simpl. now rewrite <- Hp.
    + now exists [].
Qed.

Lemma trimStart_head (s : JsString) :
  match trimStart s with
  | c :: _ => isWhiteSpace c = false
  | [] => True
  end.
Proof.
  induction s as [|c s IH]; simpl; [exact I|].
  destruct (isWhiteSpace c) eqn:E; [assumption|]. exact E.
Qed.

Lemma trimStart_fixed (s : JsString) :
  match s with c :: _ => isWhiteSpace c = false | [] => True end ->
  trimStart s = s.
Proof. destruct s as [|c s]; simpl; [reflexivity|]. now intros ->. Qed.

Lemma trimStart_snoc (s : JsString) (c : N) :
  isWhiteSpace c = false -> trimStart (s ++ [c]) = trimStart s ++ [c].
Proof.
  intro Hc. induction s as [|a s IH]; simpl.
  - now rewrite Hc.
  - destruct (isWhiteSpace a); [assumption | reflexivity].
Qed.

Lemma trimEnd_head (s : JsString) :
  match s with c :: _ => isWhiteSpace c = false | [] => True end ->
  match trimEnd s with c :: _ => isWhiteSpace c = false | [] => True end.
Proof.
  destruct s as [|c s]; [intros _; exact I|]. intro Hc.
  unfold trimEnd. simpl. rewrite trimStart_snoc by assumption.
  rewrite rev_app_distr. simpl. assumption.
Qed.

Lemma trim_Forall (P : N -> Prop) (s : JsString) :
  Forall P s -> Forall P (trim s).
Proof.
  intro H. unfold trim, trimEnd. apply Forall_rev.
  assert (Hsuf : forall x, Forall P x -> Forall P (trimStart x)).
  { intros x Hx. destruct (trimStart_suffix x) as [p Hp].
    rewrite Hp in Hx. now apply Forall_app in Hx as [_ Hx]. }
  apply Hsuf. apply Forall_rev. now apply Hsuf.
Qed.

Lemma trimStart_length (s : JsString) : (length (trimStart s) <= length s)%nat.
Proof.
  destruct (trimStart_suffix s) as [p Hp]. rewrite Hp at 2.
  rewrite length_app. lia.
Qed.

(** X10.  [sanitizeInput] of a string never contains ['<'] or ['>'],
    neither starts nor ends with a white-space character, is no longer
    than its input, and is left as it is by a second pass; a string
    that already meets these conditions is returned unchanged. *)
Theorem sanitizeInput_clean :
  forall (input : JsString),
    let output := sanitizeInput input in
    Forall (fun c => c <> 60%N /\ c <> 62%N) output
    /\ match output with c :: _ => isWhiteSpace c = false | [] => True end
    /\ match rev output with c :: _ => isWhiteSpace c = false | [] => True end
    /\ (length output <= length input)%nat
    /\ sanitizeInput output = output
    /\ (Forall (fun c => c <> 60%N /\ c <> 62%N) input ->
        match input with c :: _ => isWhiteSpace c = false | [] => True end ->
        match rev input with c :: _ => isWhiteSpace c = false | [] => True end ->
        output = input).
Proof.
  intro input.
  assert (Hfixed : forall s : JsString,
             Forall (fun c => c <> 60%N /\ c <> 62%N) s ->
             match s with c :: _ => isWhiteSpace c = false | [] => True end ->
             match rev s with c :: _ => isWhiteSpace c = false | [] => True end ->
             sanitizeInput s = s).
  { intros s Hs Hh Hl. unfold sanitizeInput.
    rewrite forallb_filter_id.
    - unfold trim, trimEnd. rewrite (trimStart_fixed s Hh).
      rewrite (trimStart_fixed (rev s) Hl). apply rev_involutive.
    - apply forallb_forall. intros c Hc. rewrite Forall_forall in Hs.
      destruct (Hs c Hc) as [H60 H62]. unfold isAngleBracket.
      apply N.eqb_neq in H60, H62. now rewrite H60, H62. }
  assert (H1 : Forall (fun c => c <> 60%N /\ c <> 62%N) (sanitizeInput input)).
  { unfold sanitizeInput. apply trim_Forall. apply Forall_forall.
    intros c Hc. apply filter_In in Hc as [_ Hc]. unfold isAngleBracket in Hc.
    apply negb_true_iff, orb_false_iff in Hc as [H60 H62].
    apply N.eqb_neq in H60, H62. auto. }
  assert (H2 : match sanitizeInput input with
               | c :: _ => isWhiteSpace c = false | [] => True end).
  { unfold sanitizeInput, trim. apply trimEnd_head. apply trimStart_head. }
  assert (H3 : match rev (sanitizeInput input) with
               | c :: _ => isWhiteSpace c = false | [] => True end).
  { unfold sanitizeInput, trim, trimEnd. rewrite rev_involutive.
    apply trimStart_head. }
  cbv zeta. split; [exact H1|]. split; [exact H2|]. split; [exact H3|].
  split.
  { unfold sanitizeInput, trim, trimEnd. rewrite length_rev.
    pose proof (trimStart_length
                  (rev (trimStart (filter (fun c => negb (isAngleBracket c)) input)))).
    rewrite length_rev in H.
    pose proof (trimStart_length (filter (fun c => negb (isAngleBracket c)) input)).
    pose proof (filter_length_le (fun c => negb (isAngleBracket c)) input). lia. }
  split; [now apply Hfixed|]. apply Hfixed.
Qed.

(* ------------------------------------------------------------------ *)
(** ** The session service *)

Lemma In_set_inv {V : Type} (k k' : string) (v v' : V) (m : JsMap.t V) :
  In (k', v') (JsMap.set k v m) -> (k' = k /\ v' = v) \/ In (k', v') m.
Proof.
  intro Hin.
  destruct (set_shape k v m) as [(l1 & v0 & l2 & -> & Hs & _)|[Hs _]];
    rewrite Hs in Hin.
  - apply in_app_or in Hin as [Hin|[Hin|Hin]].
    + right. apply in_or_app. now left.
    + injection Hin as <- <-. now left.
    + right. apply in_or_app. right. now right.
  - apply in_app_or in Hin as [Hin|[Hin|[]]]; [now right|].
    injection Hin as <- <-. now left.
Qed.

Lemma SessionStatus_eqb_eq (a b : SessionStatus) :
  SessionStatus_eqb a b = true <-> a = b.
Proof. destruct a, b; simpl; split; congruence. Qed.

Lemma store_inv_set k s m :
  SessionService.store_inv m -> ClientSession.id s = k ->
  SessionService.store_inv (JsMap.set k s m).
Proof.
  intros [Hnd Hf] Hid. split; [now apply NoDup_keys_set|].
  now apply Forall_set.
Qed.

Lemma store_inv_delete k m :
  SessionService.store_inv m -> SessionService.store_inv (JsMap.delete k m).
Proof.
  intros [Hnd Hf]. split; [now apply NoDup_keys_delete | now apply Forall_delete].
Qed.

Lemma store_inv_get k s m :
  SessionService.store_inv m -> JsMap.get k m = Some s -> ClientSession.id s = k.
Proof.
  intros [_ Hf] Hget. apply get_In in Hget. rewrite Forall_forall in Hf.
  exact (Hf _ Hget).
Qed.

Lemma session_removeSession_sessions sid st :
  SessionService.sessions (snd (SessionService.removeSession sid st))
  = JsMap.delete sid (SessionService.sessions st).
Proof.
  unfold SessionService.removeSession.
  destruct (JsMap.get sid (SessionService.sessions st)) eqn:E; simpl; [reflexivity|].
  symmetry. apply delete_absent. now apply get_None_keys.
Qed.

Lemma filter_twice {A : Type} (f g : A -> bool) (xs : list A) :
  filter f (filter g xs) = filter (fun x => g x && f x) xs.
Proof.
  induction xs as [|x xs IH]; simpl; [reflexivity|].
  destruct (g x); simpl; [|assumption]. destruct (f x); now rewrite IH.
Qed.

Lemma session_cleanup_loop (l : list ClientSession.t) :
  forall (acc : SessionService.t) (n : Z),
    NoDup (map ClientSession.id l) ->
    NoDup (JsMap.keys (SessionService.sessions acc)) ->
    (forall s, In s l -> In (ClientSession.id s, s) (SessionService.sessions acc)) ->
    let r :=
      fold_left
        (fun (a : Z * SessionService.t) session =>
           (fst a + 1,
            snd (SessionService.removeSession (ClientSession.id session) (snd a))))
        l (n, acc) in
    fst r = n + Z.of_nat (length l)
    /\ SessionService.sessions (snd r)
       = filter (fun e => negb (existsb (String.eqb (fst e)) (map ClientSession.id l)))
                (SessionService.sessions acc)
    /\ SessionService.emitted (snd r)
       = SessionService.emitted acc ++ map SessionService.sessionRemoved l.
Proof.
  induction l as [|s l IH]; intros acc n Hids Hnd Hin.
  - simpl. repeat split; try lia.
    + symmetry. apply forallb_filter_id. now apply forallb_forall.
    + now rewrite app_nil_r.
  - inversion Hids as [|? ? Hs Hids']; subst.
    assert (Hget : JsMap.get (ClientSession.id s) (SessionService.sessions acc)
                   = Some s).
    { apply In_get; [assumption|]. apply Hin. now left. }
    cbn [fold_left fst snd].
    assert (Hrm : SessionService.removeSession (ClientSession.id s) acc
                  = (true,
                     SessionService.emit (SessionService.sessionRemoved s)
                       (SessionService.set_sessions
                          (JsMap.delete (ClientSession.id s)
                                        (SessionService.sessions acc)) acc))).
    { unfold SessionService.removeSession. now rewrite Hget. }
    rewrite Hrm. cbn [snd].
    destruct (IH (SessionService.emit (SessionService.sessionRemoved s)
                    (SessionService.set_sessions
                       (JsMap.delete (ClientSession.id s)
                                     (SessionService.sessions acc)) acc))
                 (n + 1) Hids') as (H1 & H2 & H3).
    + simpl. now apply NoDup_keys_delete.
    + intros s' Hs'. simpl. apply In_delete. split; [apply Hin; now right|].
      simpl. intro Heq. apply Hs. rewrite <- Heq. now apply in_map.
    + split; [|split].
      * rewrite H1. simpl length. lia.
      * rewrite H2. simpl. unfold JsMap.delete. rewrite filter_twice.
        apply filter_ext. intro e. now rewrite negb_orb.
      * rewrite H3. simpl. now rewrite <- app_assoc.
Qed.

Lemma session_cleanup_subset SessionTimeoutMs now st kv :
  In kv (SessionService.sessions
           (snd (SessionService.cleanupExpiredSessions SessionTimeoutMs now st))) ->
  In kv (SessionService.sessions st).
Proof.
  unfold SessionService.cleanupExpiredSessions.
  set (l := SessionService.getExpiredSessions SessionTimeoutMs now st).
  cbv zeta. cbn [snd].
  assert (Hloop : forall (xs : list ClientSession.t) (a : Z * SessionService.t),
             In kv (SessionService.sessions
                      (snd (fold_left
                              (fun (a : Z * SessionService.t) session =>
                                 (fst a + 1,
                                  snd (SessionService.removeSession
                                         (ClientSession.id session) (snd a))))
                              xs a))) ->
             In kv (SessionService.sessions (snd a))).
  { induction xs as [|x xs IH]; intros a Hin; simpl in *; [assumption|].
    apply IH in Hin. simpl in Hin. rewrite session_removeSession_sessions in Hin.
    now apply In_delete in Hin as [Hin _]. }
  intro Hin. apply (Hloop l (0, st)).
  destruct (0 <? _); exact Hin.
Qed.

Lemma session_exec_store st op :
  SessionService.store_inv (SessionService.sessions st) ->
  SessionService.store_inv (SessionService.sessions (SessionService.exec st op)).
Proof.
  intro Hinv. destruct op; cbn [SessionService.exec].
  - simpl. now apply store_inv_set.
  - unfold SessionService.updateActivity.
    destruct (JsMap.get sessionId (SessionService.sessions st)) eqn:E;
      simpl; [|assumption].
    apply store_inv_set; [assumption|]. simpl. eapply store_inv_get; eauto.
  - unfold SessionService.updateStatus.
    destruct (JsMap.get sessionId (SessionService.sessions st)) eqn:E;
      simpl; [|assumption].
    apply store_inv_set; [assumption|].
    destruct (SessionService.truthy_string serverId); simpl;
      eapply store_inv_get; eauto.
  - rewrite session_removeSession_sessions. now apply store_inv_delete.
  - destruct Hinv as [Hnd Hf]. split.
    + unfold SessionService.cleanupExpiredSessions. cbv zeta. cbn [snd].
      assert (Hloop : forall (xs : list ClientSession.t) (a : Z * SessionService.t),
                 NoDup (JsMap.keys (SessionService.sessions (snd a))) ->
                 NoDup (JsMap.keys
                          (SessionService.sessions
                             (snd (fold_left
                                     (fun (a : Z * SessionService.t) session =>
                                        (fst a + 1,
                                         snd (SessionService.removeSession
                                                (ClientSession.id session) (snd a))))
                                     xs a))))).
      { induction xs as [|x xs IH]; intros a Ha; simpl; [assumption|].
        apply IH. simpl. rewrite session_removeSession_sessions.
        now apply NoDup_keys_delete. }
      destruct (0 <? _); simpl; now apply Hloop.
    + apply Forall_forall. intros kv Hin.
      apply session_cleanup_subset in Hin. rewrite Forall_forall in Hf. auto.
Qed.

Lemma session_run_snoc ops op st :
  SessionService.run (ops ++ [op]) st
  = SessionService.exec (SessionService.run ops st) op.
Proof. exact (fold_left_app _ _ _ _). Qed.

Lemma session_run_store ops :
  SessionService.store_inv
    (SessionService.sessions
       (SessionService.run ops SessionService.new_SessionService)).
Proof.
  induction ops as [|op ops IH] using rev_ind.
  - split; constructor.
  - rewrite session_run_snoc. now apply session_exec_store.
Qed.

(** X11.  A session created under an identifier not in use can be read
    back with [getSession]: it is [queued], without server, with the
    given [clientId] and [priority], [createdAt] is the clock reading
    taken first and [lastActivity] the one taken next.  Removing it
    returns [true], emits [sessionRemoved] and restores the session map;
    removing it again returns [false] and changes nothing; the other
    sessions are never affected. *)
Theorem session_create_get_remove :
  forall (st : SessionService.t) (sessionId : string) (now now' : Z)
         (clientId : option string) (priority : Z),
    SessionService.getSession sessionId st = None ->
    let session :=
      fst (SessionService.createSession sessionId now now' clientId priority
                                        st) in
    let st1 :=
      snd (SessionService.createSession sessionId now now' clientId priority
                                        st) in
    let st2 := snd (SessionService.removeSession sessionId st1) in
    SessionService.getSession sessionId st1 = Some session
    /\ (ClientSession.id session = sessionId
        /\ ClientSession.status session = queued
        /\ ClientSession.createdAt session = now
        /\ ClientSession.lastActivity session = now'
        /\ ClientSession.clientId session = clientId
        /\ ClientSession.priority session = priority
        /\ ClientSession.serverId session = None)
    /\ (forall k, k <> sessionId ->
          SessionService.getSession k st1 = SessionService.getSession k st)
    /\ fst (SessionService.removeSession sessionId st1) = true
    /\ SessionService.sessions st2 = SessionService.sessions st
    /\ SessionService.emitted st2
       = SessionService.emitted st
         ++ [SessionService.sessionCreated session;
             SessionService.sessionRemoved session]
    /\ SessionService.removeSession sessionId st2 = (false, st2).
Proof.
  intros st sid now now' clientId priority Hfresh session st1 st2.
  unfold SessionService.getSession in *.
  assert (H1 : JsMap.get sid (SessionService.sessions st1) = Some session)
    by apply get_set_same.
  split; [exact H1|]. split; [repeat split|]. split.
  { intros k Hk. simpl. now apply get_set_other. }
  assert (Hrm : SessionService.removeSession sid st1
                = (true,
                   SessionService.emit (SessionService.sessionRemoved session)
                     (SessionService.set_sessions
                        (JsMap.delete sid (SessionService.sessions st1)) st1))).
  { unfold SessionService.removeSession. now rewrite H1. }
  unfold st2. rewrite Hrm. cbn [fst snd].
  split; [reflexivity|].
  assert (Hback : SessionService.sessions
                    (SessionService.emit (SessionService.sessionRemoved session)
                       (SessionService.set_sessions
                          (JsMap.delete sid (SessionService.sessions st1)) st1))
                  = SessionService.sessions st).
  { simpl. now apply delete_set_fresh. }
  split; [exact Hback|]. split.
  { simpl. now rewrite <- app_assoc. }
  unfold SessionService.removeSession at 1. now rewrite Hback, Hfresh.
Qed.

(** X12.  [updateStatus] on a stored session returns [true], sets
    [status], sets [lastActivity] to now, and sets [serverId] only when
    a non-empty one is passed (with [undefined] or [''] the previous
    [serverId] stays); [id], [clientId], [createdAt] and [priority] are
    kept, [sessionStatusChanged] carries the updated session and the old
    status, and no other session changes.  On an unknown identifier it
    returns [false] and does nothing. *)
Theorem session_updateStatus_frame :
  forall (st : SessionService.t) (sessionId : string) (status : SessionStatus)
         (serverId : option string) (now : Z),
    match SessionService.getSession sessionId st with
    | None =>
        SessionService.updateStatus sessionId status serverId now st = (false, st)
    | Some session =>
        exists session',
          let st' :=
            snd (SessionService.updateStatus sessionId status serverId now st) in
          fst (SessionService.updateStatus sessionId status serverId now st) = true
          /\ SessionService.getSession sessionId st' = Some session'
          /\ ClientSession.status session' = status
          /\ ClientSession.lastActivity session' = now
          /\ ClientSession.serverId session'
             = match serverId with
               | Some EmptyString | None => ClientSession.serverId session
               | Some _ => serverId
               end
          /\ (ClientSession.id session' = ClientSession.id session
              /\ ClientSession.clientId session' = ClientSession.clientId session
              /\ ClientSession.createdAt session' = ClientSession.createdAt session
              /\ ClientSession.priority session' = ClientSession.priority session)
          /\ SessionService.emitted st'
             = SessionService.emitted st
               ++ [SessionService.sessionStatusChanged
                     session' (ClientSession.status session)]
          /\ (forall k, k <> sessionId ->
                SessionService.getSession k st' = SessionService.getSession k st)
    end.
Proof.
  intros st sid status serverId now.
  unfold SessionService.getSession, SessionService.updateStatus.
  destruct (JsMap.get sid (SessionService.sessions st)) as [session|] eqn:E;
    [|reflexivity].
  eexists. cbn [fst snd SessionService.emit SessionService.set_sessions
                SessionService.sessions SessionService.emitted].
  split; [reflexivity|]. split; [apply get_set_same|].
  destruct serverId as [[|c r]|]; simpl; repeat split;
    intros k Hk; now apply get_set_other.
Qed.

(** X13.  [cleanupExpiredSessions] of the session service returns the
    number of sessions [getExpiredSessions] listed, removes exactly
    those (the others stay, in their order), emits [sessionRemoved] for
    each and then [cleanupCompleted] with the count, but only when the
    count is positive; right afterwards nothing is expired and a second
    sweep at the same clock reading returns 0. *)
Theorem session_cleanup_removes_expired :
  forall (ops : list SessionService.Op) (SessionTimeoutMs now : Z),
    let st := SessionService.run ops SessionService.new_SessionService in
    let expired := SessionService.getExpiredSessions SessionTimeoutMs now st in
    let cleanedUp :=
      fst (SessionService.cleanupExpiredSessions SessionTimeoutMs now st) in
    let st' :=
      snd (SessionService.cleanupExpiredSessions SessionTimeoutMs now st) in
    cleanedUp = Z.of_nat (length expired)
    /\ SessionService.sessions st'
       = filter (fun e => negb (isExpired now (ClientSession.lastActivity (snd e))
                                          SessionTimeoutMs))
                (SessionService.sessions st)
    /\ SessionService.emitted st'
       = SessionService.emitted st
         ++ map SessionService.sessionRemoved expired
         ++ (if 0 <? cleanedUp then [SessionService.cleanupCompleted cleanedUp]
             else [])
    /\ SessionService.getExpiredSessions SessionTimeoutMs now st' = []
    /\ fst (SessionService.cleanupExpiredSessions SessionTimeoutMs now st') = 0.
Proof.
  intros ops T now st expired cleanedUp st'.
  destruct (session_run_store ops) as [Hnd Hf]. fold st in Hnd, Hf.
  rewrite Forall_forall in Hf.
  assert (Hids : NoDup (map ClientSession.id expired)).
  { unfold expired, SessionService.getExpiredSessions. apply NoDup_map_filter.
    unfold JsMap.values. rewrite map_map.
    erewrite map_ext_in; [exact Hnd|]. intros kv Hkv. now apply Hf. }
  assert (Hin : forall s, In s expired ->
                          In (ClientSession.id s, s) (SessionService.sessions st)).
  { intros s Hs. unfold expired, SessionService.getExpiredSessions in Hs.
    apply filter_In in Hs as [Hs _]. apply in_map_iff in Hs as ([k s'] & <- & Hkv).
    pose proof (Hf _ Hkv) as Hid. simpl in *. now rewrite Hid. }
  destruct (session_cleanup_loop expired st 0 Hids Hnd Hin) as (H1 & H2 & H3).
  assert (Hfilter :
            filter (fun e => negb (existsb (String.eqb (fst e))
                                           (map ClientSession.id expired)))
                   (SessionService.sessions st)
            = filter (fun e => negb (isExpired now (ClientSession.lastActivity (snd e)) T))
                     (SessionService.sessions st)).
  { apply filter_ext_in. intros [k s] Hkv. simpl. f_equal.
    destruct (isExpired now (ClientSession.lastActivity s) T) eqn:Ex.
    - apply existsb_exists. exists k. split; [|apply String.eqb_refl].
      apply in_map_iff. exists s. split; [exact (Hf _ Hkv)|].
      unfold expired, SessionService.getExpiredSessions. apply filter_In.
      split; [|assumption]. apply in_map_iff. exists (k, s). auto.
    - destruct (existsb (String.eqb k) (map ClientSession.id expired)) eqn:Eb;
        [|reflexivity].
      apply existsb_exists in Eb as (k' & Hk' & Heq).
      apply String.eqb_eq in Heq. subst k'.
      apply in_map_iff in Hk' as (s' & Hid & Hs').
      pose proof (Hin _ Hs') as Hkv'. rewrite Hid in Hkv'.
      assert (s' = s).
      { pose proof (In_get _ _ _ Hnd Hkv) as G1.
        pose proof (In_get _ _ _ Hnd Hkv') as G2. congruence. }
      subst s'. unfold expired, SessionService.getExpiredSessions in Hs'.
      apply filter_In in Hs' as [_ Hs']. congruence. }
  assert (Hcount : cleanedUp = Z.of_nat (length expired)).
  { unfold cleanedUp, SessionService.cleanupExpiredSessions. cbv zeta. cbn [fst].
    fold expired. rewrite H1. lia. }
  assert (Hsessions : SessionService.sessions st'
                      = filter (fun e => negb (isExpired now
                                                 (ClientSession.lastActivity (snd e)) T))
                               (SessionService.sessions st)).
  { unfold st', SessionService.cleanupExpiredSessions. cbv zeta. cbn [snd].
    fold expired. rewrite <- Hfilter, <- H2. now destruct (0 <? _). }
  assert (Hnone : SessionService.getExpiredSessions T now st' = []).
  { unfold SessionService.getExpiredSessions. rewrite Hsessions.
    apply filter_none. intros s Hs. apply in_map_iff in Hs as ([k s'] & <- & Hkv).
    apply filter_In in Hkv as [_ Hkv]. simpl in *. now apply negb_true_iff. }
  split; [exact Hcount|]. split; [exact Hsessions|]. split.
  { unfold st', cleanedUp, SessionService.cleanupExpiredSessions.
    cbv zeta. cbn [fst snd]. fold expired.
    destruct (0 <? _); simpl; rewrite H3; [|now rewrite app_nil_r].
    now rewrite <- app_assoc. }
  split; [exact Hnone|].
  unfold SessionService.cleanupExpiredSessions. cbv zeta. cbn [fst].
  now rewrite Hnone.
Qed.

Lemma session_readings_snoc ops op :
  SessionService.readings (ops ++ [op])
  = SessionService.readings ops ++ SessionService.reading op.
Proof.
  unfold SessionService.readings. rewrite flat_map_app. simpl.
  now rewrite app_nil_r.
Qed.

Lemma SS_prefix {A : Type} (R : A -> A -> Prop) (u w : list A) :
  StronglySorted R (u ++ w) -> StronglySorted R u.
Proof.
  induction w as [|x w IH]; intro Hs.
  - now rewrite app_nil_r in Hs.
  - apply IH. now apply SS_remove in Hs.
Qed.

Lemma session_timestamps_inv ops :
  StronglySorted Z.le (SessionService.readings ops) ->
  forall k s,
    In (k, s) (SessionService.sessions
                 (SessionService.run ops SessionService.new_SessionService)) ->
    ClientSession.createdAt s <= ClientSession.lastActivity s
    /\ In (ClientSession.lastActivity s) (SessionService.readings ops).
Proof.
  induction ops as [|op ops IH] using rev_ind; intros Hsorted k s Hin.
  - contradiction.
  - rewrite session_run_snoc in Hin. rewrite session_readings_snoc in *.
    set (st := SessionService.run ops SessionService.new_SessionService) in *.
    assert (Hs0 : StronglySorted Z.le (SessionService.readings ops)).
    { now apply SS_prefix in Hsorted. }
    pose proof (IH Hs0) as Hold. fold st in Hold.
    assert (Hkeep : forall k s, In (k, s) (SessionService.sessions st) ->
              ClientSession.createdAt s <= ClientSession.lastActivity s
              /\ In (ClientSession.lastActivity s)
                    (SessionService.readings ops ++ SessionService.reading op)).
    { intros k' s' H'. destruct (Hold _ _ H') as [H1 H2]. split; [assumption|].
      apply in_or_app. now left. }
    assert (Hnow : forall now k s,
              SessionService.reading op = [now] ->
              In (k, s) (SessionService.sessions st) ->
              ClientSession.createdAt s <= now).
    { intros now k' s' Hr H'. rewrite Hr in Hsorted.
      apply SS_split in Hsorted as [Hle _]. rewrite Forall_forall in Hle.
      destruct (Hold _ _ H') as [H1 H2]. specialize (Hle _ H2). simpl in Hle. lia. }
    destruct op; cbn [SessionService.exec] in Hin.
    + simpl in Hin. apply In_set_inv in Hin as [[-> ->]|Hin]; [|exact (Hkeep _ _ Hin)].
      cbn [SessionService.reading] in Hsorted.
      apply SS_split in Hsorted as [_ Hle]. inversion Hle as [|? ? Hle' _]; subst.
      simpl. split; [assumption|]. apply in_or_app. right. right. now left.
    + unfold SessionService.updateActivity in Hin.
      destruct (JsMap.get sessionId (SessionService.sessions st)) as [s0|] eqn:E;
        simpl in Hin; [|exact (Hkeep _ _ Hin)].
      apply In_set_inv in Hin as [[-> ->]|Hin]; [|exact (Hkeep _ _ Hin)].
      simpl. split.
      * apply (Hnow now sessionId s0 eq_refl). now apply get_In.
      * apply in_or_app. right. now left.
    + unfold SessionService.updateStatus in Hin.
      destruct (JsMap.get sessionId (SessionService.sessions st)) as [s0|] eqn:E;
        simpl in Hin; [|exact (Hkeep _ _ Hin)].
      apply In_set_inv in Hin as [[-> ->]|Hin]; [|exact (Hkeep _ _ Hin)].
      assert (Hc : ClientSession.createdAt s0 <= now)
        by (apply (Hnow now sessionId s0 eq_refl); now apply get_In).
      destruct (SessionService.truthy_string serverId); simpl; split;
        try assumption; apply in_or_app; right; now left.
    + rewrite session_removeSession_sessions in Hin.
      apply In_delete in Hin as [Hin _]. exact (Hkeep _ _ Hin).
    + apply session_cleanup_subset in Hin. exact (Hkeep _ _ Hin).
Qed.

(** X14.  As long as the clock readings of an execution never go back,
    every stored session has [lastActivity >= createdAt]: on creation
    [createdAt] is read first and [lastActivity] next, and
    [updateActivity] and [updateStatus] only move [lastActivity] to the
    current reading. *)
Theorem session_lastActivity_after_createdAt :
  forall (ops : list SessionService.Op),
    StronglySorted Z.le (SessionService.readings ops) ->
    forall (sessionId : string) (session : ClientSession.t),
      SessionService.getSession sessionId
        (SessionService.run ops SessionService.new_SessionService)
      = Some session ->
      ClientSession.createdAt session <= ClientSession.lastActivity session.
Proof.
  intros ops Hsorted sid s Hget. unfold SessionService.getSession in Hget.
  apply get_In in Hget. exact (proj1 (session_timestamps_inv ops Hsorted _ _ Hget)).
Qed.

Lemma count_of_bump_same status acc :
  SessionService.count_of status (SessionService.bump status acc)
  = Some (match SessionService.count_of status acc with
          | Some n => n | None => 0 end + 1).
Proof.
  induction acc as [|[k n] acc IH]; simpl.
  - destruct status; reflexivity.
  - destruct (SessionStatus_eqb k status) eqn:E; simpl; rewrite E.
    + now destruct (n =? 0) eqn:En; [apply Z.eqb_eq in En; subst|].
    + assumption.
Qed.

Lemma count_of_bump_other status status' acc :
  status' <> status ->
  SessionService.count_of status' (SessionService.bump status acc)
  = SessionService.count_of status' acc.
Proof.
  intro Hne. induction acc as [|[k n] acc IH]; simpl.
  - destruct (SessionStatus_eqb status status') eqn:E; [|reflexivity].
    apply SessionStatus_eqb_eq in E. congruence.
  - destruct (SessionStatus_eqb k status) eqn:E; simpl.
    + apply SessionStatus_eqb_eq in E. subst k.
      destruct (SessionStatus_eqb status status') eqn:E'; [|reflexivity].
      apply SessionStatus_eqb_eq in E'. congruence.
    + now rewrite IH.
Qed.

Lemma count_of_fold status (l : list ClientSession.t) :
  forall acc,
    SessionService.count_of status
      (fold_left (fun acc session =>
                    SessionService.bump (ClientSession.status session) acc) l acc)
    = match length (filter (fun session =>
                              SessionStatus_eqb (ClientSession.status session) status)
                           l) with
      | O => SessionService.count_of status acc
      | S n => Some (match SessionService.count_of status acc with
                     | Some c => c | None => 0 end + Z.of_nat (S n))
      end.
Proof.
  induction l as [|s l IH]; intro acc; simpl; [reflexivity|].
  rewrite IH.
  destruct (SessionStatus_eqb (ClientSession.status s) status) eqn:E.
  - apply SessionStatus_eqb_eq in E. subst status. rewrite count_of_bump_same.
    simpl length.
    destruct (length (filter _ l)); f_equal; lia.
  - rewrite count_of_bump_other; [reflexivity|].
    intros ->. now rewrite (proj2 (SessionStatus_eqb_eq _ _) eq_refl) in E.
Qed.

Lemma Math_min_spec (xs : list Z) :
  forall x, In (SessionService.Math_min x xs) (x :: xs)
            /\ forall y, In y (x :: xs) -> SessionService.Math_min x xs <= y.
Proof.
  unfold SessionService.Math_min.
  induction xs as [|a xs IH]; intro x; simpl.
  - split; [now left|]. intros y [<-|[]]. lia.
  - destruct (IH (Z.min x a)) as [Hin Hle]. split.
    + destruct Hin as [Hin|Hin]; [|now right; right].
      rewrite <- Hin. destruct (Z.min_spec x a) as [[_ ->]|[_ ->]]; auto.
    + intros y [Hy|[Hy|Hy]]; [| |apply Hle; now right];
        specialize (Hle (Z.min x a) (or_introl eq_refl)); lia.
Qed.

Lemma Math_max_spec (xs : list Z) :
  forall x, In (SessionService.Math_max x xs) (x :: xs)
            /\ forall y, In y (x :: xs) -> y <= SessionService.Math_max x xs.
Proof.
  unfold SessionService.Math_max.
  induction xs as [|a xs IH]; intro x; simpl.
  - split; [now left|]. intros y [<-|[]]. lia.
  - destruct (IH (Z.max x a)) as [Hin Hle]. split.
    + destruct Hin as [Hin|Hin]; [|now right; right].
      rewrite <- Hin. destruct (Z.max_spec x a) as [[_ ->]|[_ ->]]; auto.
    + intros y [Hy|[Hy|Hy]]; [| |apply Hle; now right];
        specialize (Hle (Z.max x a) (or_introl eq_refl)); lia.
Qed.

(** X15.  The figures of the session service's [getStats] agree with
    its queries: [statusCounts] has an entry for a status exactly when
    [getSessionsByStatus] finds a session, and the entry is their
    number; [expiredSessions] is the number [getExpiredSessions] lists
    and is at most [totalSessions]; [oldestSession] and
    [newestSession] are [null] exactly when there is no session, and
    otherwise are the least and the greatest [createdAt] stored. *)
Theorem session_getStats_consistent :
  forall (st : SessionService.t) (SessionTimeoutMs now : Z),
    let stats := SessionService.getStats SessionTimeoutMs now st in
    SessionService.totalSessions stats
    = Z.of_nat (length (SessionService.getAllSessions st))
    /\ (forall status,
          SessionService.count_of status (SessionService.statusCounts stats)
          = match length (SessionService.getSessionsByStatus status st) with
            | O => None
            | S n => Some (Z.of_nat (S n))
            end)
    /\ SessionService.expiredSessions stats
       = Z.of_nat (length (SessionService.getExpiredSessions SessionTimeoutMs now st))
    /\ 0 <= SessionService.expiredSessions stats
         <= SessionService.totalSessions stats
    /\ match SessionService.oldestSession stats,
             SessionService.newestSession stats with
       | Some oldest, Some newest =>
           (forall s, In s (SessionService.getAllSessions st) ->
                      oldest <= ClientSession.createdAt s <= newest)
           /\ (exists s, In s (SessionService.getAllSessions st)
                         /\ ClientSession.createdAt s = oldest)
           /\ (exists s, In s (SessionService.getAllSessions st)
                         /\ ClientSession.createdAt s = newest)
       | None, None => SessionService.getAllSessions st = []
       | _, _ => False
       end.
Proof.
  intros st T now stats. unfold stats, SessionService.getStats.
  unfold SessionService.getAllSessions, SessionService.getSessionsByStatus,
    SessionService.getExpiredSessions.
  cbn [SessionService.totalSessions SessionService.statusCounts
       SessionService.expiredSessions SessionService.oldestSession
       SessionService.newestSession].
  set (all := JsMap.values (SessionService.sessions st)).
  split; [reflexivity|]. split.
  { intro status. rewrite count_of_fold. simpl.
    destruct (length (filter _ all)); [reflexivity|]. f_equal. }
  split; [reflexivity|]. split.
  { pose proof (filter_length_le
                  (fun session => isExpired now (ClientSession.lastActivity session) T)
                  all). lia. }
  destruct all as [|s0 rest] eqn:Hall; [reflexivity|].
  cbn [map].
  destruct (Math_min_spec (map ClientSession.createdAt rest)
                          (ClientSession.createdAt s0)) as [Hmin_in Hmin].
  destruct (Math_max_spec (map ClientSession.createdAt rest)
                          (ClientSession.createdAt s0)) as [Hmax_in Hmax].
  assert (Hmap : forall s, In s (s0 :: rest) ->
                           In (ClientSession.createdAt s)
                              (ClientSession.createdAt s0
                               :: map ClientSession.createdAt rest)).
  { intros s Hs. change (In (ClientSession.createdAt s)
                            (map ClientSession.createdAt (s0 :: rest))).
    now apply in_map. }
  assert (Hback : forall x, In x (ClientSession.createdAt s0
                                  :: map ClientSession.createdAt rest) ->
                            exists s, In s (s0 :: rest)
                                      /\ ClientSession.createdAt s = x).
  { intros x Hx. change (In x (map ClientSession.createdAt (s0 :: rest))) in Hx.
    apply in_map_iff in Hx as (s & Hs & Hin). eauto. }
  split; [|split].
  - intros s Hs. split; [apply Hmin | apply Hmax]; now apply Hmap.
  - now apply Hback.
  - now apply Hback.
Qed.

(* ------------------------------------------------------------------ *)
(** ** Connections of Cirrus servers *)

Lemma connection_get_set_same c v m :
  EnhancedMatchmaker.connection_get c (EnhancedMatchmaker.connection_set c v m)
  = Some v.
Proof.
  induction m as [|[c' v'] r IH]; simpl.
  - now rewrite Nat.eqb_refl.
  - destruct (Nat.eqb c' c) eqn:E; simpl.
    + now rewrite Nat.eqb_refl.
    + now rewrite E.
Qed.

Lemma connection_get_delete_same c m :
  EnhancedMatchmaker.connection_get c (EnhancedMatchmaker.connection_delete c m)
  = None.
Proof.
  induction m as [|[c' v'] r IH]; simpl; [reflexivity|].
  destruct (Nat.eqb c' c) eqn:E; simpl; [assumption|]. now rewrite E.
Qed.

Lemma connection_get_delete_other c c0 m :
  c0 <> c ->
  EnhancedMatchmaker.connection_get c0 (EnhancedMatchmaker.connection_delete c m)
  = EnhancedMatchmaker.connection_get c0 m.
Proof.
  intro Hne. induction m as [|[c' v'] r IH]; simpl; [reflexivity|].
  destruct (Nat.eqb c' c) eqn:E; simpl.
  - apply Nat.eqb_eq in E. subst c'.
    destruct (Nat.eqb c c0) eqn:E'; [|assumption].
    apply Nat.eqb_eq in E'. congruence.
  - now rewrite IH.
Qed.

(** X16.  [handleCirrusDisconnection] unregisters the server bound to
    the connection and releases the binding, leaving the other
    connections bound as they were; on a connection that is not bound
    it does nothing.  Handling the same disconnection twice (['error']
    followed by ['close']) is the same as handling it once. *)
Theorem handleCirrusDisconnection_releases :
  forall (app : EnhancedMatchmaker.t) (connection : EnhancedMatchmaker.Connection),
    let app' := EnhancedMatchmaker.handleCirrusDisconnection connection app in
    match EnhancedMatchmaker.bound_server connection app with
    | Some serverId =>
        JsMap.get serverId
                  (cirrusServers (EnhancedMatchmaker.matchmakerService app'))
        = None
        /\ EnhancedMatchmaker.connection_get
             connection (EnhancedMatchmaker.connectionMap app') = None
        /\ (forall c, c <> connection ->
              EnhancedMatchmaker.connection_get
                c (EnhancedMatchmaker.connectionMap app')
              = EnhancedMatchmaker.connection_get
                  c (EnhancedMatchmaker.connectionMap app))
        /\ (forall k, k <> serverId ->
              JsMap.get k (cirrusServers (EnhancedMatchmaker.matchmakerService app'))
              = JsMap.get k (cirrusServers (EnhancedMatchmaker.matchmakerService app)))
        /\ EnhancedMatchmaker.ended app' = EnhancedMatchmaker.ended app
    | None => app' = app
    end
    /\ EnhancedMatchmaker.handleCirrusDisconnection connection app' = app'.
Proof.
  intros app c app'. unfold app', EnhancedMatchmaker.handleCirrusDisconnection.
  destruct (EnhancedMatchmaker.bound_server c app) as [serverId|] eqn:Hb.
  - cbn [EnhancedMatchmaker.matchmakerService EnhancedMatchmaker.connectionMap
         EnhancedMatchmaker.ended].
    assert (Hgone : JsMap.get serverId
                      (cirrusServers
                         (unregisterServer serverId
                            (EnhancedMatchmaker.matchmakerService app))) = None).
    { unfold unregisterServer.
      destruct (JsMap.get serverId
                  (cirrusServers (EnhancedMatchmaker.matchmakerService app)))
        eqn:E; [apply get_delete_same | assumption]. }
    split.
    + split; [exact Hgone|]. split; [apply connection_get_delete_same|].
      split; [intros c0 Hc0; now apply connection_get_delete_other|].
      split; [|reflexivity].
      intros k Hk. unfold unregisterServer.
      destruct (JsMap.get serverId
                  (cirrusServers (EnhancedMatchmaker.matchmakerService app)));
        [|reflexivity].
      now apply get_delete_other.
    + unfold EnhancedMatchmaker.bound_server.
      cbn [EnhancedMatchmaker.connectionMap].
      now rewrite connection_get_delete_same.
  - split; [reflexivity|]. now rewrite Hb.
Qed.

Lemma processQueue_run_spec clock st :
  (forall sid, In sid (queueOrder st) ->
               JsMap.get sid (clientSessions st) <> None) ->
  exists n : nat,
    let st' := EnhancedMatchmaker.processQueue_run clock st in
    (n <= length (queueOrder st))%nat
    /\ queueOrder st' = skipn n (queueOrder st)
    /\ (queueOrder st' = [] \/ fst (getAvailableServer (clock n) st') = None)
    /\ (forall sid, In sid (firstn n (queueOrder st)) ->
          exists s, JsMap.get sid (clientSessions st') = Some s
                    /\ ClientSession.status s = connected).
Proof.
  intro Hpresent.
  destruct (processQueue_serves_loop (queueOrder st) st clock eq_refl Hpresent)
    as (n & st' & H1 & H2 & H3 & H4 & H5 & _).
  exists n. unfold EnhancedMatchmaker.processQueue_run. rewrite H1. auto.
Qed.

(** X17.  When a [connect] message is handled, the connection is bound
    to the identifier just drawn and, before the handler returns, the
    waiting sessions are served from the head of the queue: the first n
    are assigned (each ends [connected]), the rest stay queued in their
    order, and either the queue is empty or no server is available at
    the clock reading of the last call.  No connection is closed. *)
Theorem handleCirrusMessage_connect_serves_queue :
  forall (app : EnhancedMatchmaker.t) (connection : EnhancedMatchmaker.Connection)
         (message : MatchmakerMessage.t) (newId : string) (clock : nat -> Z),
    MatchmakerMessage.type message = connect ->
    (forall sid,
        In sid (queueOrder (EnhancedMatchmaker.matchmakerService app)) ->
        JsMap.get sid (clientSessions (EnhancedMatchmaker.matchmakerService app))
        <> None) ->
    let app' :=
      EnhancedMatchmaker.handleCirrusMessage connection (Some message) newId
                                             clock app in
    let st := EnhancedMatchmaker.matchmakerService app in
    let st' := EnhancedMatchmaker.matchmakerService app' in
    EnhancedMatchmaker.connection_get
      connection (EnhancedMatchmaker.connectionMap app') = Some newId
    /\ EnhancedMatchmaker.ended app' = EnhancedMatchmaker.ended app
    /\ exists n : nat,
         (n <= length (queueOrder st))%nat
         /\ queueOrder st' = skipn n (queueOrder st)
         /\ (queueOrder st' = []
             \/ fst (getAvailableServer (clock (S n)) st') = None)
         /\ (forall sid, In sid (firstn n (queueOrder st)) ->
               exists s, JsMap.get sid (clientSessions st') = Some s
                         /\ ClientSession.status s = connected).
Proof.
  intros app c message newId clock Hty Hpresent app' st st'.
  subst st' st app'. unfold EnhancedMatchmaker.handleCirrusMessage.
  rewrite Hty.
  unfold EnhancedMatchmaker.registerServer_wired.
  destruct (registerServer newId (clock O) message
              (EnhancedMatchmaker.matchmakerService app)) as [id st1] eqn:Hreg.
  assert (Hid : id = newId) by (unfold registerServer in Hreg; congruence).
  assert (Hst1 : st1 = snd (registerServer newId (clock O) message
                              (EnhancedMatchmaker.matchmakerService app)))
    by (now rewrite Hreg).
  destruct (registerServer_rest newId (clock O) message
              (EnhancedMatchmaker.matchmakerService app)) as [Hs Hq].
  rewrite <- Hst1 in Hs, Hq.
  cbn [EnhancedMatchmaker.matchmakerService EnhancedMatchmaker.connectionMap
       EnhancedMatchmaker.ended].
  split; [rewrite Hid; apply connection_get_set_same|].
  split; [reflexivity|].
  destruct (processQueue_run_spec (fun i => clock (S i)) st1) as (n & Hn).
  { intros sid Hin. rewrite Hs. apply Hpresent. now rewrite <- Hq. }
  exists n. cbv zeta in Hn. rewrite Hq in Hn. exact Hn.
Qed.

(** X18.  When a status message leaves its server ready and without
    client (a [streamerConnected], or the [clientDisconnected] of its
    last client), the ['serverUpdated'] listener serves the waiting
    sessions at once, from the head of the queue, until the queue is
    empty or no server is available; for any other outcome of the
    update the queue is left alone. *)
Theorem updateServerStatus_wired_serves_queue :
  forall (st : MatchmakerService) (serverId : string) (clock : nat -> Z)
         (message : MatchmakerMessage.t) (server : CirrusServer.t),
    JsMap.get serverId (cirrusServers st) = Some server ->
    (forall sid, In sid (queueOrder st) ->
                 JsMap.get sid (clientSessions st) <> None) ->
    let server' :=
      apply_status (clock O) (MatchmakerMessage.type message) server in
    let st' :=
      EnhancedMatchmaker.updateServerStatus_wired serverId clock message st in
    if CirrusServer.ready server'
       && (CirrusServer.numConnectedClients server' =? 0)
    then exists n : nat,
           (n <= length (queueOrder st))%nat
           /\ queueOrder st' = skipn n (queueOrder st)
           /\ (queueOrder st' = []
               \/ fst (getAvailableServer (clock (S n)) st') = None)
           /\ (forall sid, In sid (firstn n (queueOrder st)) ->
                 exists s, JsMap.get sid (clientSessions st') = Some s
                           /\ ClientSession.status s = connected)
    else st' = updateServerStatus serverId (clock O) message st
         /\ queueOrder st' = queueOrder st.
Proof.
  intros st serverId clock message server Hget Hpresent server' st'.
  unfold st', EnhancedMatchmaker.updateServerStatus_wired. rewrite Hget.
  fold server'.
  destruct (updateServerStatus_rest serverId (clock O) message st) as [Hs Hq].
  destruct (CirrusServer.ready server'
            && (CirrusServer.numConnectedClients server' =? 0)).
  - destruct (processQueue_run_spec (fun i => clock (S i))
                (updateServerStatus serverId (clock O) message st)) as (n & Hn).
    { intros sid Hin. rewrite Hs. apply Hpresent. now rewrite <- Hq. }
    exists n. cbv zeta in Hn. rewrite Hq in Hn. exact Hn.
  - split; [reflexivity | exact Hq].
Qed.

(* ------------------------------------------------------------------ *)
(** ** The further properties on sample executions *)

(** Two queued sessions and two servers: two of two servers available,
    no client, two of two sessions queued. *)
Lemma getStats_bounds_witness :
  fresh_ids (two_queued ++ two_nodes)
  /\ 0 <= availableServers (getStats 2000 two_and_two)
       <= totalServers (getStats 2000 two_and_two)
  /\ 0 <= totalClients (getStats 2000 two_and_two)
  /\ 0 <= queueLength (getStats 2000 two_and_two)
       <= activeSessions (getStats 2000 two_and_two).
Proof.
  assert (H : fresh_ids (two_queued ++ two_nodes)) by distinct_strings.
  exact (conj H (getStats_bounds (two_queued ++ two_nodes) 2000 H)).
Defined.

(** A third session of priority 0 goes behind the two already queued
    with priority 0, a third session of priority 5 would go first. *)
Lemma addToQueue_position_witness :
  fresh_ids (two_queued ++ [AddToQueue "s3"%string 30 None 0])
  /\ getQueuePosition "s3"%string
                      (snd (addToQueue "s3"%string 30 None 0 waiting))
     = Some (mkQueuePosition 3 900000 3).
Proof.
  assert (H : fresh_ids (two_queued ++ [AddToQueue "s3"%string 30 None 0]))
    by distinct_strings.
  exact (conj H (addToQueue_position two_queued "s3"%string 30 None 0 H)).
Defined.

(** With a timeout of 100 ms, the sweep at 115 removes the session last
    active at 10 and keeps the one last active at 20. *)
Lemma cleanupExpiredSessions_removes_expired_witness :
  fresh_ids two_queued
  /\ clientSessions (cleanupExpiredSessions 100 115 waiting)
     = filter (fun e => negb (expired_entry 100 115 e)) (clientSessions waiting)
  /\ emitted (cleanupExpiredSessions 100 115 waiting)
     = emitted waiting
       ++ map (fun e => sessionRemoved (snd e))
              (filter (expired_entry 100 115) (clientSessions waiting))
  /\ (forall sid,
        In sid (queueOrder (cleanupExpiredSessions 100 115 waiting)) <->
        In sid (queueOrder waiting)
        /\ exists s, JsMap.get sid (clientSessions waiting) = Some s
                     /\ isExpired 115 (ClientSession.lastActivity s) 100 = false)
  /\ cirrusServers (cleanupExpiredSessions 100 115 waiting)
     = cirrusServers waiting.
Proof.
  assert (H : fresh_ids two_queued) by distinct_strings.
  exact (conj H (cleanupExpiredSessions_removes_expired two_queued 100 115 H)).
Defined.

(** Two queued sessions and two available servers: the loop serves
    both. *)
Lemma processQueue_serves_head_witness :
  (forall sid, In sid (queueOrder two_and_two) ->
               JsMap.get sid (clientSessions two_and_two) <> None)
  /\ exists (n : nat) (st' : MatchmakerService),
       processQueue (S (length (queueOrder two_and_two))) (ticking 2000)
                    two_and_two = Some st'
       /\ queueOrder st' = skipn n (queueOrder two_and_two)
       /\ (n <= length (queueOrder two_and_two))%nat
       /\ (queueOrder st' = []
           \/ fst (getAvailableServer (ticking 2000 n) st') = None)
       /\ (forall sid, In sid (firstn n (queueOrder two_and_two)) ->
             exists s, JsMap.get sid (clientSessions st') = Some s
                       /\ ClientSession.status s = connected).
Proof.
  assert (H : forall sid, In sid (queueOrder two_and_two) ->
                          JsMap.get sid (clientSessions two_and_two) <> None)
    by (intros sid [<-|[<-|[]]]; discriminate).
  exact (conj H (processQueue_serves_head two_and_two (ticking 2000) H)).
Defined.

(** Two queued sessions and two servers: the session served at 2000
    goes to ["n1"]; after a ping of ["n1"], the one served at 9000 goes
    to ["n2"]. *)
Lemma assignments_use_distinct_servers_witness :
  let st1 := snd (processNextInQueue 2000 two_and_two) in
  let session1 :=
    ClientSession.assign "n1"%string 2000
      (new_session "s1"%string 10 (Some "c1"%string) 0) in
  let server1 := CirrusServer.set_lastRedirect (Some 2000) node1 in
  let ops := [UpdateServerStatus "n1"%string 3000 (MatchmakerMessage.bare ping)] in
  let st2 := snd (processNextInQueue 9000 (run ops st1)) in
  let session2 :=
    ClientSession.assign "n2"%string 9000
      (new_session "s2"%string 20 (Some "c2"%string) 0) in
  let server2 := CirrusServer.set_lastRedirect (Some 9000) node2 in
  processNextInQueue 2000 (run (two_queued ++ two_nodes) new_MatchmakerService)
  = (true, st1)
  /\ emitted st1
     = emitted (run (two_queued ++ two_nodes) new_MatchmakerService)
       ++ [clientAssigned session1 server1]
  /\ 0 < 2000
  /\ Forall (keeps_cooldown (CirrusServer.id server1)) ops
  /\ 9000 - 2000 < 10000
  /\ processNextInQueue 9000 (run ops st1) = (true, st2)
  /\ emitted st2 = emitted (run ops st1) ++ [clientAssigned session2 server2]
  /\ CirrusServer.id server2 <> CirrusServer.id server1
  /\ ClientSession.serverId session1 = Some (CirrusServer.id server1)
  /\ ClientSession.serverId session2 = Some (CirrusServer.id server2)
  /\ ClientSession.status session1 = connected
  /\ ClientSession.status session2 = connected.
Proof.
  intros st1 session1 server1 ops st2 session2 server2.
  assert (H1 : processNextInQueue 2000
                 (run (two_queued ++ two_nodes) new_MatchmakerService)
               = (true, st1)) by reflexivity.
  assert (H2 : emitted st1
               = emitted (run (two_queued ++ two_nodes) new_MatchmakerService)
                 ++ [clientAssigned session1 server1]) by reflexivity.
  assert (H3 : 0 < 2000) by lia.
  assert (H4 : Forall (keeps_cooldown (CirrusServer.id server1)) ops)
    by (constructor; [intros _; discriminate | constructor]).
  assert (H5 : 9000 - 2000 < 10000) by lia.
  assert (H6 : processNextInQueue 9000 (run ops st1) = (true, st2))
    by reflexivity.
  assert (H7 : emitted st2
               = emitted (run ops st1) ++ [clientAssigned session2 server2])
    by reflexivity.
  exact (conj H1 (conj H2 (conj H3 (conj H4 (conj H5 (conj H6 (conj H7
           (assignments_use_distinct_servers
              (two_queued ++ two_nodes) 2000 st1 session1 server1
              ops 9000 st2 session2 server2 H1 H2 H3 H4 H5 H6 H7)))))))).
Defined.

(** A first session created in the empty service while the clock
    advances from 10 to 11, read back and removed. *)
Lemma session_create_get_remove_witness :
  let st := SessionService.new_SessionService in
  let session :=
    fst (SessionService.createSession "s1"%string 10 11 (Some "c1"%string) 0
                                      st) in
  let st1 :=
    snd (SessionService.createSession "s1"%string 10 11 (Some "c1"%string) 0
                                      st) in
  let st2 := snd (SessionService.removeSession "s1"%string st1) in
  SessionService.getSession "s1"%string st = None
  /\ SessionService.getSession "s1"%string st1 = Some session
  /\ (ClientSession.id session = "s1"%string
      /\ ClientSession.status session = queued
      /\ ClientSession.createdAt session = 10
      /\ ClientSession.lastActivity session = 11
      /\ ClientSession.clientId session = Some "c1"%string
      /\ ClientSession.priority session = 0
      /\ ClientSession.serverId session = None)
  /\ (forall k, k <> "s1"%string ->
        SessionService.getSession k st1 = SessionService.getSession k st)
  /\ fst (SessionService.removeSession "s1"%string st1) = true
  /\ SessionService.sessions st2 = SessionService.sessions st
  /\ SessionService.emitted st2
     = SessionService.emitted st
       ++ [SessionService.sessionCreated session;
           SessionService.sessionRemoved session]
  /\ SessionService.removeSession "s1"%string st2 = (false, st2).
Proof.
  intros st session st1 st2.
  assert (H : SessionService.getSession "s1"%string st = None) by reflexivity.
  exact (conj H (session_create_get_remove st "s1"%string 10 11
                   (Some "c1"%string) 0 H)).
Defined.

(** A session created at 10, touched at 20 and connected at 30 was last
    active at 30. *)
Lemma session_lastActivity_after_createdAt_witness :
  let session :=
    ClientSession.mk "s1"%string (Some "c1"%string) (Some "n1"%string)
                     10 30 connected 0 None in
  StronglySorted Z.le (SessionService.readings session_history)
  /\ SessionService.getSession "s1"%string
       (SessionService.run session_history SessionService.new_SessionService)
     = Some session
  /\ ClientSession.createdAt session <= ClientSession.lastActivity session.
Proof.
  intro session.
  assert (H1 : StronglySorted Z.le (SessionService.readings session_history))
    by (repeat (constructor; [|repeat constructor; simpl; lia]); constructor).
  assert (H2 : SessionService.getSession "s1"%string
                 (SessionService.run session_history
                                     SessionService.new_SessionService)
               = Some session) by reflexivity.
  exact (conj H1 (conj H2
           (session_lastActivity_after_createdAt
              session_history H1 "s1"%string session H2))).
Defined.

(** Two sessions wait and no server is known: a [connect] on connection
    1 binds it and serves the first session. *)
Lemma handleCirrusMessage_connect_serves_queue_witness :
  let message := connect_from "10.0.0.1"%string false in
  let app' :=
    EnhancedMatchmaker.handleCirrusMessage 1%nat (Some message) "n1"%string
                                           (ticking 1000) waiting_app in
  let st' := EnhancedMatchmaker.matchmakerService app' in
  MatchmakerMessage.type message = connect
  /\ (forall sid, In sid (queueOrder waiting) ->
                  JsMap.get sid (clientSessions waiting) <> None)
  /\ EnhancedMatchmaker.connection_get
       1%nat (EnhancedMatchmaker.connectionMap app') = Some "n1"%string
  /\ EnhancedMatchmaker.ended app' = EnhancedMatchmaker.ended waiting_app
  /\ exists n : nat,
       (n <= length (queueOrder waiting))%nat
       /\ queueOrder st' = skipn n (queueOrder waiting)
       /\ (queueOrder st' = []
           \/ fst (getAvailableServer (ticking 1000 (S n)) st') = None)
       /\ (forall sid, In sid (firstn n (queueOrder waiting)) ->
             exists s, JsMap.get sid (clientSessions st') = Some s
                       /\ ClientSession.status s = connected).
Proof.
  intros message app' st'.
  assert (H1 : MatchmakerMessage.type message = connect) by reflexivity.
  assert (H2 : forall sid, In sid (queueOrder waiting) ->
                           JsMap.get sid (clientSessions waiting) <> None)
    by (intros sid [<-|[<-|[]]]; discriminate).
  exact (conj H1 (conj H2
           (handleCirrusMessage_connect_serves_queue
              waiting_app 1%nat message "n1"%string (ticking 1000) H1 H2))).
Defined.

(** Two sessions wait for a server whose only client then disconnects:
    the update serves the queue. *)
Lemma updateServerStatus_wired_serves_queue_witness :
  let server :=
    new_server "n1"%string 1000 (connect_from "10.0.0.1"%string true) in
  let message := MatchmakerMessage.bare clientDisconnected in
  let st' :=
    EnhancedMatchmaker.updateServerStatus_wired "n1"%string (ticking 2000)
                                                message waiting_busy in
  JsMap.get "n1"%string (cirrusServers waiting_busy) = Some server
  /\ (forall sid, In sid (queueOrder waiting_busy) ->
                  JsMap.get sid (clientSessions waiting_busy) <> None)
  /\ exists n : nat,
       (n <= length (queueOrder waiting_busy))%nat
       /\ queueOrder st' = skipn n (queueOrder waiting_busy)
       /\ (queueOrder st' = []
           \/ fst (getAvailableServer (ticking 2000 (S n)) st') = None)
       /\ (forall sid, In sid (firstn n (queueOrder waiting_busy)) ->
             exists s, JsMap.get sid (clientSessions st') = Some s
                       /\ ClientSession.status s = connected).
Proof.
  intros server message st'.
  assert (H1 : JsMap.get "n1"%string (cirrusServers waiting_busy) = Some server)
    by reflexivity.
  assert (H2 : forall sid, In sid (queueOrder waiting_busy) ->
                           JsMap.get sid (clientSessions waiting_busy) <> None)
    by (intros sid [<-|[<-|[]]]; discriminate).
  exact (conj H1 (conj H2
           (updateServerStatus_wired_serves_queue
              waiting_busy "n1"%string (ticking 2000) message server H1 H2))).
Defined.

End Properties.

